(** * md2png: the layout-and-rasterisation walk of [ImageTreeprocessor]

    A shallow embedding of [src/md2png/__init__.py], read as Python 3.  The
    Python object is a record [state]; every method is a function in a
    state-and-exception monad [M], and an exception leaves behind the state
    reached when it was raised.  Pillow is kept abstract: a chunk image is
    the list of drawing calls issued on it, and the measuring primitive
    [textsize] is a parameter of the development.  Python integers are [Z];
    the floats that place the rule and the bullet, which come from a true
    division by two, are binary64 values, rounded as Python rounds them.
    [Image.new] refuses the sizes that Pillow refuses.  The width
    specification lives in a store of list objects, since the renderer and
    its caller share it.

    Not modelled: the parsing of the markdown source, the loading of fonts
    (a failure there ends construction), the recursion limit of the
    interpreter and the exhaustion of memory ([MemoryError]: an image of a
    size that Pillow accepts is allocated). *)

From Stdlib Require Import ZArith String Ascii List Bool Lia.
From Stdlib Require Import DecimalString Permutation Sorted RelationClasses.
Import ListNotations.

Local Open Scope string_scope.
Local Open Scope list_scope.
Local Open Scope Z_scope.

(** ** Text helpers (the [str] and [re] calls of [render_text]) *)

Module Text.

(** [\s] of a [str] pattern, on code points below 256. *)
Definition is_space (c : ascii) : bool :=
  let n := nat_of_ascii c in
  ((9 <=? n) && (n <=? 13) || (28 <=? n) && (n <=? 32)
   || (n =? 133) || (n =? 160))%nat.

(** [re.sub('\s+', ' ', text)]: [in_run] tells that the previous character was
    white space, already replaced by the single blank of its run. *)
Fixpoint compact_ws (in_run : bool) (s : string) : string :=
  match s with
  | EmptyString => EmptyString
  | String c r =>
      if is_space c
      then if in_run then compact_ws true r else String " " (compact_ws true r)
      else String c (compact_ws false r)
  end.

(** [text.split(sep)] for a one-character separator: never an empty list. *)
Fixpoint split (sep : ascii) (s : string) : list string :=
  match s with
  | EmptyString => [EmptyString]
  | String c r =>
      if Ascii.eqb c sep then EmptyString :: split sep r
      else match split sep r with
           | [] => [String c EmptyString]
           | w :: ws => String c w :: ws
           end
  end.

(** [sep.join(l)] *)
Fixpoint join (sep : string) (l : list string) : string :=
  match l with
  | [] => EmptyString
  | [w] => w
  | w :: ws => (w ++ sep ++ join sep ws)%string
  end.

(** [l[a:b]] for [0 <= a]; like Python, the slice is clamped to the list. *)
Definition slice {A} (l : list A) (a b : nat) : list A :=
  firstn (b - a) (skipn a l).

(** ["%d" % n] *)
Definition fmt_d (n : Z) : string := NilZero.string_of_int (Z.to_int n).

Definition newline_char : ascii := ascii_of_nat 10.

End Text.

(** ** Width specifications and the list objects that hold them *)

(** One triple [(y-offset, x-offset, width)]. *)
Definition entry : Type := Z * Z * Z.

Definition y_offset (e : entry) : Z := fst (fst e).
Definition x_offset (e : entry) : Z := snd (fst e).
Definition width (e : entry) : Z := snd e.

(** Python compares tuples lexicographically. *)
Definition entry_leb (a b : entry) : bool :=
  (y_offset a <? y_offset b)
  || (y_offset a =? y_offset b)
     && ((x_offset a <? x_offset b)
         || (x_offset a =? x_offset b) && (width a <=? width b)).

Fixpoint insert_entry (e : entry) (l : list entry) : list entry :=
  match l with
  | [] => [e]
  | x :: r => if entry_leb e x then e :: l else x :: insert_entry e r
  end.

(** [list.sort()] on integer triples.  The order is total and equal triples
    are indistinguishable, so that every sorting algorithm, and Python's
    stable one with them, computes this list. *)
Fixpoint sort_entries (l : list entry) : list entry :=
  match l with
  | [] => []
  | e :: r => insert_entry e (sort_entries r)
  end.

(** [max(l, key=lambda x: x[2])]: the first entry of greatest width. *)
Fixpoint max_by_width (best : entry) (l : list entry) : entry :=
  match l with
  | [] => best
  | e :: r => max_by_width (if width best <? width e then e else best) r
  end.

(** A reference to a list object, and the store of these objects.  The width
    specification is a mutable list that the caller keeps a reference to. *)
Definition loc : Type := nat.
Definition store : Type := loc -> list entry.

Definition store_set (h : store) (r : loc) (v : list entry) : store :=
  fun r' => if Nat.eqb r' r then v else h r'.

(** ** Drawing surface *)

Definition color : Type := Z * Z * Z * Z.

Inductive font : Type :=
  | default_font | bold_font | code_font | italics_font
  | h1_font | h2_font | h3_font | h4_font | h5_font | h6_font.

(** A Python [float]: binary64.  Every float of the walk is an integer or
    an integer and a half, or an infinity: [Halves k] is the float [k / 2]. *)
Inductive pyfloat : Type :=
  | Halves (k : Z)
  | Infinity (negative : bool).

(** The calls made on an [ImageDraw.Draw]; the ordinates of the ellipse and
    of the line are floats. *)
Inductive draw_op : Type :=
  | DText (x y : Z) (text : string) (f : font) (fill : color)
  | DEllipse (x0 : Z) (y0 : pyfloat) (x1 : Z) (y1 : pyfloat)
             (outline fill : color)
  | DLine (x0 : Z) (y0 : pyfloat) (x1 : Z) (y1 : pyfloat) (fill : color).

(** An RGBA image: its size and what has been drawn on it. *)
Record img : Type := mkImg {
  img_width : Z;
  img_height : Z;
  img_ops : list draw_op
}.

(** An image on which nothing has been drawn. *)
Definition blank (w h : Z) : img :=
  {| img_width := w; img_height := h; img_ops := [] |}.

(** The greatest and the least C [int]: the numbers that Pillow takes for a
    width, a height and the corners of a box. *)
Definition INT_MAX : Z := 2 ^ 31 - 1.
Definition INT_MIN : Z := - 2 ^ 31.

(** The result of [get_image]: a blank image and the chunks pasted on it. *)
Record final_image : Type := mkFinal {
  final_width : Z;
  final_height : Z;
  final_pastes : list (img * (Z * Z))
}.

(** The [ImageDraw.Draw] of the current chunk.  [new_image_block] is the only
    place that creates one, together with the image it draws on. *)
Inductive surface : Type := Surface.

(** [(x, y, w, h)] as appended to [blocks]; [y] is the logical one. *)
Definition box : Type := Z * Z * Z * Z.

Inductive list_kind : Type := ordered | unordered.

Definition BULLET_DIAMETER : Z := 4.
Definition IMAGE_BLOCK_HEIGHT : Z := 1000.

(** ** Configuration (the numeric and colour keys read by the walk) *)

Record config_t : Type := mkConfig {
  blockquote_indent : Z;
  code_indent : Z;
  cfg_color : color;
  hr_color : color;
  hr_padding : Z;
  link_color : color;
  list_indent : Z;
  list_item_margin_bottom : Z;
  bullet_outdent : Z;
  margin_bottom : Z
}.

Definition default_config : config_t :=
  {| blockquote_indent := 16;
     code_indent := 16;
     cfg_color := (255, 255, 255, 255);
     hr_color := (220, 220, 220, 255);
     hr_padding := 0;
     link_color := (100, 100, 255, 255);
     list_indent := 28;
     list_item_margin_bottom := 4;
     bullet_outdent := 8;
     margin_bottom := 16 |}.

(** ** Document tree ([xml.etree] elements) *)

#[local] Unset Elimination Schemes.
Inductive node : Type :=
  Node (tag : string) (text tail : option string)
       (attrib : list (string * string)) (children : list node).
#[local] Set Elimination Schemes.

Definition node_tag (n : node) : string := let 'Node t _ _ _ _ := n in t.
Definition node_text (n : node) : option string := let 'Node _ t _ _ _ := n in t.
Definition node_tail (n : node) : option string := let 'Node _ _ t _ _ := n in t.
Definition node_attrib (n : node) : list (string * string) :=
  let 'Node _ _ _ a _ := n in a.
Definition node_children (n : node) : list node := let 'Node _ _ _ _ c := n in c.

(** [attrib[key]], [None] when [key not in attrib]. *)
Fixpoint attrib_get (key : string) (a : list (string * string)) : option string :=
  match a with
  | [] => None
  | (k, v) :: r => if String.eqb k key then Some v else attrib_get key r
  end.

(** ** The state of an [ImageTreeprocessor]

    [start_x] and [end_x] exist only once [apply_width_spec] has assigned
    them; [image_draw] is [None] after [del self.image_draw], [Some None] when
    it holds Python's [None].  [stdout] collects what is printed.
    [ordinal_log] is a ghost history and no field of the Python object: for
    each number drawn by [handle_li] it keeps the length of [list_item_nums] at
    that moment and the number. *)
Record state : Type := mkState {
  heap : store;
  width_spec : loc;
  width_spec_index : Z;
  start_x : option Z;
  end_x : option Z;
  image : option img;
  image_draw : option (option surface);
  image_x : Z;
  image_y : Z;
  y : Z;
  indent : Z;
  line_height : Z;
  in_pre : bool;
  links : list (string * option (list box));
  list_types : list list_kind;
  list_item_nums : list Z;
  image_width : Z;
  images : list (img * Z);
  config : config_t;
  stdout : list string;
  ordinal_log : list (nat * Z)
}.

Definition set_width_spec_index (v : Z) (s : state) : state :=
  {| heap := heap s; width_spec := width_spec s; width_spec_index := v;
     start_x := start_x s; end_x := end_x s; image := image s;
     image_draw := image_draw s; image_x := image_x s; image_y := image_y s; y := y s;
     indent := indent s; line_height := line_height s; in_pre := in_pre s;
     links := links s; list_types := list_types s; list_item_nums := list_item_nums s;
     image_width := image_width s; images := images s; config := config s;
     stdout := stdout s; ordinal_log := ordinal_log s |}.

Definition set_start_x (v : option Z) (s : state) : state :=
  {| heap := heap s; width_spec := width_spec s;
     width_spec_index := width_spec_index s; start_x := v; end_x := end_x s;
     image := image s; image_draw := image_draw s; image_x := image_x s;
     image_y := image_y s; y := y s; indent := indent s; line_height := line_height s;
     in_pre := in_pre s; links := links s; list_types := list_types s;
     list_item_nums := list_item_nums s; image_width := image_width s;
     images := images s; config := config s; stdout := stdout s;
     ordinal_log := ordinal_log s |}.

Definition set_end_x (v : option Z) (s : state) : state :=
  {| heap := heap s; width_spec := width_spec s;
     width_spec_index := width_spec_index s; start_x := start_x s; end_x := v;
     image := image s; image_draw := image_draw s; image_x := image_x s;
     image_y := image_y s; y := y s; indent := indent s; line_height := line_height s;
     in_pre := in_pre s; links := links s; list_types := list_types s;
     list_item_nums := list_item_nums s; image_width := image_width s;
     images := images s; config := config s; stdout := stdout s;
     ordinal_log := ordinal_log s |}.

Definition set_image (v : option img) (s : state) : state :=
  {| heap := heap s; width_spec := width_spec s;
     width_spec_index := width_spec_index s; start_x := start_x s; end_x := end_x s;
     image := v; image_draw := image_draw s; image_x := image_x s;
     image_y := image_y s; y := y s; indent := indent s; line_height := line_height s;
     in_pre := in_pre s; links := links s; list_types := list_types s;
     list_item_nums := list_item_nums s; image_width := image_width s;
     images := images s; config := config s; stdout := stdout s;
     ordinal_log := ordinal_log s |}.

Definition set_image_draw (v : option (option surface)) (s : state) : state :=
  {| heap := heap s; width_spec := width_spec s;
     width_spec_index := width_spec_index s; start_x := start_x s; end_x := end_x s;
     image := image s; image_draw := v; image_x := image_x s; image_y := image_y s;
     y := y s; indent := indent s; line_height := line_height s; in_pre := in_pre s;
     links := links s; list_types := list_types s; list_item_nums := list_item_nums s;
     image_width := image_width s; images := images s; config := config s;
     stdout := stdout s; ordinal_log := ordinal_log s |}.

Definition set_image_x (v : Z) (s : state) : state :=
  {| heap := heap s; width_spec := width_spec s;
     width_spec_index := width_spec_index s; start_x := start_x s; end_x := end_x s;
     image := image s; image_draw := image_draw s; image_x := v; image_y := image_y s;
     y := y s; indent := indent s; line_height := line_height s; in_pre := in_pre s;
     links := links s; list_types := list_types s; list_item_nums := list_item_nums s;
     image_width := image_width s; images := images s; config := config s;
     stdout := stdout s; ordinal_log := ordinal_log s |}.

Definition set_image_y (v : Z) (s : state) : state :=
  {| heap := heap s; width_spec := width_spec s;
     width_spec_index := width_spec_index s; start_x := start_x s; end_x := end_x s;
     image := image s; image_draw := image_draw s; image_x := image_x s; image_y := v;
     y := y s; indent := indent s; line_height := line_height s; in_pre := in_pre s;
     links := links s; list_types := list_types s; list_item_nums := list_item_nums s;
     image_width := image_width s; images := images s; config := config s;
     stdout := stdout s; ordinal_log := ordinal_log s |}.

Definition set_y (v : Z) (s : state) : state :=
  {| heap := heap s; width_spec := width_spec s;
     width_spec_index := width_spec_index s; start_x := start_x s; end_x := end_x s;
     image := image s; image_draw := image_draw s; image_x := image_x s;
     image_y := image_y s; y := v; indent := indent s; line_height := line_height s;
     in_pre := in_pre s; links := links s; list_types := list_types s;
     list_item_nums := list_item_nums s; image_width := image_width s;
     images := images s; config := config s; stdout := stdout s;
     ordinal_log := ordinal_log s |}.

Definition set_indent (v : Z) (s : state) : state :=
  {| heap := heap s; width_spec := width_spec s;
     width_spec_index := width_spec_index s; start_x := start_x s; end_x := end_x s;
     image := image s; image_draw := image_draw s; image_x := image_x s;
     image_y := image_y s; y := y s; indent := v; line_height := line_height s;
     in_pre := in_pre s; links := links s; list_types := list_types s;
     list_item_nums := list_item_nums s; image_width := image_width s;
     images := images s; config := config s; stdout := stdout s;
     ordinal_log := ordinal_log s |}.

Definition set_line_height (v : Z) (s : state) : state :=
  {| heap := heap s; width_spec := width_spec s;
     width_spec_index := width_spec_index s; start_x := start_x s; end_x := end_x s;
     image := image s; image_draw := image_draw s; image_x := image_x s;
     image_y := image_y s; y := y s; indent := indent s; line_height := v;
     in_pre := in_pre s; links := links s; list_types := list_types s;
     list_item_nums := list_item_nums s; image_width := image_width s;
     images := images s; config := config s; stdout := stdout s;
     ordinal_log := ordinal_log s |}.

Definition set_in_pre (v : bool) (s : state) : state :=
  {| heap := heap s; width_spec := width_spec s;
     width_spec_index := width_spec_index s; start_x := start_x s; end_x := end_x s;
     image := image s; image_draw := image_draw s; image_x := image_x s;
     image_y := image_y s; y := y s; indent := indent s; line_height := line_height s;
     in_pre := v; links := links s; list_types := list_types s;
     list_item_nums := list_item_nums s; image_width := image_width s;
     images := images s; config := config s; stdout := stdout s;
     ordinal_log := ordinal_log s |}.

Definition set_links (v : list (string * option (list box))) (s : state) : state :=
  {| heap := heap s; width_spec := width_spec s;
     width_spec_index := width_spec_index s; start_x := start_x s; end_x := end_x s;
     image := image s; image_draw := image_draw s; image_x := image_x s;
     image_y := image_y s; y := y s; indent := indent s; line_height := line_height s;
     in_pre := in_pre s; links := v; list_types := list_types s;
     list_item_nums := list_item_nums s; image_width := image_width s;
     images := images s; config := config s; stdout := stdout s;
     ordinal_log := ordinal_log s |}.

Definition set_list_types (v : list list_kind) (s : state) : state :=
  {| heap := heap s; width_spec := width_spec s;
     width_spec_index := width_spec_index s; start_x := start_x s; end_x := end_x s;
     image := image s; image_draw := image_draw s; image_x := image_x s;
     image_y := image_y s; y := y s; indent := indent s; line_height := line_height s;
     in_pre := in_pre s; links := links s; list_types := v;
     list_item_nums := list_item_nums s; image_width := image_width s;
     images := images s; config := config s; stdout := stdout s;
     ordinal_log := ordinal_log s |}.

Definition set_list_item_nums (v : list Z) (s : state) : state :=
  {| heap := heap s; width_spec := width_spec s;
     width_spec_index := width_spec_index s; start_x := start_x s; end_x := end_x s;
     image := image s; image_draw := image_draw s; image_x := image_x s;
     image_y := image_y s; y := y s; indent := indent s; line_height := line_height s;
     in_pre := in_pre s; links := links s; list_types := list_types s;
     list_item_nums := v; image_width := image_width s; images := images s;
     config := config s; stdout := stdout s; ordinal_log := ordinal_log s |}.

Definition set_images (v : list (img * Z)) (s : state) : state :=
  {| heap := heap s; width_spec := width_spec s;
     width_spec_index := width_spec_index s; start_x := start_x s; end_x := end_x s;
     image := image s; image_draw := image_draw s; image_x := image_x s;
     image_y := image_y s; y := y s; indent := indent s; line_height := line_height s;
     in_pre := in_pre s; links := links s; list_types := list_types s;
     list_item_nums := list_item_nums s; image_width := image_width s; images := v;
     config := config s; stdout := stdout s; ordinal_log := ordinal_log s |}.

Definition set_stdout (v : list string) (s : state) : state :=
  {| heap := heap s; width_spec := width_spec s;
     width_spec_index := width_spec_index s; start_x := start_x s; end_x := end_x s;
     image := image s; image_draw := image_draw s; image_x := image_x s;
     image_y := image_y s; y := y s; indent := indent s; line_height := line_height s;
     in_pre := in_pre s; links := links s; list_types := list_types s;
     list_item_nums := list_item_nums s; image_width := image_width s;
     images := images s; config := config s; stdout := v;
     ordinal_log := ordinal_log s |}.

Definition set_ordinal_log (v : list (nat * Z)) (s : state) : state :=
  {| heap := heap s; width_spec := width_spec s;
     width_spec_index := width_spec_index s; start_x := start_x s; end_x := end_x s;
     image := image s; image_draw := image_draw s; image_x := image_x s;
     image_y := image_y s; y := y s; indent := indent s; line_height := line_height s;
     in_pre := in_pre s; links := links s; list_types := list_types s;
     list_item_nums := list_item_nums s; image_width := image_width s;
     images := images s; config := config s; stdout := stdout s; ordinal_log := v |}.


Ltac unfold_setters :=
  unfold set_width_spec_index, set_start_x, set_end_x, set_image, set_image_draw,
    set_image_x, set_image_y, set_y, set_indent, set_line_height, set_in_pre,
    set_links, set_list_types, set_list_item_nums, set_images, set_stdout,
    set_ordinal_log in *.

(** ** Exceptions and the monad of methods *)

Inductive exn : Type :=
  AttributeError | IndexError | ValueError | OverflowError.

(** A method either returns or raises; both leave a state behind. *)
Inductive result (A : Type) : Type :=
  | Ok (a : A) (s : state)
  | Raise (e : exn) (s : state).
Arguments Ok {A} a s.
Arguments Raise {A} e s.

Definition M (A : Type) : Type := state -> result A.

Definition ret {A} (a : A) : M A := fun s => Ok a s.

Definition bind {A B} (m : M A) (f : A -> M B) : M B :=
  fun s => match m s with
           | Ok a s' => f a s'
           | Raise e s' => Raise e s'
           end.

Definition raise {A} (e : exn) : M A := fun s => Raise e s.
Definition get : M state := fun s => Ok s s.
Definition gets {A} (f : state -> A) : M A := fun s => Ok (f s) s.
Definition modify (f : state -> state) : M unit := fun s => Ok tt (f s).

Declare Scope monad_scope.
Delimit Scope monad_scope with monad.
Notation "x <- m ;; k" := (bind m (fun x => k))
  (at level 61, m at next level, right associativity) : monad_scope.
Notation "m ;; k" := (bind m (fun _ => k))
  (at level 61, right associativity) : monad_scope.
Local Open Scope monad_scope.

Definition state_of {A} (r : result A) : state :=
  match r with Ok _ s => s | Raise _ s => s end.

(** Reading an attribute that may be missing. *)
Definition get_attr {A} (f : state -> option A) : M A :=
  fun s => match f s with Some a => Ok a s | None => Raise AttributeError s end.

(** [for x in l: body(x)] *)
Definition for_each {A} (body : A -> M unit) : list A -> M unit :=
  fix loop (l : list A) : M unit :=
    match l with
    | [] => ret tt
    | x :: r => body x ;; loop r
    end.

(** [l[i]] with Python's negative indices; [None] stands for [IndexError]. *)
Definition py_index {A} (l : list A) (i : Z) : option A :=
  if i <? 0
  then if i + Z.of_nat (length l) <? 0 then None
       else nth_error l (Z.to_nat (i + Z.of_nat (length l)))
  else nth_error l (Z.to_nat i).

Definition index {A} (l : list A) (i : Z) : M A :=
  fun s => match py_index l i with Some a => Ok a s | None => Raise IndexError s end.

(** [l[-1] = v] *)
Definition set_last {A} (l : list A) (v : A) : list A := removelast l ++ [v].

Definition print (line : string) : M unit :=
  modify (fun s => set_stdout (stdout s ++ [line]) s).

(** [Image.new("RGBA", (w, h))]: Pillow checks the size first and refuses a
    negative width or height with [ValueError]; a width or a height that is
    no C [int] is refused with [OverflowError] when the image is allocated. *)
Definition Image_new (w h : Z) : M img :=
  if (w <? 0) || (h <? 0) then raise ValueError
  else if (INT_MAX <? w) || (INT_MAX <? h) then raise OverflowError
  else ret (blank w h).

(** ** Floats *)

Module Float.

(** The integer [n] rounded to 53 significant bits, to the nearest and to
    the even one of two that are as near: the integer that the binary64
    nearest to [n] is, and what rounds [n / 2] when halved. *)
Definition round53 (n : Z) : Z :=
  let a := Z.abs n in
  let e := Z.log2 a - 52 in
  if e <=? 0 then n
  else
    let q := Z.shiftr a e in
    let r := a - Z.shiftl q e in
    let half := Z.shiftl 1 (e - 1) in
    let q' := if (half <? r) || ((r =? half) && Z.odd q) then q + 1 else q in
    Z.sgn n * Z.shiftl q' e.

(** The greatest finite binary64. *)
Definition MAX : Z := (2 ^ 53 - 1) * 2 ^ 971.

(** The float nearest to [k / 2]; beyond the finite ones it is an infinity,
    as the sum of two floats is. *)
Definition of_halves (k : Z) : pyfloat :=
  let r := round53 k in
  if 2 * MAX <? Z.abs r then Infinity (r <? 0) else Halves r.

(** [float(n)] as the arithmetic converts an integer operand: [None]
    stands for [OverflowError]. *)
Definition of_int (n : Z) : option Z :=
  let r := round53 n in
  if MAX <? Z.abs r then None else Some r.

(** [a + h / 2] on integers.  The true division rounds its quotient and
    raises when that is no finite float; then [a] is converted, which
    raises likewise; the sum of the two floats is rounded again. *)
Definition plus_half (a h : Z) : option pyfloat :=
  let fh := round53 h in
  if 2 * MAX <? Z.abs fh then None
  else match of_int a with
       | None => None
       | Some fa => Some (of_halves (2 * fa + fh))
       end.

(** [x + d] for a float [x] and an integer [d]. *)
Definition plus_int (x : pyfloat) (d : Z) : option pyfloat :=
  match of_int d with
  | None => None
  | Some fd =>
      Some (match x with
            | Halves k => of_halves (k + 2 * fd)
            | Infinity n => Infinity n
            end)
  end.

End Float.

Arguments Float.round53 : simpl never.
Arguments Float.MAX : simpl never.
Arguments Float.of_halves : simpl never.
Arguments Float.of_int : simpl never.
Arguments Float.plus_half : simpl never.
Arguments Float.plus_int : simpl never.

(** A float operation in a method. *)
Definition float_op {A} (r : option A) : M A :=
  match r with Some a => ret a | None => raise OverflowError end.

(** ** The methods of [ImageTreeprocessor] *)

Section Engine.

(** [ImageDraw.textsize(text, font=font)], Pillow's measure: [(width, height)]. *)
Variable textsize : string -> font -> Z * Z.

(** [draw.textsize(...)] on the value of a variable that may hold [None]. *)
Definition measure (draw : option surface) (text : string) (f : font)
  : M (Z * Z) :=
  match draw with
  | Some Surface => ret (textsize text f)
  | None => raise AttributeError
  end.

(** An attribute access on the value of such a variable. *)
Definition need_surface (draw : option surface) : M unit :=
  match draw with
  | Some Surface => ret tt
  | None => raise AttributeError
  end.

Definition add_op (op : draw_op) (im : img) : img :=
  {| img_width := img_width im; img_height := img_height im;
     img_ops := img_ops im ++ [op] |}.

(** A drawing call on the value of a variable that may hold [None].  A
    [Surface] draws on [self.image], the image it was created with. *)
Definition draw_on (draw : option surface) (op : draw_op) : M unit :=
  match draw with
  | Some Surface =>
      modify (fun s => match image s with
                       | Some im => set_image (Some (add_op op im)) s
                       | None => s
                       end)
  | None => raise AttributeError
  end.

Definition apply_width_spec (h : Z) : M unit :=
  s <- get ;;
  let ws := heap s (width_spec s) in
  if width_spec_index s + 1 <? Z.of_nat (length ws) then
    e <- index ws (width_spec_index s + 1) ;;
    if y_offset e <=? y s + h then
      modify (fun s => set_width_spec_index (width_spec_index s + 1) s) ;;
      modify (set_start_x (Some (x_offset e))) ;;
      modify (set_end_x (Some (x_offset e + width e)))
    else ret tt
  else ret tt.

Definition compact_whitespace (text : string) : string :=
  Text.compact_ws false text.

(** [newline()] is [newline (-1)], the default of the parameter. *)
Definition newline (h : Z) : M unit :=
  s <- get ;;
  let h := if h =? -1 then line_height s else h in
  modify (fun s => set_image_y (image_y s + h) s) ;;
  modify (fun s => set_y (y s + h) s) ;;
  sx <- get_attr start_x ;;
  modify (fun s => set_image_x (sx + indent s) s) ;;
  modify (set_line_height 0).

Definition save_image_block : M unit :=
  s <- get ;;
  match image s with
  | Some im =>
      modify (set_images (images s ++ [(im, image_y s)])) ;;
      _ <- get_attr image_draw ;;
      modify (set_image_draw None)
  | None => ret tt
  end.

Definition new_image_block : M unit :=
  save_image_block ;;
  w <- gets image_width ;;
  im <- Image_new w IMAGE_BLOCK_HEIGHT ;;
  modify (set_image (Some im)) ;;
  modify (set_image_draw (Some (Some Surface))) ;;
  modify (set_image_y 0).

Definition too_small : string :=
  "Image block size too small!  Results will be cropped...".

(** Returns [self.image_draw], or [None] by the bare [return]. *)
Definition ensure_image (h : Z) : M (option surface) :=
  apply_width_spec h ;;
  s <- get ;;
  im <- get_attr image ;;
  if image_y s + h >? img_height im then
    if image_y s =? 0 then print too_small ;; ret None
    else new_image_block ;; get_attr image_draw
  else get_attr image_draw.

Definition sum_heights (l : list (img * Z)) : Z :=
  fold_left (fun x im => x + snd im) l 0.

(** The [paste] loop of [get_image]: each chunk at the running offset. *)
Fixpoint paste_all (l : list (img * Z)) (y0 : Z) : list (img * (Z * Z)) :=
  match l with
  | [] => []
  | im :: r => (fst im, (0, y0)) :: paste_all r (y0 + snd im)
  end.

(** [final.paste(img[0], (0, y))] hands the box [(0, y, w, y + h)] of the
    chunk to C: every chunk is pasted when the corners of all the boxes are
    C [int]s; the widths are, the chunks being images. *)
Fixpoint pastes_fit (l : list (img * Z)) (y0 : Z) : bool :=
  match l with
  | [] => true
  | im :: r =>
      (INT_MIN <=? y0) && (y0 + img_height (fst im) <=? INT_MAX)
      && pastes_fit r (y0 + snd im)
  end.

(** The result is the image that [Image.new] returns, with the chunks
    pasted on it; a paste that fails raises [OverflowError]. *)
Definition get_image : M final_image :=
  save_image_block ;;
  s <- get ;;
  let height := sum_heights (images s) in
  final <- Image_new (image_width s) height ;;
  if pastes_fit (images s) 0 then
    ret {| final_width := img_width final; final_height := img_height final;
           final_pastes := paste_all (images s) 0 |}
  else raise OverflowError.

Definition get_links : M (list (string * option (list box))) := gets links.

(** *** [render_text] *)

(** One turn of the loop over [lines] of the preformatted branch. *)
Definition render_line (fill : color) (f : font) (blocks : list box)
  (line : string) : M (list box) :=
  d <- get_attr image_draw ;;
  wh <- measure d line f ;;
  draw <- ensure_image (snd wh) ;;
  s <- get ;;
  draw_on draw (DText (image_x s) (image_y s) line f fill) ;;
  modify (fun s => set_line_height (Z.max (snd wh) (line_height s)) s) ;;
  newline (-1) ;;
  ret (blocks ++ [(image_x s, y s, fst wh, snd wh)]).

Fixpoint render_lines (fill : color) (f : font) (lines : list string)
  (blocks : list box) : M (list box) :=
  match lines with
  | [] => ret blocks
  | line :: r =>
      blocks' <- render_line fill f blocks line ;;
      render_lines fill f r blocks'
  end.

(** The inner [while end_index < len(parts)]: [n] is
    [len(parts) - end_index], [x] and [ex] are [self.image_x] and
    [self.end_x], which the loop does not change.  Returns [end_index] and
    the last [(w, h)] measured. *)
Fixpoint extend_line (n : nat) (parts : list string) (f : font) (x ex : Z)
  (start_index end_index : nat) (wh : Z * Z) : nat * (Z * Z) :=
  match n with
  | O => (end_index, wh)
  | S n' =>
      let wh' :=
        textsize (Text.join " " (Text.slice parts start_index (end_index + 1))) f in
      if x + fst wh' >? ex then (end_index, wh')
      else extend_line n' parts f x ex start_index (S end_index) wh'
  end.

(** One turn of the outer [while]: a line is chosen, drawn and recorded.
    [start_index = end_index] holds when a turn begins (both are 0 at first
    and the turn ends with [start_index = end_index]), so that one index
    enters.  The first thing the turn does is [draw.textsize], which raises
    if [draw] holds [None].  Returns the new [end_index], the box appended to
    [blocks] and the new value of the local [draw]. *)
Definition wrap_pass (parts : list string) (fill : color) (end_block : bool)
  (f : font) (draw : option surface) (start_index : nat)
  : M (nat * box * option surface) :=
  need_surface draw ;;
  ex <- get_attr end_x ;;
  s <- get ;;
  let r := extend_line (length parts - start_index) parts f (image_x s) ex
             start_index start_index (0, 0) in
  let h := snd (snd r) in
  let end_index :=
    if (start_index =? fst r)%nat then (start_index + 1)%nat else fst r in
  let text_frag := Text.join " " (Text.slice parts start_index end_index) in
  draw' <- ensure_image h ;;
  modify (fun s => set_line_height (Z.max h (line_height s)) s) ;;
  s1 <- get ;;
  draw_on draw' (DText (image_x s1) (image_y s1) text_frag f fill) ;;
  let wh := textsize text_frag f in
  (if (end_index <? length parts)%nat then newline (-1)
   else if end_block then newline (-1)
   else modify (fun s => set_image_x (image_x s + fst wh) s)) ;;
  ret (end_index, (image_x s1, y s1, fst wh, snd wh), draw').

(** The outer [while end_index < len(parts)].  Every turn moves the index
    forward, so that [len(parts)] turns are always enough
    (see [wrap_loop_fuel]). *)
Fixpoint wrap_loop (fuel : nat) (parts : list string) (fill : color)
  (end_block : bool) (f : font) (draw : option surface) (start_index : nat)
  (blocks : list box) : M (list box) :=
  match fuel with
  | O => ret blocks
  | S fuel' =>
      if (start_index <? length parts)%nat then
        r <- wrap_pass parts fill end_block f draw start_index ;;
        wrap_loop fuel' parts fill end_block f (snd r) (fst (fst r))
                  (blocks ++ [snd (fst r)])
      else ret blocks
  end.

(** [font = None] is the default of the parameter.  The result is [None]
    when [text is None]. *)
Definition render_text (text : option string) (fill : color)
  (end_block : bool) (f : option font) : M (option (list box)) :=
  match text with
  | None => ret None
  | Some text =>
      let f := match f with Some f => f | None => default_font end in
      s <- get ;;
      if in_pre s then
        blocks <- render_lines fill f (Text.split Text.newline_char text) [] ;;
        ret (Some blocks)
      else
        let text := compact_whitespace text in
        draw <- get_attr image_draw ;;
        let parts := Text.split " " text in
        blocks <- wrap_loop (length parts) parts fill end_block f draw 0 [] ;;
        ret (Some blocks)
  end.

(** *** The tag handlers

    Every handler receives [hc], the action [self.handle_children(node)]. *)

Definition handler : Type := M unit -> node -> M unit.

Definition cfg {A} (key : config_t -> A) : M A := gets (fun s => key (config s)).

Definition handle_a : handler := fun hc node =>
  match attrib_get "href" (node_attrib node) with
  | Some href =>
      c <- cfg link_color ;;
      blocks <- render_text (node_text node) c false None ;;
      modify (fun s => set_links (links s ++ [(href, blocks)]) s)
  | None =>
      c <- cfg cfg_color ;;
      render_text (node_text node) c false None ;; ret tt
  end ;;
  hc ;;
  c <- cfg cfg_color ;;
  render_text (node_tail node) c false None ;; ret tt.

Definition handle_blockquote : handler := fun hc node =>
  ind <- cfg blockquote_indent ;;
  modify (fun s => set_indent (indent s + ind) s) ;;
  newline (-1) ;;
  hc ;;
  modify (fun s => set_indent (indent s - ind) s) ;;
  newline (-1).

(** [handle_code], [handle_em] and [handle_strong] differ by the font. *)
Definition handle_span (f : font) : handler := fun hc node =>
  c <- cfg cfg_color ;;
  render_text (node_text node) c false (Some f) ;;
  hc ;;
  c <- cfg cfg_color ;;
  render_text (node_tail node) c false None ;; ret tt.

Definition handle_code : handler := handle_span code_font.
Definition handle_em : handler := handle_span italics_font.
Definition handle_strong : handler := handle_span bold_font.

(** [a + h / 2], the division being the true one. *)
Definition plus_half (a h : Z) : M pyfloat := float_op (Float.plus_half a h).

(** [if self.image_x > self.start_x + self.indent: self.newline()] *)
Definition newline_unless_at_start : M unit :=
  s <- get ;;
  sx <- get_attr start_x ;;
  if image_x s >? sx + indent s then newline (-1) else ret tt.

Definition handle_div : handler := fun hc node =>
  newline_unless_at_start ;;
  hc ;;
  newline_unless_at_start.

(** [getattr(self, node.tag + "_font")] *)
Definition heading_font (tag : string) : option font :=
  if String.eqb tag "h1" then Some h1_font
  else if String.eqb tag "h2" then Some h2_font
  else if String.eqb tag "h3" then Some h3_font
  else if String.eqb tag "h4" then Some h4_font
  else if String.eqb tag "h5" then Some h5_font
  else if String.eqb tag "h6" then Some h6_font
  else None.

Definition handle_h : handler := fun hc node =>
  f <- get_attr (fun _ => heading_font (node_tag node)) ;;
  c <- cfg cfg_color ;;
  render_text (node_text node) c true (Some f) ;;
  newline (-1).

Definition handle_hr : handler := fun hc node =>
  newline (-1) ;;
  h <- cfg margin_bottom ;;
  horizontal_padding <- cfg hr_padding ;;
  d <- get_attr image_draw ;;
  need_surface d ;;
  s <- get ;;
  sx <- get_attr start_x ;;
  y0 <- plus_half (image_y s) h ;;
  ex <- get_attr end_x ;;
  c <- cfg hr_color ;;
  draw_on d (DLine (sx + horizontal_padding) y0
                   (ex - horizontal_padding) y0 c) ;;
  newline h.

(** The number is drawn and entered in the ghost history at once. *)
Definition draw_number (draw : option surface) (x y0 : Z) (number : Z)
  (fill : color) : M unit :=
  draw_on draw (DText x y0 (Text.fmt_d number ++ ".") default_font fill) ;;
  modify (fun s => set_ordinal_log
                     (ordinal_log s ++ [(length (list_item_nums s), number)]) s).

Definition handle_li : handler := fun hc node =>
  s <- get ;;
  list_type <- index (list_types s) (-1) ;;
  match list_type with
  | unordered =>
      d <- get_attr image_draw ;;
      wh <- measure d "E" default_font ;;
      let h := snd wh in
      draw <- ensure_image h ;;
      s <- get ;;
      let x := image_x s - BULLET_DIAMETER - bullet_outdent (config s) in
      y0 <- plus_half (image_y s) (h - BULLET_DIAMETER) ;;
      need_surface draw ;;
      y1 <- float_op (Float.plus_int y0 BULLET_DIAMETER) ;;
      draw_on draw (DEllipse x y0 (x + BULLET_DIAMETER) y1
                             (cfg_color (config s)) (cfg_color (config s))) ;;
      render_text (node_text node) (cfg_color (config s)) true None ;;
      hc
  | ordered =>
      number <- index (list_item_nums s) (-1) ;;
      d <- get_attr image_draw ;;
      wh <- measure d (Text.fmt_d number) default_font ;;
      draw <- ensure_image (snd wh) ;;
      s <- get ;;
      let x := image_x s - fst wh - bullet_outdent (config s) in
      draw_number draw x (image_y s) number (cfg_color (config s)) ;;
      s <- get ;;
      last <- index (list_item_nums s) (-1) ;;
      modify (set_list_item_nums (set_last (list_item_nums s) (last + 1))) ;;
      render_text (node_text node) (cfg_color (config s)) true None ;;
      hc
  end ;;
  m <- cfg list_item_margin_bottom ;;
  newline m.

Definition handle_ol : handler := fun hc node =>
  ind <- cfg list_indent ;;
  modify (fun s => set_indent (indent s + ind) s) ;;
  newline (-1) ;;
  modify (fun s => set_list_types (list_types s ++ [ordered]) s) ;;
  modify (fun s => set_list_item_nums (list_item_nums s ++ [1]) s) ;;
  hc ;;
  modify (fun s => set_list_item_nums (removelast (list_item_nums s)) s) ;;
  modify (fun s => set_list_types (removelast (list_types s)) s) ;;
  modify (fun s => set_indent (indent s - ind) s) ;;
  newline (-1).

Definition handle_p : handler := fun hc node =>
  c <- cfg cfg_color ;;
  render_text (node_text node) c false None ;;
  hc ;;
  c <- cfg cfg_color ;;
  render_text (node_tail node) c true None ;;
  m <- cfg margin_bottom ;;
  newline m.

Definition handle_pre : handler := fun hc node =>
  old_in_pre <- gets in_pre ;;
  modify (set_in_pre true) ;;
  ind <- cfg code_indent ;;
  modify (fun s => set_indent (indent s + ind) s) ;;
  newline (-1) ;;
  hc ;;
  modify (fun s => set_indent (indent s - ind) s) ;;
  newline (-1) ;;
  modify (set_in_pre old_in_pre).

Definition handle_ul : handler := fun hc node =>
  ind <- cfg list_indent ;;
  modify (fun s => set_indent (indent s + ind) s) ;;
  newline (-1) ;;
  modify (fun s => set_list_types (list_types s ++ [unordered]) s) ;;
  hc ;;
  modify (fun s => set_list_types (removelast (list_types s)) s) ;;
  modify (fun s => set_indent (indent s - ind) s) ;;
  newline (-1).

Definition handle_unknown : handler := fun hc node =>
  print ("Unknown tag: " ++ node_tag node) ;;
  hc.

(** The dictionary [handlers] of [handle_node]. *)
Definition handlers : list (string * handler) :=
  [ ("a", handle_a); ("code", handle_code); ("blockquote", handle_blockquote);
    ("em", handle_em); ("div", handle_div);
    ("h1", handle_h); ("h2", handle_h); ("h3", handle_h);
    ("h4", handle_h); ("h5", handle_h); ("h6", handle_h);
    ("hr", handle_hr); ("li", handle_li); ("ol", handle_ol); ("p", handle_p);
    ("pre", handle_pre); ("strong", handle_strong); ("ul", handle_ul) ].

(** [handlers.get(tag, default)] *)
Fixpoint handlers_get (tag : string) (table : list (string * handler))
  (default : handler) : handler :=
  match table with
  | [] => default
  | (k, h) :: r => if String.eqb k tag then h else handlers_get tag r default
  end.

(** [handle_node], with [handle_children] as the loop over the children (the
    test [len(node) > 0] of the source only skips an empty loop). *)
Fixpoint handle_node (n : node) : M unit :=
  match n with
  | Node tag _ _ _ children =>
      handlers_get tag handlers handle_unknown (for_each handle_node children) n
  end.

Definition handle_children (n : node) : M unit :=
  for_each handle_node (node_children n).

Definition run (root : node) : M unit :=
  new_image_block ;;
  handle_node root.

End Engine.

(** ** Construction *)

(** [ImageTreeprocessor.__init__(width_spec, config)].  [h] is the store of
    list objects and [ws] the reference that the caller passes; [conf] is the
    configuration after [self.config.update(config)]; the fonts loaded are
    those that [textsize] measures.  [max] of an empty list raises [ValueError]
    before most fields exist; the object is then lost with the exception. *)
Definition init (h : store) (ws : loc) (conf : config_t) : result unit :=
  match h ws with
  | [] =>
      Raise ValueError
        {| heap := h; width_spec := ws; width_spec_index := 0;
           start_x := None; end_x := None; image := None;
           image_draw := Some None; image_x := 0; image_y := 0; y := 0;
           indent := 0; line_height := 0; in_pre := false; links := [];
           list_types := []; list_item_nums := []; image_width := 0;
           images := []; config := conf; stdout := []; ordinal_log := [] |}
  | e :: r =>
      apply_width_spec 0
        {| heap := store_set h ws (sort_entries (h ws)); width_spec := ws;
           width_spec_index := -1;
           start_x := None; end_x := None; image := None;
           image_draw := Some None; image_x := 0; image_y := 0; y := 0;
           indent := 0; line_height := 0; in_pre := false; links := [];
           list_types := []; list_item_nums := [];
           image_width := width (max_by_width e r);
           images := []; config := conf; stdout := []; ordinal_log := [] |}
  end.

(** [md2png], from the parsed tree on: construct, [run], [get_image]. *)
Definition render (textsize : string -> font -> Z * Z) (h : store) (ws : loc)
  (conf : config_t) (root : node) : result final_image :=
  match init h ws conf with
  | Ok _ s => bind (run textsize root) (fun _ => get_image) s
  | Raise e s => Raise e s
  end.

(** ** Vocabulary of the statements *)

(** *** What the layout primitives leave alone

    [frame s s'] holds between the states around cursor moves, drawing and
    chunk handling: nesting, list context and links are untouched, and the
    width-specification index can only have grown. *)
Record frame (s s' : state) : Prop := mkFrame {
  fr_indent : indent s' = indent s;
  fr_types : list_types s' = list_types s;
  fr_nums : list_item_nums s' = list_item_nums s;
  fr_log : ordinal_log s' = ordinal_log s;
  fr_links : links s' = links s;
  fr_in_pre : in_pre s' = in_pre s;
  fr_config : config s' = config s;
  fr_heap : heap s' = heap s;
  fr_spec : width_spec s' = width_spec s;
  fr_width : image_width s' = image_width s;
  fr_index : width_spec_index s <= width_spec_index s'
}.

(** [keeps R m]: whenever [m] returns, [R] relates the states around it. *)
Definition keeps (R : state -> state -> Prop) {A} (m : M A) : Prop :=
  forall s a s', m s = Ok a s' -> R s s'.

Abbreviation framed := (keeps frame).

(** *** What a subtree leaves behind *)

Fixpoint zcount (n : nat) (k : Z) : list Z :=
  match n with
  | O => []
  | S n' => k :: zcount n' (k + 1)
  end.

(** [k; k+1; ...; k'-1] *)
Definition zseq (k k' : Z) : list Z := zcount (Z.to_nat (k' - k)) k.

(** The numbers of a piece of the ghost history drawn at depth [d]. *)
Definition own (d : nat) (l : list (nat * Z)) : list Z :=
  map snd (filter (fun e => Nat.eqb (fst e) d) l).

Definition top_is_ordered (types : list list_kind) : bool :=
  match py_index types (-1) with Some ordered => true | _ => false end.

(** The counters are those of before, but for the last one, which list items
    of an ordered list may have moved forward. *)
Definition nums_rel (types : list list_kind) (nums nums' : list Z) : Prop :=
  nums' = nums \/
  (top_is_ordered types = true /\
   exists rest k k', nums = rest ++ [k] /\ nums' = rest ++ [k'] /\ k <= k').

(** The history has grown by numbers of the current depth or deeper, those
    of the current depth being the values the last counter went through. *)
Definition log_rel (nums nums' : list Z) (log log' : list (nat * Z)) : Prop :=
  exists new,
    log' = log ++ new /\
    Forall (fun e => (length nums <= fst e)%nat) new /\
    own (length nums) new = zseq (last nums 0) (last nums' 0).

Record walk_rel (s s' : state) : Prop := mkWalk {
  wr_indent : indent s' = indent s;
  wr_in_pre : in_pre s' = in_pre s;
  wr_types : list_types s' = list_types s;
  wr_config : config s' = config s;
  wr_index : width_spec_index s <= width_spec_index s';
  wr_links : exists later, links s' = links s ++ later;
  wr_nums : nums_rel (list_types s) (list_item_nums s) (list_item_nums s');
  wr_log : log_rel (list_item_nums s) (list_item_nums s')
                   (ordinal_log s) (ordinal_log s')
}.

Abbreviation walks := (keeps walk_rel).

(** The list ordinals are all as they were. *)
Definition same_counters (s s' : state) : Prop :=
  list_item_nums s' = list_item_nums s.


(** *** Wrapped text *)

Section Wrapped.

Variable textsize : string -> font -> Z * Z.
Variables (parts : list string) (fill : color) (end_block : bool) (f : font).

(** What is to hold of one turn of the wrapping loop, begun at the word [i]
    in the state [s] and ended at the word [e] in the state [s1] with the
    box [b]: the fragment is made of the words [i .. e-1]; it is the text of
    the drawing call issued last, at the cursor of [s]; [b] carries its
    measured size; and it ends at or before [end_x], as [s] has it, unless
    it is the single word [i]. *)
Definition turn_fits (i : nat) (s : state) (e : nat) (b : box) (s1 : state)
  : Prop :=
  exists ex frag im ops y0,
    end_x s = Some ex /\
    (i < e <= length parts)%nat /\
    frag = Text.join " " (Text.slice parts i e) /\
    image s1 = Some im /\
    img_ops im = ops ++ [DText (image_x s) y0 frag f fill] /\
    b = (image_x s, y s, fst (textsize frag f), snd (textsize frag f)) /\
    (image_x s + fst (textsize frag f) <= ex \/
     e = S i /\ frag = nth i parts "").

(** [wrapped draw i s blocks s']: from the word [i] and the state [s] the
    turns of the loop, each of them fitting, return [blocks] and end in
    [s']. *)
Inductive wrapped : option surface -> nat -> state -> list box -> state -> Prop :=
  | wrapped_done draw i s :
      (length parts <= i)%nat -> wrapped draw i s [] s
  | wrapped_turn draw i s e b draw' s1 blocks s' :
      (i < length parts)%nat ->
      wrap_pass textsize parts fill end_block f draw i s = Ok (e, b, draw') s1 ->
      turn_fits i s e b s1 ->
      wrapped draw' e s1 blocks s' ->
      wrapped draw i s (b :: blocks) s'.

End Wrapped.

(** *** Order of the width specification *)

(** The order of Python on triples of integers. *)
Definition entry_le (a b : entry) : Prop :=
  y_offset a < y_offset b \/
  (y_offset a = y_offset b /\
   (x_offset a < x_offset b \/
    (x_offset a = x_offset b /\ width a <= width b))).

(** *** Inputs of the examples *)

(** A measure with every character 6 wide and every line 12 high. *)
Definition mono_textsize (t : string) (f : font) : Z * Z :=
  (6 * Z.of_nat (String.length t), 12).

(** The same with a first-level heading font 1200 high, as
    [{"font_size": 400}] gives. *)
Definition huge_h1_textsize (t : string) (f : font) : Z * Z :=
  (6 * Z.of_nat (String.length t),
   match f with h1_font => 1200 | _ => 12 end).

(** A store where every reference holds the given list. *)
Definition store_of (l : list entry) : store := fun _ => l.

Definition leaf (tag text : string) : node := Node tag (Some text) None [] [].
Definition branch (tag : string) (children : list node) : node :=
  Node tag None None [] children.

(** The state in which [run] starts the walk: constructed, first chunk
    allocated. *)
Definition ready (l : list entry) : state :=
  state_of (match init (store_of l) 0%nat default_config with
            | Ok _ s => new_image_block s
            | Raise e s => Raise e s
            end).

Definition hr_node : node := Node "hr" None None [] [].

(** All drawing calls issued so far, chunk after chunk. *)
Definition drawn (s : state) : list draw_op :=
  flat_map (fun c => img_ops (fst c)) (images s)
  ++ match image s with Some im => img_ops im | None => [] end.

(** The walk draws and never takes a drawing call back. *)
Definition drawn_grows (s s' : state) : Prop :=
  exists ops, drawn s' = drawn s ++ ops.




(** *** The claims that the code does not meet, as they are worded *)

(** No chunk has a used height above the capacity. *)
Definition chunks_within_capacity (s : state) : Prop :=
  Forall (fun c => snd c <= IMAGE_BLOCK_HEIGHT) (images s).


Definition is_text (op : draw_op) : bool :=
  match op with DText _ _ _ _ _ => true | _ => false end.

Definition text_runs (s : state) : nat := length (filter is_text (drawn s)).


(** The anchor, here without tail text, gets an entry with one box for each
    text run drawn while its text and its children are rendered. *)
Definition entry_covers_runs (textsize : string -> font -> Z * Z)
  (text : option string) (attrib : list (string * string))
  (children : list node) (s : state) : Prop :=
  forall s',
    handle_node textsize (Node "a" text None attrib children) s = Ok tt s' ->
    exists href boxes later,
      links s' = links s ++ (href, Some boxes) :: later /\
      length boxes = (text_runs s' - text_runs s)%nat.

(** *** Compacted white space and relations over a walk *)

(** Every white-space character is a blank, and no two blanks are adjacent;
    [after_blank] tells that the character before is a blank. *)
Fixpoint single_spaced (after_blank : bool) (s : string) : bool :=
  match s with
  | EmptyString => true
  | String c r =>
      if Ascii.eqb c " " then negb after_blank && single_spaced true r
      else negb (Text.is_space c) && single_spaced false r
  end.

(** [under c Q]: for a walk that starts with the configuration [c], which it
    keeps, [Q] relates the states around it. *)
Definition under (c : config_t) (Q : state -> state -> Prop) (s s' : state)
  : Prop :=
  config s = c -> config s' = c /\ Q s s'.

(** *** Cursors, chunks and columns over a walk *)

(** The used heights of the chunks finalized so far, added up. *)
Definition used_heights (s : state) : Z :=
  fold_right Z.add 0 (map snd (images s)).

(** With a chunk open, the logical cursor [y] and the chunk-local one move
    together: [y] less the used heights and [image_y] is what it was. *)
Definition cursors_agree (s s' : state) : Prop :=
  image s <> None ->
  image s' <> None /\
  y s' - (used_heights s' + image_y s') = y s - (used_heights s + image_y s).

(** Neither cursor is moved up, and the line height stays non-negative. *)
Definition moves_down (s s' : state) : Prop :=
  0 <= line_height s -> 0 <= image_y s ->
  0 <= line_height s' /\ 0 <= image_y s' /\ y s <= y s'.

(** The index is [-1] or that of an entry of the width specification, and
    then [start_x] and [end_x] are the two edges of that entry. *)
Definition column_set (s : state) : Prop :=
  let ws := heap s (width_spec s) in
  -1 <= width_spec_index s < Z.of_nat (length ws) /\
  (0 <= width_spec_index s ->
   exists e,
     nth_error ws (Z.to_nat (width_spec_index s)) = Some e /\
     start_x s = Some (x_offset e) /\
     end_x s = Some (x_offset e + width e)).

Definition column_kept (s s' : state) : Prop :=
  heap s' = heap s /\ width_spec s' = width_spec s /\
  (column_set s -> column_set s').

(** A chunk as [new_image_block] allocates it. *)
Definition sized (w : Z) (im : img) : Prop :=
  img_width im = w /\ img_height im = IMAGE_BLOCK_HEIGHT.

Definition chunks_sized (s : state) : Prop :=
  Forall (fun c => sized (image_width s) (fst c)) (images s) /\
  forall im, image s = Some im -> sized (image_width s) im.

Definition chunks_kept (s s' : state) : Prop :=
  image_width s' = image_width s /\ (chunks_sized s -> chunks_sized s').

(** *** What a text run draws *)

(** The text of a drawing call. *)
Definition op_text (op : draw_op) : string :=
  match op with DText _ _ t _ _ => t | _ => EmptyString end.

(** A text drawn in the font [f] and the colour [fill]. *)
Definition text_in (f : font) (fill : color) (op : draw_op) : Prop :=
  exists x y0 t, op = DText x y0 t f fill.

(** *** The link map over a walk *)

(** The targets of the anchors that the walk of a subtree comes to, in the
    order of the document: an anchor without [href] has none, and the walk
    does not descend below a heading or a rule. *)
Fixpoint link_targets (n : node) : list string :=
  match n with
  | Node tag _ _ attrib children =>
      let below := flat_map link_targets children in
      if String.eqb tag "a" then
        match attrib_get "href" attrib with
        | Some href => href :: below
        | None => below
        end
      else
        match heading_font tag with
        | Some _ => []
        | None => if String.eqb tag "hr" then [] else below
        end
  end.

(** The link map has grown by entries for the targets [l], in this order. *)
Definition grows_by (l : list string) (s s' : state) : Prop :=
  map fst (links s') = map fst (links s) ++ l.

(** *** Documents that miss nothing *)

(** A state in which text can be drawn: the column is set, a chunk of the
    regular height is open with its drawing surface, and the index into the
    width specification is [-1] at least. *)
Definition can_draw (s : state) : Prop :=
  start_x s <> None /\ end_x s <> None /\
  (exists im, image s = Some im /\ img_height im = IMAGE_BLOCK_HEIGHT) /\
  image_draw s = Some (Some Surface) /\ -1 <= width_spec_index s.

(** A list is open, with a counter if it is an ordered one. *)
Definition in_list (s : state) : Prop :=
  list_types s <> [] /\
  (top_is_ordered (list_types s) = true -> list_item_nums s <> []).

(** What the layout primitives and the walk of a subtree leave as it is for
    the next one to run. *)
Definition steady (s s' : state) : Prop :=
  (can_draw s -> can_draw s') /\
  list_types s' = list_types s /\
  length (list_item_nums s') = length (list_item_nums s).

(** The method misses nothing: it raises no [AttributeError] and no
    [IndexError]. *)
Definition safe {A} (m : M A) (s : state) : Prop :=
  match m s with
  | Ok _ _ => True
  | Raise e _ => e <> AttributeError /\ e <> IndexError
  end.

(** No measured text is higher than a chunk. *)
Definition fits_a_chunk (textsize : string -> font -> Z * Z) : Prop :=
  forall t f, snd (textsize t f) <= IMAGE_BLOCK_HEIGHT.

Definition stays_drawable (s s' : state) : Prop := can_draw s -> can_draw s'.


(** A list item that the walk comes to outside every list of the subtree: the
    walk does not descend below a heading or a rule. *)
Fixpoint reaches_stray_item (n : node) : bool :=
  match n with
  | Node tag _ _ _ children =>
      if String.eqb tag "li" then true
      else if String.eqb tag "ol" || String.eqb tag "ul" then false
      else
        match heading_font tag with
        | Some _ => false
        | None =>
            if String.eqb tag "hr" then false
            else existsb reaches_stray_item children
        end
  end.

(** ** Reasoning about methods *)

Lemma bind_ok {A B} (m : M A) (f : A -> M B) s b s' :
  bind m f s = Ok b s' ->
  exists a s1, m s = Ok a s1 /\ f a s1 = Ok b s'.
Proof.
  unfold bind. destruct (m s) as [a s1|e s1]; intro H; [eauto | discriminate].
Qed.

Lemma ret_ok {A} (a b : A) s s' : ret a s = Ok b s' -> b = a /\ s' = s.
Proof. unfold ret. intro H. inversion H. auto. Qed.

Lemma get_ok s a s' : get s = Ok a s' -> a = s /\ s' = s.
Proof. unfold get. intro H. inversion H. auto. Qed.

Lemma gets_ok {A} (f : state -> A) s a s' :
  gets f s = Ok a s' -> a = f s /\ s' = s.
Proof. unfold gets. intro H. inversion H. auto. Qed.

Lemma modify_ok f s a s' : modify f s = Ok a s' -> s' = f s.
Proof. unfold modify. intro H. inversion H. auto. Qed.

Lemma get_attr_ok {A} (f : state -> option A) s a s' :
  get_attr f s = Ok a s' -> f s = Some a /\ s' = s.
Proof.
  unfold get_attr. destruct (f s); intro H; inversion H. auto.
Qed.

Lemma index_ok {A} (l : list A) i s a s' :
  index l i s = Ok a s' -> py_index l i = Some a /\ s' = s.
Proof.
  unfold index. destruct (py_index l i); intro H; inversion H. auto.
Qed.

Lemma cfg_ok {A} (key : config_t -> A) s a s' :
  cfg key s = Ok a s' -> a = key (config s) /\ s' = s.
Proof. unfold cfg. intro H. apply gets_ok in H. exact H. Qed.

Lemma Image_new_ok w h s im s' :
  Image_new w h s = Ok im s' ->
  im = blank w h /\ s' = s /\ 0 <= w <= INT_MAX /\ 0 <= h <= INT_MAX.
Proof.
  unfold Image_new.
  destruct (Z.ltb_spec w 0); [discriminate|].
  destruct (Z.ltb_spec h 0); [discriminate|].
  destruct (Z.ltb_spec INT_MAX w); [discriminate|].
  destruct (Z.ltb_spec INT_MAX h); [discriminate|].
  simpl. intro E. inversion E. auto.
Qed.

Lemma float_op_ok {A} (r : option A) s a s' :
  float_op r s = Ok a s' -> r = Some a /\ s' = s.
Proof. destruct r; intro H; inversion H. auto. Qed.

Lemma plus_half_ok a h s v s' :
  plus_half a h s = Ok v s' -> Float.plus_half a h = Some v /\ s' = s.
Proof. apply float_op_ok. Qed.

Lemma need_surface_ok d s a s' :
  need_surface d s = Ok a s' -> d = Some Surface /\ s' = s.
Proof. destruct d as [[]|]; intro H; inversion H. auto. Qed.

(** Symbolic execution of the runs [m s = Ok a s'] of the context: binds are
    split, and the elementary actions are replaced by what they say about
    the states. *)
Ltac exec :=
  repeat match goal with
  | H : Image_new _ _ _ = Ok _ _ |- _ =>
      apply Image_new_ok in H; destruct H as (? & ? & ? & ?); subst
  | H : plus_half _ _ _ = Ok _ _ |- _ =>
      apply plus_half_ok in H; destruct H as [H ?]; subst
  | H : float_op _ _ = Ok _ _ |- _ =>
      apply float_op_ok in H; destruct H as [H ?]; subst
  | H : need_surface _ _ = Ok _ _ |- _ =>
      apply need_surface_ok in H; destruct H as [? ?]; subst
  | H : bind _ _ _ = Ok _ _ |- _ =>
      apply bind_ok in H; destruct H as (? & ? & ? & H)
  | H : ret _ _ = Ok _ _ |- _ => apply ret_ok in H; destruct H as [? ?]; subst
  | H : get _ = Ok _ _ |- _ => apply get_ok in H; destruct H as [? ?]; subst
  | H : gets _ _ = Ok _ _ |- _ => apply gets_ok in H; destruct H as [? ?]; subst
  | H : cfg _ _ = Ok _ _ |- _ => apply cfg_ok in H; destruct H as [? ?]; subst
  | H : modify _ _ = Ok _ _ |- _ => apply modify_ok in H; subst
  | H : get_attr _ _ = Ok _ _ |- _ =>
      apply get_attr_ok in H; destruct H as [H ?]; subst
  | H : index _ _ _ = Ok _ _ |- _ =>
      apply index_ok in H; destruct H as [H ?]; subst
  | H : raise _ _ = Ok _ _ |- _ => discriminate H
  end.

(** *** What the layout primitives leave alone *)

Lemma frame_refl s : frame s s.
Proof. constructor; auto; lia. Qed.

Lemma frame_trans s1 s2 s3 : frame s1 s2 -> frame s2 s3 -> frame s1 s3.
Proof.
  intros [] []. constructor; try congruence. lia.
Qed.

#[local] Instance frame_preorder : PreOrder frame.
Proof. split; [exact frame_refl | exact frame_trans]. Qed.

(** *** Rules for [keeps], for any preorder *)

Section Keeps.

Context (R : state -> state -> Prop) `{!PreOrder R}.

Lemma keeps_bind {A B} (m : M A) (f : A -> M B) :
  keeps R m -> (forall a, keeps R (f a)) -> keeps R (bind m f).
Proof.
  intros Hm Hf s b s' H. apply bind_ok in H. destruct H as (a & s1 & H1 & H2).
  transitivity s1; [eapply Hm | eapply Hf]; eauto.
Qed.

Lemma keeps_ret {A} (a : A) : keeps R (ret a).
Proof. intros s b s' H. exec. reflexivity. Qed.

Lemma keeps_raise {A} e : keeps R (@raise A e).
Proof. intros s b s' H. discriminate. Qed.

Lemma keeps_get : keeps R get.
Proof. intros s b s' H. exec. reflexivity. Qed.

Lemma keeps_gets {A} (f : state -> A) : keeps R (gets f).
Proof. intros s b s' H. exec. reflexivity. Qed.

Lemma keeps_get_attr {A} (f : state -> option A) : keeps R (get_attr f).
Proof. intros s b s' H. exec. reflexivity. Qed.

Lemma keeps_index {A} (l : list A) i : keeps R (index l i).
Proof. intros s b s' H. exec. reflexivity. Qed.

Lemma keeps_modify f : (forall s, R s (f s)) -> keeps R (modify f).
Proof. intros Hf s b s' H. exec. apply Hf. Qed.

Lemma keeps_Image_new w h : keeps R (Image_new w h).
Proof. intros s b s' H. exec. reflexivity. Qed.

Lemma keeps_float_op {A} (r : option A) : keeps R (float_op r).
Proof. intros s b s' H. exec. reflexivity. Qed.

Lemma keeps_for_each {A} (body : A -> M unit) l :
  Forall (fun x => keeps R (body x)) l -> keeps R (for_each body l).
Proof.
  induction 1 as [|x r Hx _ IH]; simpl.
  - apply keeps_ret.
  - apply keeps_bind; [exact Hx | intros _; exact IH].
Qed.

(** What a coarser relation keeps. *)
Lemma keeps_sub (R0 : state -> state -> Prop) {A} (m : M A) :
  (forall s s', R0 s s' -> R s s') -> keeps R0 m -> keeps R m.
Proof. intros Hsub Hm s a s' H. apply Hsub. eapply Hm. exact H. Qed.

(** [handlers.get]: the handler found keeps what every candidate keeps. *)
Lemma keeps_handlers_get hc n tag table default :
  Forall (fun kh => fst kh = tag -> keeps R (snd kh hc n)) table ->
  keeps R (default hc n) ->
  keeps R (handlers_get tag table default hc n).
Proof.
  intros Ht Hd. induction Ht as [|[k h] r Hh _ IH]; simpl.
  - exact Hd.
  - destruct (String.eqb_spec k tag) as [E|_]; [exact (Hh E) | exact IH].
Qed.

End Keeps.

Ltac frame_setter :=
  intros; unfold_setters; constructor; cbn; try reflexivity; lia.

Create HintDb framed.

Ltac framed_step :=
  match goal with
  | |- framed _ => solve [auto with framed]
  | |- framed (bind _ _) => apply keeps_bind; [ exact _ | | intro ]
  | |- framed (ret _) => apply keeps_ret; exact _
  | |- framed (raise _) => apply keeps_raise
  | |- framed get => apply keeps_get; exact _
  | |- framed (gets _) => apply keeps_gets; exact _
  | |- framed (cfg _) => apply keeps_gets; exact _
  | |- framed (get_attr _) => apply keeps_get_attr; exact _
  | |- framed (index _ _) => apply keeps_index; exact _
  | |- framed (Image_new _ _) => apply keeps_Image_new; exact _
  | |- framed (plus_half _ _) => apply keeps_float_op; exact _
  | |- framed (float_op _) => apply keeps_float_op; exact _
  | |- framed (modify _) => apply keeps_modify; frame_setter
  | |- framed (if ?b then _ else _) => destruct b
  | |- framed (match ?x with _ => _ end) => destruct x
  end.

Ltac framed_auto := repeat framed_step.

Lemma framed_print line : framed (print line).
Proof. unfold print. framed_auto. Qed.

Lemma framed_apply_width_spec h : framed (apply_width_spec h).
Proof. unfold apply_width_spec. framed_auto. Qed.

Lemma framed_newline h : framed (newline h).
Proof. unfold newline. framed_auto. Qed.

Lemma framed_save_image_block : framed save_image_block.
Proof. unfold save_image_block. framed_auto. Qed.

#[local] Hint Resolve framed_print framed_apply_width_spec framed_newline
  framed_save_image_block : framed.

Lemma framed_new_image_block : framed new_image_block.
Proof. unfold new_image_block. framed_auto. Qed.

#[local] Hint Resolve framed_new_image_block : framed.

Lemma framed_ensure_image h : framed (ensure_image h).
Proof. unfold ensure_image. framed_auto. Qed.

Lemma framed_draw_on d op : framed (draw_on d op).
Proof.
  unfold draw_on. destruct d as [[]|]; [ | apply keeps_raise ].
  apply keeps_modify. intro s. destruct (image s); [ frame_setter | apply frame_refl ].
Qed.

Lemma framed_newline_unless_at_start : framed newline_unless_at_start.
Proof. unfold newline_unless_at_start. framed_auto. Qed.

Lemma framed_need_surface d : framed (need_surface d).
Proof. unfold need_surface. framed_auto. Qed.

#[local] Hint Resolve framed_ensure_image framed_draw_on
  framed_newline_unless_at_start framed_need_surface : framed.

(** *** Cursor and chunk across the primitives *)

Lemma apply_width_spec_cursor h s a s1 :
  apply_width_spec h s = Ok a s1 ->
  image_x s1 = image_x s /\ y s1 = y s /\ image s1 = image s /\
  image_y s1 = image_y s /\ image_draw s1 = image_draw s /\
  images s1 = images s.
Proof.
  unfold apply_width_spec. intro H. exec.
  destruct (_ <? _); exec; [|auto 10].
  destruct (_ <=? _); exec; cbn; auto 10.
Qed.

Lemma ensure_image_cursor h s d s1 :
  ensure_image h s = Ok d s1 ->
  image_x s1 = image_x s /\ y s1 = y s /\ exists im, image s1 = Some im.
Proof.
  unfold ensure_image. intro H. exec.
  match goal with K : apply_width_spec _ _ = _ |- _ =>
    apply apply_width_spec_cursor in K;
    destruct K as (Ex & Ey & Ei & Eiy & Ed & Eis)
  end.
  destruct (_ >? _).
  - destruct (_ =? _).
    + unfold print in *. exec. cbn. rewrite Ex, Ey. eauto.
    + unfold new_image_block, save_image_block in *. exec.
      match goal with K : match image ?s with _ => _ end _ = _ |- _ =>
        destruct (image s); exec
      end; cbn; rewrite ?Ex, ?Ey; eauto.
  - exec. rewrite Ex, Ey. eauto.
Qed.

Lemma newline_image h s a s1 : newline h s = Ok a s1 -> image s1 = image s.
Proof. unfold newline. intro H. exec. reflexivity. Qed.

Lemma draw_on_ok d op s a s1 :
  draw_on d op s = Ok a s1 ->
  d = Some Surface /\
  s1 = match image s with
       | Some im => set_image (Some (add_op op im)) s
       | None => s
       end.
Proof.
  unfold draw_on. destruct d as [[]|]; intro H; exec; auto.
Qed.

(** *** The relation of a subtree is a preorder *)

Lemma zcount_app n m k :
  zcount (n + m) k = zcount n k ++ zcount m (k + Z.of_nat n).
Proof.
  revert k. induction n as [|n IH]; intro k; simpl zcount.
  - simpl. f_equal. lia.
  - rewrite IH. simpl. do 3 f_equal. lia.
Qed.

Lemma zseq_refl k : zseq k k = [].
Proof. unfold zseq. rewrite Z.sub_diag. reflexivity. Qed.

Lemma zseq_app k1 k2 k3 :
  k1 <= k2 -> k2 <= k3 -> zseq k1 k2 ++ zseq k2 k3 = zseq k1 k3.
Proof.
  intros H12 H23. unfold zseq.
  replace (Z.to_nat (k3 - k1)) with (Z.to_nat (k2 - k1) + Z.to_nat (k3 - k2))%nat
    by lia.
  rewrite zcount_app. do 2 f_equal. lia.
Qed.

Lemma zseq_cons k k' : k < k' -> zseq k k' = k :: zseq (k + 1) k'.
Proof.
  intro H. unfold zseq.
  replace (Z.to_nat (k' - k)) with (S (Z.to_nat (k' - (k + 1)))) by lia.
  reflexivity.
Qed.

Lemma own_app d a b : own d (a ++ b) = own d a ++ own d b.
Proof. unfold own. rewrite filter_app, map_app. reflexivity. Qed.

Lemma own_deeper d l :
  Forall (fun e => (S d <= fst e)%nat) l -> own d l = [].
Proof.
  induction 1 as [|e l He _ IH]; [reflexivity|].
  unfold own in *. simpl. destruct (Nat.eqb_spec (fst e) d); [lia | exact IH].
Qed.

Lemma nums_rel_refl types nums : nums_rel types nums nums.
Proof. left. reflexivity. Qed.

Lemma nums_rel_length types nums nums' :
  nums_rel types nums nums' -> length nums' = length nums.
Proof.
  intros [->|(_ & rest & k & k' & -> & -> & _)]; [reflexivity|].
  rewrite !length_app. reflexivity.
Qed.

Lemma nums_rel_last types nums nums' :
  nums_rel types nums nums' -> last nums 0 <= last nums' 0.
Proof.
  intros [->|(_ & rest & k & k' & -> & -> & Hk)]; [lia|].
  rewrite !last_last. exact Hk.
Qed.

Lemma nums_rel_trans types n1 n2 n3 :
  nums_rel types n1 n2 -> nums_rel types n2 n3 -> nums_rel types n1 n3.
Proof.
  intros [->|(Ho & rest & k & k' & -> & -> & Hk)] H23; [exact H23|].
  destruct H23 as [->|(_ & rest2 & k2 & k3 & E & -> & Hk2)].
  - right. split; [exact Ho|]. exists rest, k, k'. auto.
  - apply app_inj_tail in E. destruct E as [-> ->].
    right. split; [exact Ho|]. exists rest2, k, k3. repeat split; auto. lia.
Qed.

Lemma log_rel_refl nums log : log_rel nums nums log log.
Proof.
  exists []. rewrite app_nil_r, zseq_refl. repeat split. constructor.
Qed.

Lemma log_rel_trans types n1 n2 n3 l1 l2 l3 :
  nums_rel types n1 n2 -> nums_rel types n2 n3 ->
  log_rel n1 n2 l1 l2 -> log_rel n2 n3 l2 l3 -> log_rel n1 n3 l1 l3.
Proof.
  intros N12 N23 (a & -> & Fa & Oa) (b & -> & Fb & Ob).
  pose proof (nums_rel_length _ _ _ N12) as L.
  rewrite L in Fb, Ob.
  exists (a ++ b). rewrite app_assoc. split; [reflexivity|]. split.
  - apply Forall_app. split; assumption.
  - rewrite own_app, Oa, Ob. apply zseq_app; eapply nums_rel_last; eauto.
Qed.

Lemma walk_refl s : walk_rel s s.
Proof.
  constructor; auto; try lia.
  - exists []. rewrite app_nil_r. reflexivity.
  - apply nums_rel_refl.
  - apply log_rel_refl.
Qed.

Lemma walk_trans s1 s2 s3 : walk_rel s1 s2 -> walk_rel s2 s3 -> walk_rel s1 s3.
Proof.
  intros [I1 P1 T1 C1 X1 [la L1] N1 G1] [I2 P2 T2 C2 X2 [lb L2] N2 G2].
  rewrite T1 in N2.
  constructor; try congruence; try lia.
  - exists (la ++ lb). rewrite L2, L1, app_assoc. reflexivity.
  - eapply nums_rel_trans; eauto.
  - eapply log_rel_trans; eauto.
Qed.

Lemma frame_walk s s' : frame s s' -> walk_rel s s'.
Proof.
  intros []. constructor; auto.
  - exists []. rewrite app_nil_r. assumption.
  - left. assumption.
  - rewrite fr_nums0, fr_log0. apply log_rel_refl.
Qed.

#[local] Instance walk_preorder : PreOrder walk_rel.
Proof. split; [exact walk_refl | exact walk_trans]. Qed.

#[local] Instance same_counters_preorder : PreOrder same_counters.
Proof.
  split; [intro s; reflexivity|].
  intros s1 s2 s3 H12 H23. unfold same_counters in *. congruence.
Qed.

Lemma frame_same_counters s s' : frame s s' -> same_counters s s'.
Proof. intros []. assumption. Qed.

Lemma py_index_last {A} (l : list A) x : py_index (l ++ [x]) (-1) = Some x.
Proof.
  unfold py_index. rewrite length_app. simpl length.
  replace (-1 <? 0) with true by reflexivity.
  destruct (Z.ltb_spec (-1 + Z.of_nat (length l + 1)) 0); [lia|].
  replace (Z.to_nat (-1 + Z.of_nat (length l + 1))) with (length l) by lia.
  rewrite nth_error_app2, Nat.sub_diag by lia. reflexivity.
Qed.

Lemma py_index_last_inv {A} (l : list A) x :
  py_index l (-1) = Some x -> exists rest, l = rest ++ [x].
Proof.
  induction l as [|y rest _] using rev_ind.
  - discriminate.
  - rewrite py_index_last. intro E. inversion E. eauto.
Qed.

Lemma top_is_ordered_last types k :
  top_is_ordered (types ++ [k]) =
  match k with ordered => true | unordered => false end.
Proof. unfold top_is_ordered. rewrite py_index_last. destruct k; reflexivity. Qed.

Lemma nums_rel_unordered types nums nums' :
  nums_rel (types ++ [unordered]) nums nums' -> nums' = nums.
Proof.
  intros [E|(Ho & _)]; [exact E|].
  rewrite top_is_ordered_last in Ho. discriminate.
Qed.

Lemma nums_rel_pushed types nums k nums' :
  nums_rel types (nums ++ [k]) nums' -> exists k', nums' = nums ++ [k'] /\ k <= k'.
Proof.
  intros [->|(_ & rest & k0 & k' & E & -> & Hk)].
  - exists k. split; [reflexivity | lia].
  - apply app_inj_tail in E. destruct E as [-> ->]. eauto.
Qed.

(** *** Rendering and the handlers *)

Section Walk.

Variable textsize : string -> font -> Z * Z.

Lemma framed_measure d t f : framed (measure textsize d t f).
Proof. unfold measure. framed_auto. Qed.

#[local] Hint Resolve framed_measure : framed.

Lemma framed_render_line c f blocks line :
  framed (render_line textsize c f blocks line).
Proof. unfold render_line. framed_auto. Qed.

#[local] Hint Resolve framed_render_line : framed.

Lemma framed_render_lines c f lines :
  forall blocks, framed (render_lines textsize c f lines blocks).
Proof.
  induction lines as [|line r IH]; intro blocks; simpl; framed_auto.
Qed.

Lemma framed_wrap_pass parts c eb f d i :
  framed (wrap_pass textsize parts c eb f d i).
Proof. unfold wrap_pass. framed_auto. Qed.

#[local] Hint Resolve framed_render_lines framed_wrap_pass : framed.

Lemma framed_wrap_loop parts c eb f fuel :
  forall d i blocks, framed (wrap_loop textsize fuel parts c eb f d i blocks).
Proof.
  induction fuel as [|fuel IH]; intros d i blocks; simpl; framed_auto.
Qed.

#[local] Hint Resolve framed_wrap_loop : framed.

Lemma framed_render_text t c eb f : framed (render_text textsize t c eb f).
Proof. unfold render_text. framed_auto. Qed.

#[local] Hint Resolve framed_render_text : framed.

(** *** The handlers, one by one *)

Lemma walks_add_link x :
  walks (modify (fun s => set_links (links s ++ [x]) s)).
Proof.
  intros s a s' H. exec. unfold_setters.
  constructor; cbn; try reflexivity; try lia.
  - eexists. reflexivity.
  - apply nums_rel_refl.
  - apply log_rel_refl.
Qed.

Create HintDb keeps.
#[local] Hint Resolve frame_walk frame_same_counters walks_add_link : keeps.

(** A handler made of layout primitives, of the walk of the children and of
    changes that [R] does not see keeps [R] when the children do. *)
Ltac keeps_step :=
  match goal with
  | H : keeps ?R ?m |- keeps ?R ?m => exact H
  | |- keeps _ _ => solve [auto with keeps]
  | |- keeps _ _ =>
      solve [apply (keeps_sub _ frame); [auto with keeps | framed_auto]]
  | |- keeps _ (bind _ _) => apply keeps_bind; [ exact _ | | intro ]
  | |- keeps same_counters (modify _) =>
      apply keeps_modify; intro; reflexivity
  | |- keeps _ (if ?b then _ else _) => destruct b
  | |- keeps _ (match ?x with _ => _ end) => destruct x
  end.

Ltac keeps_auto := repeat keeps_step.

(** Turns the runs of the context into facts about their two states. *)
Ltac summarize :=
  repeat match goal with
  | H : newline _ _ = Ok _ _ |- _ => apply framed_newline in H
  | H : ensure_image _ _ = Ok _ _ |- _ => apply framed_ensure_image in H
  | H : draw_on _ _ _ = Ok _ _ |- _ => apply framed_draw_on in H
  | H : measure _ _ _ _ _ = Ok _ _ |- _ => apply framed_measure in H
  | H : render_text _ _ _ _ _ _ = Ok _ _ |- _ => apply framed_render_text in H
  | W : walks ?hc, H : ?hc _ = Ok _ _ |- _ => apply W in H
  end.

Ltac open_rels :=
  repeat match goal with
  | H : frame _ _ |- _ => destruct H
  | H : walk_rel _ _ |- _ => destruct H
  | H : exists later, links _ = _ |- _ => destruct H as [later H]
  end;
  unfold_setters; cbn in *.

Ltac solve_links :=
  match goal with
  | H : links _ = _ ++ ?l |- exists _, _ => exists l; congruence
  end.

Ltac walk_solve :=
  constructor; cbn; try lia; try congruence; try solve_links.

(** Rewrites the nesting fields of the later states in terms of the earlier. *)
Ltac subst_proj :=
  repeat match goal with
  | H : list_types ?a = _ |- _ => is_var a; try rewrite H in *; clear H
  | H : list_item_nums ?a = _ |- _ => is_var a; try rewrite H in *; clear H
  | H : ordinal_log ?a = _ |- _ => is_var a; try rewrite H in *; clear H
  end.

Section Handlers.

Variable hc : M unit.
Variable n : node.

(** The handlers that neither indent nor open a list, for both relations. *)
Section Plain.

Context (R : state -> state -> Prop) `{!PreOrder R}.
Hypothesis frame_R : forall s s', frame s s' -> R s s'.
Hypothesis link_R :
  forall x, keeps R (modify (fun s => set_links (links s ++ [x]) s)).
Hypothesis keeps_hc : keeps R hc.

#[local] Hint Resolve frame_R link_R : keeps.

Lemma keeps_handle_a : keeps R (handle_a textsize hc n).
Proof. unfold handle_a. keeps_auto. Qed.

Lemma keeps_handle_span f : keeps R (handle_span textsize f hc n).
Proof. unfold handle_span. keeps_auto. Qed.

Lemma keeps_handle_div : keeps R (handle_div hc n).
Proof. unfold handle_div. keeps_auto. Qed.

Lemma keeps_handle_h : keeps R (handle_h textsize hc n).
Proof. unfold handle_h. keeps_auto. Qed.

Lemma keeps_handle_hr : keeps R (handle_hr hc n).
Proof. unfold handle_hr. keeps_auto. Qed.

Lemma keeps_handle_p : keeps R (handle_p textsize hc n).
Proof. unfold handle_p. keeps_auto. Qed.

Lemma keeps_handle_unknown : keeps R (handle_unknown hc n).
Proof. unfold handle_unknown. keeps_auto. Qed.

End Plain.

Lemma same_counters_add_link x :
  keeps same_counters (modify (fun s => set_links (links s ++ [x]) s)).
Proof. apply keeps_modify. intro. reflexivity. Qed.



Hypothesis walks_hc : walks hc.

Lemma walks_handle_blockquote : walks (handle_blockquote hc n).
Proof.
  intros s a s' H. unfold handle_blockquote in H. exec. summarize.
  open_rels.
  walk_solve.
Qed.

Lemma walks_handle_pre : walks (handle_pre hc n).
Proof.
  intros s a s' H. unfold handle_pre in H. exec. summarize.
  open_rels.
  walk_solve.
Qed.

Lemma handle_ul_run s a s' :
  handle_ul hc n s = Ok a s' ->
  walk_rel s s' /\ list_item_nums s' = list_item_nums s.
Proof.
  intros H. unfold handle_ul in H. exec. summarize.
  open_rels.
  rewrite fr_types1 in *. rewrite wr_types0 in *.
  apply nums_rel_unordered in wr_nums0.
  rewrite removelast_last in *.
  split; [|congruence].
  walk_solve. left. congruence.
Qed.

Lemma walks_handle_ul : walks (handle_ul hc n).
Proof. intros s a s' H. apply handle_ul_run in H. tauto. Qed.

(** An ordered list: besides what every subtree leaves behind, the numbers
    drawn at its own depth are [1; 2; ...; m-1]. *)
Lemma handle_ol_run s a s' :
  handle_ol hc n s = Ok a s' ->
  walk_rel s s' /\
  list_item_nums s' = list_item_nums s /\
  exists new m,
    ordinal_log s' = ordinal_log s ++ new /\
    Forall (fun e => (S (length (list_item_nums s)) <= fst e)%nat) new /\
    own (S (length (list_item_nums s))) new = zseq 1 m /\ 1 <= m.
Proof.
  intros H. unfold handle_ol in H. exec. summarize.
  open_rels.
  rewrite fr_types1, fr_nums1 in *. rewrite wr_types0 in *.
  destruct (nums_rel_pushed _ _ _ _ wr_nums0) as (k' & Ek & Hk).
  rewrite Ek in *. rewrite !removelast_last in *.
  destruct wr_log0 as (new & El & Fn & On).
  rewrite length_app, !last_last in *. simpl length in *.
  rewrite Nat.add_1_r in *.
  assert (Fn' : Forall (fun e => (length (list_item_nums s) <= fst e)%nat) new).
  { eapply Forall_impl; [|exact Fn]. cbv beta. intros. lia. }
  split; [|split].
  - walk_solve.
    + left. congruence.
    + exists new. rewrite fr_nums0, fr_log0, El, fr_log1.
      split; [reflexivity|]. split; [exact Fn'|].
      rewrite zseq_refl. apply own_deeper. exact Fn.
  - congruence.
  - exists new, k'. rewrite fr_log0, El, fr_log1. auto.
Qed.

Lemma walks_handle_ol : walks (handle_ol hc n).
Proof. intros s a s' H. apply handle_ol_run in H. tauto. Qed.

Lemma walks_handle_li : walks (handle_li textsize hc n).
Proof.
  intros s a s' H. unfold handle_li in H. exec.
  match goal with
  | K : py_index (list_types s) _ = Some ?k,
    R : match ?k with _ => _ end _ = _ |- _ =>
      destruct k; unfold draw_number in R; exec
  end; summarize.
  - assert (Ho : top_is_ordered (list_types s) = true).
    { unfold top_is_ordered.
      match goal with K : py_index (list_types s) _ = _ |- _ => rewrite K end.
      reflexivity. }
    repeat match goal with
    | K : py_index _ (-1) = Some _ |- _ =>
        apply py_index_last_inv in K; destruct K as [? K]
    end.
    open_rels. walk_solve; subst_proj.
    all: match goal with
         | E : _ ++ [_] = _ ++ [_] |- _ =>
             apply app_inj_tail in E; destruct E; subst
         end.
    all: rewrite removelast_last in *.
    all: match goal with
         | N : nums_rel _ _ _ |- _ =>
             destruct (nums_rel_pushed _ _ _ _ N) as (k' & Ek & Hk);
             rewrite Ek in *
         end.
    + right. split; [exact Ho|]. eexists _, _, k'. repeat split. lia.
    + match goal with
      | L : log_rel _ _ _ _ |- _ => destruct L as (new & El & Fn & On)
      end.
      rewrite El, <- app_assoc. eexists. split; [reflexivity|].
      rewrite !length_app, !last_last in *. simpl length in *.
      split.
      * constructor; [simpl; lia | exact Fn].
      * unfold own in *. simpl filter. rewrite Nat.eqb_refl. simpl map.
        rewrite On. symmetry. apply zseq_cons. lia.
  - open_rels. walk_solve.
Qed.

End Handlers.

(** Induction on a tree with the hypothesis on all children. *)
Lemma node_induction (P : node -> Prop) :
  (forall tag text tail attrib children,
     Forall P children -> P (Node tag text tail attrib children)) ->
  forall n, P n.
Proof.
  intro step. fix IH 1. intros [tag text tail attrib children].
  apply step. induction children as [|c r IHr]; constructor; [apply IH | exact IHr].
Qed.

Ltac plain_handler :=
  first [ apply keeps_handle_a | apply keeps_handle_span
        | apply keeps_handle_div | apply keeps_handle_h
        | apply keeps_handle_hr | apply keeps_handle_p
        | apply keeps_handle_unknown ];
  try exact _; auto with keeps.

Lemma walks_dispatch hc n tag :
  walks hc -> walks (handlers_get tag (handlers textsize) handle_unknown hc n).
Proof.
  intro Hhc. apply keeps_handlers_get.
  - unfold handlers, handle_code, handle_em, handle_strong.
    repeat (constructor; [intros _; simpl;
      first [ plain_handler
            | auto using walks_handle_blockquote, walks_handle_pre,
                walks_handle_ul, walks_handle_ol, walks_handle_li ] | ]).
    constructor.
  - plain_handler.
Qed.

(** Whatever the subtree, its walk leaves the nesting context as it was. *)
Lemma walks_handle_node n : walks (handle_node textsize n).
Proof.
  induction n as [tag text tail attrib children IH] using node_induction.
  simpl. apply walks_dispatch. apply keeps_for_each; [exact _ | exact IH].
Qed.

Lemma walks_children children :
  walks (for_each (handle_node textsize) children).
Proof.
  apply keeps_for_each; [exact _|]. apply Forall_forall. intros c _.
  apply walks_handle_node.
Qed.

#[local] Hint Resolve same_counters_add_link : keeps.


End Walk.

(** ** Construction sorts the caller's list *)

Lemma entry_leb_le a b : entry_leb a b = true <-> entry_le a b.
Proof.
  unfold entry_leb, entry_le.
  rewrite !orb_true_iff, !andb_true_iff, !orb_true_iff, !andb_true_iff.
  rewrite !Z.ltb_lt, !Z.eqb_eq, Z.leb_le. tauto.
Qed.

Lemma entry_leb_total a b : entry_leb a b = false -> entry_le b a.
Proof.
  intro H. destruct (entry_leb b a) eqn:E; [apply entry_leb_le; exact E|].
  exfalso. unfold entry_leb in *.
  rewrite !orb_false_iff, !andb_false_iff, !orb_false_iff, !andb_false_iff in *.
  rewrite !Z.ltb_ge, !Z.eqb_neq, !Z.leb_gt in *. lia.
Qed.

Lemma entry_le_trans a b c : entry_le a b -> entry_le b c -> entry_le a c.
Proof. unfold entry_le. lia. Qed.

Lemma insert_entry_perm e l : Permutation (e :: l) (insert_entry e l).
Proof.
  induction l as [|x r IH]; simpl; [reflexivity|].
  destruct (entry_leb e x); [reflexivity|].
  rewrite perm_swap. constructor. exact IH.
Qed.

Lemma sort_entries_perm l : Permutation l (sort_entries l).
Proof.
  induction l as [|e r IH]; simpl; [constructor|].
  rewrite <- insert_entry_perm. constructor. exact IH.
Qed.

Lemma insert_entry_sorted e l :
  StronglySorted entry_le l -> StronglySorted entry_le (insert_entry e l).
Proof.
  induction 1 as [|x r Hr IH Hx]; simpl.
  - repeat constructor.
  - destruct (entry_leb e x) eqn:E.
    + apply entry_leb_le in E. constructor; [constructor; assumption|].
      constructor; [exact E|].
      eapply Forall_impl; [|exact Hx]. intros y Hy.
      eapply entry_le_trans; eauto.
    + apply entry_leb_total in E. constructor; [exact IH|].
      rewrite <- insert_entry_perm. constructor; assumption.
Qed.

Lemma sort_entries_sorted l : StronglySorted entry_le (sort_entries l).
Proof.
  induction l as [|e r IH]; simpl; [constructor|].
  apply insert_entry_sorted. exact IH.
Qed.

Lemma store_set_same h r v : store_set h r v r = v.
Proof. unfold store_set. rewrite Nat.eqb_refl. reflexivity. Qed.

Lemma store_set_other h r v r' : r' <> r -> store_set h r v r' = h r'.
Proof.
  intro N. unfold store_set. destruct (Nat.eqb_spec r' r); [contradiction|reflexivity].
Qed.

(** C10.  Construction succeeds on every non-empty width specification, keeps
    the caller's reference as [self.width_spec] and sorts the list object
    behind it in place: after construction that object holds a permutation
    of its former content in the lexicographic order of the triples, and no
    other list object has changed. *)
Theorem init_sorts_callers_list (h : store) (ws : loc) (conf : config_t) :
  h ws <> [] ->
  exists s,
    init h ws conf = Ok tt s /\
    width_spec s = ws /\
    heap s ws = sort_entries (h ws) /\
    Permutation (h ws) (heap s ws) /\
    StronglySorted entry_le (heap s ws) /\
    forall r, r <> ws -> heap s r = h r.
Proof.
  intro Hne. unfold init.
  destruct (h ws) as [|e r] eqn:E; [contradiction|].
  pose proof (sort_entries_perm (e :: r)) as P.
  pose proof (sort_entries_sorted (e :: r)) as S.
  remember (sort_entries (e :: r)) as l eqn:El.
  match goal with |- exists s, apply_width_spec 0 ?s0 = _ /\ _ =>
    destruct (apply_width_spec 0 s0) as [[] s1|x s1] eqn:R
  end.
  - pose proof (framed_apply_width_spec _ _ _ _ R) as [].
    cbn in *. exists s1. split; [reflexivity|].
    rewrite fr_heap0, fr_spec0, store_set_same.
    repeat split; auto.
    intros r' N. apply store_set_other. exact N.
  - exfalso. unfold apply_width_spec, bind, get, index in R. cbn in R.
    rewrite store_set_same in R.
    apply Permutation_length in P.
    destruct l as [|e0 r0]; [discriminate P|].
    cbn in R. destruct (y_offset e0 <=? 0); discriminate R.
Qed.

Lemma init_sorts_callers_list_witness :
  exists s,
    init (store_of [(500, 100, 100); (0, 0, 200)]) 0%nat default_config = Ok tt s /\
    width_spec s = 0%nat /\
    heap s 0%nat = sort_entries [(500, 100, 100); (0, 0, 200)] /\
    Permutation [(500, 100, 100); (0, 0, 200)] (heap s 0%nat) /\
    StronglySorted entry_le (heap s 0%nat) /\
    forall r, r <> 0%nat -> heap s r = [(500, 100, 100); (0, 0, 200)].
Proof.
  apply (init_sorts_callers_list (store_of [(500, 100, 100); (0, 0, 200)])).
  vm_compute. discriminate.
Defined.

(** ** Headings *)

Section Headings.

Variable textsize : string -> font -> Z * Z.

(** C9.  The handler of a heading [h1] to [h6] renders the node's own text as
    a block in the heading font and ends the line; this is all it does, the
    children and the tail text of the node play no part. *)
Theorem heading_renders_own_text_only tag text tail attrib children s :
  In tag ["h1"; "h2"; "h3"; "h4"; "h5"; "h6"] ->
  exists f,
    heading_font tag = Some f /\
    handle_node textsize (Node tag text tail attrib children) s =
    (render_text textsize text (cfg_color (config s)) true (Some f) ;;
     newline (-1)) s.
Proof.
  intro H. simpl in H.
  repeat (destruct H as [<-|H]; [eexists; split; [reflexivity|reflexivity]|]).
  contradiction.
Qed.

End Headings.

Lemma heading_renders_own_text_only_witness :
  exists f,
    heading_font "h2" = Some f /\
    handle_node mono_textsize
      (Node "h2" (Some "Title") (Some "after") [] [leaf "em" "dropped"])
      (ready [(0, 0, 200)]) =
    (render_text mono_textsize (Some "Title")
       (cfg_color (config (ready [(0, 0, 200)]))) true (Some f) ;;
     newline (-1)) (ready [(0, 0, 200)]).
Proof.
  apply heading_renders_own_text_only. simpl. auto.
Defined.

(** ** Where the code leaves its own documentation *)

Lemma max_by_width_spec l :
  forall best,
    In (max_by_width best l) (best :: l) /\
    Forall (fun e => width e <= width (max_by_width best l)) (best :: l).
Proof.
  induction l as [|e r IH]; intro best; simpl.
  - split; [auto|]. repeat constructor. lia.
  - destruct (IH (if width best <? width e then e else best)) as [Hin Hall].
    inversion Hall as [|x l' Hx Hr]; subst. split.
    + destruct Hin as [E|Hin]; [|auto].
      rewrite <- E. destruct (width best <? width e); auto.
    + destruct (Z.ltb_spec (width best) (width e));
        repeat constructor; auto; lia.
Qed.

(** The width of the image is the greatest third component of the width
    specification. *)
Lemma init_image_width h ws conf s :
  init h ws conf = Ok tt s ->
  (exists e, In e (h ws) /\ image_width s = width e) /\
  Forall (fun e => width e <= image_width s) (h ws).
Proof.
  unfold init. destruct (h ws) as [|e r]; [discriminate|].
  intro H. apply framed_apply_width_spec in H. destruct H. cbn in *.
  rewrite fr_width0. destruct (max_by_width_spec r e) as [Hin Hall]. eauto.
Qed.

(** On an empty chunk a draw higher than the chunk is answered by the
    warning and [None]. *)
Lemma ensure_image_refuses h s d s' im :
  image s = Some im -> image_y s = 0 -> img_height im < h ->
  ensure_image h s = Ok d s' ->
  d = None /\ stdout s' = stdout s ++ [too_small].
Proof.
  intros Him Hy Hh H. unfold ensure_image in H. exec.
  match goal with K : apply_width_spec _ _ = _ |- _ =>
    pose proof K as K';
    apply apply_width_spec_cursor in K;
    destruct K as (_ & _ & Ei & Eiy & _ & _)
  end.
  match goal with K : image _ = Some ?i |- _ =>
    rewrite Ei, Him in K; inversion K; subst i
  end.
  rewrite Eiy, Hy in *.
  destruct (Z.gtb_spec (0 + h) (img_height im)); [|lia].
  simpl in *. unfold print in *. exec. cbn. split; [reflexivity|].
  unfold apply_width_spec in K'. exec.
  destruct (_ <? _); exec; [|reflexivity].
  destruct (_ <=? _); exec; reflexivity.
Qed.

(** C1.  The image is as wide as the widest entry, the x-offset of the entry
    not counted: with the single column [(0, 50, 100)] the image is 100 wide
    although the column, as [apply_width_spec] sets it, ends at x = 150. *)
Theorem image_width_ignores_x_offset :
  exists f s,
    render mono_textsize (store_of [(0, 50, 100)]) 0%nat default_config
      (leaf "p" "x") = Ok f s /\
    final_width f = 100 /\ start_x s = Some 50 /\ end_x s = Some 150.
Proof.
  eexists. eexists. split; [vm_compute; reflexivity|].
  repeat split; reflexivity.
Qed.

(** C2.  A heading 1200 high cannot fit the first, still empty chunk:
    [ensure_image] prints its warning and returns [None], and the drawing
    call on that [None] raises.  The walk ends there. *)
Theorem oversized_draw_aborts_walk :
  exists s,
    render huge_h1_textsize (store_of [(0, 0, 200)]) 0%nat default_config
      (branch "div" [leaf "h1" "A"; leaf "p" "never reached"])
    = Raise AttributeError s /\
    stdout s = [too_small] /\ drawn s = [].
Proof.
  eexists. split; [vm_compute; reflexivity|]. split; reflexivity.
Qed.

(** C4.  With breakpoints at 0 and 500, thirty-two rules bring the cursor to
    y = 512 without any call of [apply_width_spec].  The paragraph that
    follows is wrapped and drawn at x = 0 with the bounds of the first
    column, although the second column, in force from y = 500 on, starts at
    x = 100; the index moves to 1 only in the course of that draw.  The other
    way round, a line 12 high at y = 496 moves the index while it is drawn,
    and what continues that line, still at y = 496, is wrapped against the
    second column: ["bbbb cccc"] is broken after its first word at the right
    edge 50, where the first column has room up to 200. *)
Theorem column_switch_lags_behind :
  (exists s before,
     run mono_textsize (branch "div" (repeat hr_node 32 ++ [leaf "p" "hello"]))
       (state_of (init (store_of [(0, 0, 200); (500, 100, 100)]) 0%nat
                       default_config))
     = Ok tt s /\
     drawn s = before ++ [DText 0 512 "hello" default_font (255, 255, 255, 255)] /\
     heap s (width_spec s) = [(0, 0, 200); (500, 100, 100)] /\
     width_spec_index s = 1 /\ start_x s = Some 100) /\
  (exists s,
     run mono_textsize
       (branch "div"
          (repeat hr_node 31 ++
           [Node "p" (Some "aaa") None [] [leaf "strong" "bbbb cccc"]]))
       (state_of (init (store_of [(0, 0, 200); (500, 0, 50)]) 0%nat
                       default_config))
     = Ok tt s /\
     filter is_text (drawn s) =
       [DText 0 496 "aaa" default_font (255, 255, 255, 255);
        DText 18 496 "bbbb" bold_font (255, 255, 255, 255);
        DText 0 508 "cccc" bold_font (255, 255, 255, 255)]).
Proof.
  split.
  - eexists. exists (removelast (drawn (state_of
      (run mono_textsize (branch "div" (repeat hr_node 32 ++ [leaf "p" "hello"]))
        (state_of (init (store_of [(0, 0, 200); (500, 100, 100)]) 0%nat
                        default_config)))))).
    split; [vm_compute; reflexivity|].
    repeat split; vm_compute; reflexivity.
  - eexists. split; vm_compute; reflexivity.
Qed.

(** C5.  A line is chosen against the right edge that [end_x] holds while
    the loop measures, and [ensure_image] may move the column before the line
    is drawn.  With breakpoints at 0 and 500, thirty-two rules bring the
    cursor to y = 512 with the first column, 200 wide, still set.  The four
    words of the paragraph that follows fit that column and are drawn as one
    fragment, 114 wide, at x = 0 and y = 512; but the call of [ensure_image]
    that precedes the draw has set the second column, in force from y = 500
    on, and [end_x] is 50 when the fragment is drawn. *)
Theorem wrapped_line_exceeds_column :
  let white := (255, 255, 255, 255) in
  let line := "aaaa bbbb cccc dddd" in
  let start :=
    state_of (init (store_of [(0, 0, 200); (500, 0, 50)]) 0%nat
                default_config) in
  let s0 :=
    state_of (run mono_textsize (branch "div" (repeat hr_node 32)) start) in
  (y s0 = 512 /\ image_x s0 = 0 /\ end_x s0 = Some 200) /\
  (exists s1, ensure_image 12 s0 = Ok (Some Surface) s1 /\ end_x s1 = Some 50) /\
  (exists s before,
     render_text mono_textsize (Some line) white false None s0
       = Ok (Some [(0, 512, 114, 12)]) s /\
     drawn s = before ++ [DText 0 512 line default_font white] /\
     end_x s = Some 50) /\
  (exists s before,
     run mono_textsize (branch "div" (repeat hr_node 32 ++ [leaf "p" line]))
       start = Ok tt s /\
     drawn s = before ++ [DText 0 512 line default_font white] /\
     end_x s = Some 50).
Proof.
  intros white line start s0.
  split; [repeat split; vm_compute; reflexivity|].
  split; [eexists; split; vm_compute; reflexivity|].
  split.
  - eexists.
    exists (removelast (drawn (state_of
      (render_text mono_textsize (Some line) white false None s0)))).
    split; [vm_compute; reflexivity|].
    split; vm_compute; reflexivity.
  - eexists.
    exists (removelast (drawn (state_of
      (run mono_textsize (branch "div" (repeat hr_node 32 ++ [leaf "p" line]))
         start)))).
    split; [vm_compute; reflexivity|].
    split; vm_compute; reflexivity.
Qed.

(** ** Word wrap *)

Lemma slice_one {A} (l : list A) (i : nat) (d : A) :
  (i < length l)%nat -> Text.slice l i (i + 1) = [nth i l d].
Proof.
  unfold Text.slice. replace (i + 1 - i)%nat with 1%nat by lia.
  revert i. induction l as [|x r IH]; intros i H; simpl in H; [lia|].
  destruct i as [|i]; [reflexivity|]. simpl. apply IH. lia.
Qed.

Section Wrap.

Variable textsize : string -> font -> Z * Z.
Variables (parts : list string) (f : font) (x ex : Z) (start_index : nat).

Lemma extend_line_bounds n :
  forall e0 wh,
    (e0 <= fst (extend_line textsize n parts f x ex start_index e0 wh)
     <= e0 + n)%nat.
Proof.
  induction n as [|n IH]; intros e0 wh; simpl; [lia|].
  destruct (_ >? ex); simpl; [lia|].
  specialize (IH (S e0) (textsize
    (Text.join " " (Text.slice parts start_index (e0 + 1))) f)). lia.
Qed.

Lemma extend_line_fits n :
  forall e0 wh,
    let e := fst (extend_line textsize n parts f x ex start_index e0 wh) in
    e <> e0 ->
    x + fst (textsize (Text.join " " (Text.slice parts start_index e)) f) <= ex.
Proof.
  induction n as [|n IH]; intros e0 wh; simpl; [congruence|].
  destruct (Z.gtb_spec
    (x + fst (textsize (Text.join " " (Text.slice parts start_index (e0 + 1))) f))
    ex) as [G|G]; simpl; [congruence|].
  intros _.
  match goal with |- context [extend_line _ _ _ _ _ _ _ _ ?w] =>
    specialize (IH (S e0) w); pose proof (extend_line_bounds n (S e0) w) as B
  end.
  simpl in IH.
  destruct (Nat.eq_dec
    (fst (extend_line textsize n parts f x ex start_index (S e0)
       (textsize (Text.join " " (Text.slice parts start_index (e0 + 1))) f)))
    (S e0)) as [E|E].
  - rewrite E. rewrite <- Nat.add_1_r. exact G.
  - apply IH. exact E.
Qed.

End Wrap.

Section WrapPass.

Variable textsize : string -> font -> Z * Z.

Lemma wrap_pass_run parts fill end_block f draw start s e b d' s' :
  (start < length parts)%nat ->
  wrap_pass textsize parts fill end_block f draw start s = Ok (e, b, d') s' ->
  turn_fits textsize parts fill f start s e b s'.
Proof.
  intros Hlt H. unfold turn_fits. unfold wrap_pass in H. exec.
  try match goal with K : need_surface _ _ = _ |- _ =>
    unfold need_surface in K; destruct draw as [[]|]; exec
  end.
  match goal with K : end_x s = Some ?v |- _ => rename v into ex end.
  remember (extend_line textsize (length parts - start) parts f (image_x s) ex
              start start (0, 0)) as r eqn:Er.
  pose proof (extend_line_bounds textsize parts f (image_x s) ex start
                (length parts - start) start (0, 0)) as B.
  pose proof (extend_line_fits textsize parts f (image_x s) ex start
                (length parts - start) start (0, 0)) as F.
  cbv zeta in F. rewrite <- Er in B, F.
  match goal with K : ensure_image _ _ = _ |- _ =>
    apply ensure_image_cursor in K; destruct K as (Ex & Ey & im & Ei)
  end.
  match goal with K : draw_on _ _ _ = _ |- _ =>
    apply draw_on_ok in K; destruct K as (-> & ->)
  end.
  unfold_setters. cbn in *. rewrite Ei in *. cbn in *.
  match goal with K : (e, b, d') = _ |- _ => inversion K; clear K end.
  rewrite Ex, Ey in *.
  set (frag := Text.join " " (Text.slice parts start e)).
  match goal with K : _ _ = Ok _ ?sf |- _ =>
    assert (Him : exists im' ops y0, image sf = Some im' /\
              img_ops im' = ops ++ [DText (image_x s) y0 frag f fill]);
    [ subst frag e;
      match type of K with (if ?c then _ else _) _ = _ =>
        destruct c; [apply newline_image in K; rewrite K
                    | destruct end_block;
                      [apply newline_image in K; rewrite K | exec]]
      end; cbn; eexists _, _, _; split; reflexivity | ]
  end.
  destruct Him as (im' & ops & y0 & Him & Hops).
  exists ex, frag, im', ops, y0.
  subst frag b.
  destruct (Nat.eqb_spec start (fst r)) as [E|E]; subst e.
  - do 6 (split; [first [assumption | reflexivity | lia]|]).
    right. split; [lia|]. rewrite (slice_one _ _ ""%string) by lia. reflexivity.
  - do 6 (split; [first [assumption | reflexivity | lia]|]).
    left. apply F. congruence.
Qed.

Lemma bind_ext {A B} (m : M A) (k1 k2 : A -> M B) s :
  (forall a s1, m s = Ok a s1 -> k1 a s1 = k2 a s1) ->
  bind m k1 s = bind m k2 s.
Proof.
  intro H. unfold bind. destruct (m s) as [a s1|x s1]; [apply H|]; reflexivity.
Qed.

(** The fuel of [wrap_loop] never runs out: with [len(parts) - start_index]
    turns or more the result is the same. *)
Lemma wrap_loop_fuel parts fill end_block f fuel1 :
  forall fuel2 draw start blocks s,
    (length parts - start <= fuel1)%nat ->
    (length parts - start <= fuel2)%nat ->
    wrap_loop textsize fuel1 parts fill end_block f draw start blocks s =
    wrap_loop textsize fuel2 parts fill end_block f draw start blocks s.
Proof.
  induction fuel1 as [|fuel1 IH]; intros fuel2 draw start blocks s H1 H2.
  - destruct fuel2 as [|fuel2]; simpl; [reflexivity|].
    destruct (Nat.ltb_spec start (length parts)); [lia | reflexivity].
  - destruct fuel2 as [|fuel2]; simpl;
      destruct (Nat.ltb_spec start (length parts)); try lia; try reflexivity.
    apply bind_ext. intros [[e b] d'] s1 R.
    pose proof (wrap_pass_run _ _ _ _ _ _ _ _ _ _ _ H R)
      as (_ & _ & _ & _ & _ & _ & He & _).
    apply IH; simpl; lia.
Qed.

Lemma wrap_loop_wrapped parts fill end_block f fuel :
  forall draw start blocks0 s blocks s',
    (length parts - start <= fuel)%nat ->
    wrap_loop textsize fuel parts fill end_block f draw start blocks0 s
      = Ok blocks s' ->
    exists bs,
      blocks = blocks0 ++ bs /\
      wrapped textsize parts fill end_block f draw start s bs s'.
Proof.
  induction fuel as [|fuel IH]; intros draw start blocks0 s blocks s' Hf H;
    simpl in H.
  - exec. exists []. rewrite app_nil_r. split; [reflexivity|].
    constructor. lia.
  - destruct (Nat.ltb_spec start (length parts)) as [Hlt|Hge].
    + apply bind_ok in H. destruct H as ([[e b] d'] & s1 & R & H).
      pose proof (wrap_pass_run _ _ _ _ _ _ _ _ _ _ _ Hlt R) as T.
      assert (He : (start < e)%nat)
        by (destruct T as (? & ? & ? & ? & ? & ? & ? & _); lia).
      apply IH in H; [|simpl; lia].
      destruct H as (bs & -> & W). exists (b :: bs). simpl.
      rewrite <- app_assoc. split; [reflexivity|].
      econstructor; eauto.
    + exec. exists []. rewrite app_nil_r. split; [reflexivity|].
      constructor. lia.
Qed.

(** X18.  Outside preformatted text, whatever the text and the state,
    [render_text] returns the boxes of a run of wrapping turns that starts
    at the first word: in each turn the fragment drawn is made of whole
    words, it is drawn at the cursor [image_x], the box carries its measured
    size, and its width is at most [end_x - image_x], with [end_x] as the
    state has it when the turn begins and the loop tests it, unless the
    fragment is exactly the one word at the start of the line, which is then
    drawn whole. *)
Theorem wrapped_fragments_fit text fill end_block font s blocks s' :
  in_pre s = false ->
  render_text textsize (Some text) fill end_block font s = Ok blocks s' ->
  exists draw bs,
    image_draw s = Some draw /\ blocks = Some bs /\
    wrapped textsize (Text.split " " (compact_whitespace text)) fill end_block
      (match font with Some f => f | None => default_font end) draw 0 s bs s'.
Proof.
  intros Hpre H. unfold render_text in H. exec. rewrite Hpre in *. exec.
  match goal with K : wrap_loop _ _ _ _ _ _ _ _ _ _ = Ok _ _ |- _ =>
    apply wrap_loop_wrapped in K; [destruct K as (bs & -> & W) | lia]
  end.
  eauto.
Qed.

End WrapPass.

Lemma wrapped_fragments_fit_witness :
  let s := ready [(0, 0, 30)] in
  let r := render_text mono_textsize (Some "aaa  bbb cc")
             (cfg_color default_config) false None s in
  exists draw bs,
    image_draw s = Some draw /\
    Some [(0, 0, 18, 12); (0, 12, 18, 12); (0, 24, 12, 12)] = Some bs /\
    wrapped mono_textsize (Text.split " " (compact_whitespace "aaa  bbb cc"))
      (cfg_color default_config) false default_font draw 0 s bs (state_of r).
Proof.
  intros s r.
  apply (wrapped_fragments_fit mono_textsize "aaa  bbb cc"
           (cfg_color default_config) false None s).
  - reflexivity.
  - vm_compute. reflexivity.
Defined.

(** ** The assembled image *)

Lemma sum_heights_from (l : list (img * Z)) (a : Z) :
  fold_left (fun x im => x + snd im) l a = a + fold_right Z.add 0 (map snd l).
Proof.
  revert a. induction l as [|c r IH]; intro a; simpl; [lia|].
  rewrite IH. lia.
Qed.

(** The chunk of rank [k] is pasted below the used heights of those
    before it. *)
Lemma paste_all_nth l :
  forall y0 k c,
    nth_error l k = Some c ->
    nth_error (paste_all l y0) k =
    Some (fst c, (0, y0 + fold_right Z.add 0 (map snd (firstn k l)))).
Proof.
  induction l as [|c0 r IH]; intros y0 k c H; [destruct k; discriminate|].
  destruct k as [|k]; simpl in *.
  - inversion H. subst. do 3 f_equal. lia.
  - rewrite (IH _ _ _ H). do 3 f_equal. lia.
Qed.

Lemma save_image_block_images s a s' :
  save_image_block s = Ok a s' ->
  images s' =
    images s ++ match image s with Some im => [(im, image_y s)] | None => [] end /\
  image_width s' = image_width s.
Proof.
  unfold save_image_block. intro H. exec. destruct (image s); exec; cbn.
  - auto.
  - rewrite app_nil_r. auto.
Qed.

(** A draw that [ensure_image] grants fits the chunk when its height fits a
    chunk at all. *)
Lemma ensure_image_fits h s d s1 im :
  image s = Some im -> img_height im = IMAGE_BLOCK_HEIGHT ->
  h <= IMAGE_BLOCK_HEIGHT ->
  ensure_image h s = Ok (Some d) s1 ->
  image_y s1 + h <= IMAGE_BLOCK_HEIGHT.
Proof.
  intros Him Hh Hle H. unfold ensure_image in H. exec.
  match goal with K : apply_width_spec _ _ = _ |- _ =>
    apply apply_width_spec_cursor in K;
    destruct K as (_ & _ & Ei & Eiy & _ & _)
  end.
  match goal with K : image _ = Some ?i |- _ =>
    rewrite Ei, Him in K; inversion K; subst i
  end.
  rewrite Eiy, Hh in *.
  destruct (Z.gtb_spec (image_y s + h) IMAGE_BLOCK_HEIGHT).
  - destruct (image_y s =? 0).
    + unfold print in *. exec. discriminate.
    + unfold new_image_block in *. exec. cbn. lia.
  - exec. lia.
Qed.

(** C6, as the code has it.  [get_image] closes the open chunk with the
    chunk-local cursor as its used height, and the image it returns is as
    high as the used heights of all chunks add up to, each chunk pasted
    below the used heights of those before it.  A used height is not bounded
    by the capacity; what the capacity bounds is every draw of a height up to
    it that [ensure_image] grants. *)
Theorem final_height_sums_used_heights :
  (forall s f s',
     get_image s = Ok f s' ->
     images s' =
       images s ++
       match image s with Some im => [(im, image_y s)] | None => [] end /\
     final_height f = fold_right Z.add 0 (map snd (images s')) /\
     forall k c,
       nth_error (images s') k = Some c ->
       nth_error (final_pastes f) k =
       Some (fst c, (0, fold_right Z.add 0 (map snd (firstn k (images s')))))) /\
  (forall s h d s1 im,
     image s = Some im -> img_height im = IMAGE_BLOCK_HEIGHT ->
     h <= IMAGE_BLOCK_HEIGHT ->
     ensure_image h s = Ok (Some d) s1 ->
     image_y s1 + h <= IMAGE_BLOCK_HEIGHT).
Proof.
  split.
  - intros s f s' H. unfold get_image in H. exec.
    match goal with K : (if ?b then _ else _) _ = _ |- _ =>
      destruct b; exec
    end.
    match goal with K : save_image_block _ = _ |- _ =>
      apply save_image_block_images in K; destruct K as [K _]
    end.
    cbn. split; [assumption|]. split.
    + unfold sum_heights. rewrite sum_heights_from. lia.
    + intros k c Hk. rewrite (paste_all_nth _ _ _ _ Hk). reflexivity.
  - intros s h d s1 im. apply ensure_image_fits.
Qed.

Lemma final_height_sums_used_heights_witness :
  let s := state_of (run mono_textsize (leaf "p" "Hello world") (state_of
             (init (store_of [(0, 0, 200)]) 0%nat default_config))) in
  let f := {| final_width := 200; final_height := 16;
              final_pastes := paste_all (images (state_of (get_image s))) 0 |} in
  (images (state_of (get_image s)) =
     images s ++
     match image s with Some im => [(im, image_y s)] | None => [] end /\
   final_height f
     = fold_right Z.add 0 (map snd (images (state_of (get_image s)))) /\
   forall k c,
     nth_error (images (state_of (get_image s))) k = Some c ->
     nth_error (final_pastes f) k =
     Some (fst c, (0, fold_right Z.add 0
                        (map snd (firstn k (images (state_of (get_image s)))))))) /\
  image_y (state_of (ensure_image 12 (ready [(0, 0, 200)]))) + 12
    <= IMAGE_BLOCK_HEIGHT.
Proof.
  intros s f. split.
  - apply (proj1 final_height_sums_used_heights s f (state_of (get_image s))).
    vm_compute. reflexivity.
  - apply (proj2 final_height_sums_used_heights (ready [(0, 0, 200)]) 12
             Surface (state_of (ensure_image 12 (ready [(0, 0, 200)])))
             (blank 200 IMAGE_BLOCK_HEIGHT)).
    + vm_compute. reflexivity.
    + reflexivity.
    + unfold IMAGE_BLOCK_HEIGHT. lia.
    + vm_compute. reflexivity.
Defined.

(** C6 as worded fails: sixty-three rules advance the cursor of the first
    chunk to 1008 without a single call of [ensure_image], and the chunk is
    recorded with the used height 1008, above the capacity 1000. *)
Lemma used_height_exceeds_capacity :
  exists f s,
    render mono_textsize (store_of [(0, 0, 200)]) 0%nat default_config
      (branch "div" (repeat hr_node 63)) = Ok f s /\
    final_height f = 1008 /\ ~ chunks_within_capacity s.
Proof.
  eexists. eexists. split; [vm_compute; reflexivity|].
  split; [reflexivity|].
  intro H. apply Forall_inv in H. vm_compute in H. apply H. reflexivity.
Qed.

(** ** Nesting, list numbers and links over a whole subtree *)

Section Nesting.

Variable textsize : string -> font -> Z * Z.

(** The index into the width specification never moves back. *)
Lemma width_spec_index_monotone n s s' :
  handle_node textsize n s = Ok tt s' ->
  width_spec_index s <= width_spec_index s'.
Proof. intro H. apply walks_handle_node in H. destruct H. assumption. Qed.

(** An entry of the ghost history stands for a number drawn: [draw_number]
    issues the drawing call of the text ["k."] and enters [k]. *)
Lemma draw_number_run draw x y0 k fill s a s' im :
  image s = Some im ->
  draw_number draw x y0 k fill s = Ok a s' ->
  image s' =
    Some (add_op (DText x y0 (Text.fmt_d k ++ ".") default_font fill) im) /\
  ordinal_log s' = ordinal_log s ++ [(length (list_item_nums s), k)].
Proof.
  intros Him H. unfold draw_number in H. exec.
  match goal with K : draw_on _ _ _ = _ |- _ =>
    apply draw_on_ok in K; destruct K as (_ & ->)
  end.
  rewrite Him. cbn. auto.
Qed.

Lemma nums_rel_shape types nums nums' :
  nums_rel types nums nums' ->
  length nums' = length nums /\
  removelast nums' = removelast nums /\
  (top_is_ordered types = false -> nums' = nums).
Proof.
  intros [->|(Ho & rest & k & k' & -> & -> & _)]; [auto|].
  rewrite !length_app, !removelast_last. repeat split. congruence.
Qed.


(** C3, as the code has it.  An anchor with a link target appends one entry
    to the link map, and the boxes of the entry are those that rendering the
    anchor's own leading text returned, no more; the children are handled
    after the entry is made, what they append comes after it and they change
    no earlier entry.  An anchor without a target appends nothing itself. *)
Theorem anchor_entry_is_own_text text tail attrib children s s' :
  handle_node textsize (Node "a" text tail attrib children) s = Ok tt s' ->
  match attrib_get "href" attrib with
  | Some href =>
      exists boxes s1 s2 later,
        render_text textsize text (link_color (config s)) false None s
          = Ok boxes s1 /\
        links s1 = links s /\
        for_each (handle_node textsize) children
          (set_links (links s1 ++ [(href, boxes)]) s1) = Ok tt s2 /\
        links s2 = links s ++ (href, boxes) :: later /\
        links s' = links s2
  | None =>
      exists boxes s1 s2,
        render_text textsize text (cfg_color (config s)) false None s
          = Ok boxes s1 /\
        links s1 = links s /\
        for_each (handle_node textsize) children s1 = Ok tt s2 /\
        links s' = links s2
  end.
Proof.
  intros H. simpl in H. unfold handle_a in H.
  cbn [node_attrib node_text node_tail] in H.
  destruct (attrib_get "href" attrib) as [href|]; exec.
  - match goal with K : render_text _ text _ _ _ s = Ok ?b ?t |- _ =>
      exists b, t; pose proof (framed_render_text _ _ _ _ _ _ _ _ K) as F1
    end.
    match goal with K : for_each _ _ _ = Ok ?u ?t |- _ =>
      destruct u; exists t; pose proof (walks_children textsize _ _ _ _ K) as W
    end.
    destruct W as [_ _ _ _ _ [later Hl] _ _].
    match goal with K : render_text _ tail _ _ _ _ = Ok _ _ |- _ =>
      apply framed_render_text in K; destruct K as [_ _ _ _ F2 _ _ _ _ _ _]
    end.
    destruct F1 as [_ _ _ _ F1 _ _ _ _ _ _].
    unfold_setters. cbn in *.
    exists later. repeat split; try assumption.
    rewrite Hl, F1, <- app_assoc. reflexivity.
  - match goal with K : render_text _ text _ _ _ s = Ok ?b ?t |- _ =>
      exists b, t; pose proof (framed_render_text _ _ _ _ _ _ _ _ K) as F1
    end.
    match goal with K : for_each _ _ _ = Ok ?u ?t |- _ =>
      destruct u; exists t
    end.
    match goal with K : render_text _ tail _ _ _ _ = Ok _ _ |- _ =>
      apply framed_render_text in K; destruct K as [_ _ _ _ F2 _ _ _ _ _ _]
    end.
    destruct F1 as [_ _ _ _ F1 _ _ _ _ _ _].
    repeat split; assumption.
Qed.

End Nesting.



Lemma anchor_entry_is_own_text_witness :
  let s := ready [(0, 0, 200)] in
  let s' := state_of (handle_node mono_textsize
              (Node "a" (Some "a") None [("href", "http://x")] [leaf "strong" "b"])
              s) in
  exists boxes s1 s2 later,
    render_text mono_textsize (Some "a") (link_color (config s)) false None s
      = Ok boxes s1 /\
    links s1 = links s /\
    for_each (handle_node mono_textsize) [leaf "strong" "b"]
      (set_links (links s1 ++ [("http://x", boxes)]) s1) = Ok tt s2 /\
    links s2 = links s ++ ("http://x", boxes) :: later /\
    links s' = links s2.
Proof.
  intros s s'.
  apply (anchor_entry_is_own_text mono_textsize (Some "a") None
           [("href", "http://x")] [leaf "strong" "b"] s s').
  vm_compute. reflexivity.
Defined.

(** C3 as worded fails: of the two runs drawn inside the anchor, its own
    ["a"] and the ["b"] of the nested [strong], the entry has the box of the
    first only. *)
Lemma nested_run_box_not_collected :
  ~ entry_covers_runs mono_textsize (Some "a") [("href", "http://x")]
      [leaf "strong" "b"] (ready [(0, 0, 200)]).
Proof.
  intro H.
  specialize (H (state_of (handle_node mono_textsize
    (Node "a" (Some "a") None [("href", "http://x")] [leaf "strong" "b"])
    (ready [(0, 0, 200)])))).
  destruct H as (href & boxes & later & E & L); [vm_compute; reflexivity|].
  vm_compute in E. inversion E. subst.
  vm_compute in L. discriminate L.
Qed.

(** ** Compacted white space *)

Lemma is_space_blank : Text.is_space " " = true.
Proof. reflexivity. Qed.

Lemma compact_ws_single_spaced s :
  forall b, single_spaced b (Text.compact_ws b s) = true.
Proof.
  induction s as [|c r IH]; intro b; simpl; [reflexivity|].
  destruct (Text.is_space c) eqn:Ec.
  - destruct b; [apply IH|]. simpl. apply IH.
  - simpl. destruct (Ascii.eqb_spec c " ") as [->|_].
    + rewrite is_space_blank in Ec. discriminate.
    + rewrite Ec. simpl. apply IH.
Qed.

Lemma single_spaced_fixed s :
  forall b, single_spaced b s = true -> Text.compact_ws b s = s.
Proof.
  induction s as [|c r IH]; intros b H; simpl in *; [reflexivity|].
  destruct (Ascii.eqb_spec c " ") as [->|_].
  - rewrite is_space_blank. apply andb_true_iff in H. destruct H as [Hb Hr].
    destruct b; [discriminate|]. f_equal. apply IH. exact Hr.
  - apply andb_true_iff in H. destruct H as [Hc Hr].
    apply negb_true_iff in Hc. rewrite Hc. f_equal. apply IH. exact Hr.
Qed.

(** X1.  [compact_whitespace] returns a text in which every white-space
    character is a blank and no two blanks are adjacent; applied to its own
    result it changes nothing. *)
Theorem compact_whitespace_normal_form (text : string) :
  single_spaced false (compact_whitespace text) = true /\
  compact_whitespace (compact_whitespace text) = compact_whitespace text.
Proof.
  unfold compact_whitespace. split.
  - apply compact_ws_single_spaced.
  - apply single_spaced_fixed. apply compact_ws_single_spaced.
Qed.

Lemma split_nonempty sep s : Text.split sep s <> [].
Proof.
  destruct s as [|c r]; simpl; [discriminate|].
  destruct (Ascii.eqb c sep); [discriminate|].
  destruct (Text.split sep r); discriminate.
Qed.

Lemma join_cons sep w ws :
  ws <> [] -> Text.join sep (w :: ws) = (w ++ sep ++ Text.join sep ws)%string.
Proof. destruct ws; [congruence | reflexivity]. Qed.

Lemma join_split sep s :
  Text.join (String sep EmptyString) (Text.split sep s) = s.
Proof.
  induction s as [|c r IH]; [reflexivity|].
  simpl Text.split. destruct (Ascii.eqb_spec c sep) as [->|Hc].
  - rewrite join_cons by apply split_nonempty. rewrite IH. reflexivity.
  - pose proof (split_nonempty sep r) as Hn.
    destruct (Text.split sep r) as [|w ws]; [congruence|].
    destruct ws as [|w' ws].
    + simpl in *. congruence.
    + rewrite <- IH. rewrite !join_cons by discriminate. reflexivity.
Qed.

(** ** What every walk keeps

    A relation between states holds around the walk of every subtree as soon
    as it is a preorder that holds around the layout primitives, with the
    heights that the handlers pass to [newline], and around each assignment
    of the handlers. *)

Section Invariance.

Variable textsize : string -> font -> Z * Z.
Variable c : config_t.
Context (Q : state -> state -> Prop) `{!PreOrder Q}.

Hypothesis Q_print : forall line, keeps Q (print line).
Hypothesis Q_newline :
  forall h, h = -1 \/ h = margin_bottom c \/ h = list_item_margin_bottom c ->
    keeps Q (newline h).
Hypothesis Q_ensure_image : forall h, keeps Q (ensure_image h).
Hypothesis Q_draw_on : forall d op, keeps Q (draw_on d op).
Hypothesis Q_line_height :
  forall h s, Q s (set_line_height (Z.max h (line_height s)) s).
Hypothesis Q_image_x : forall w s, Q s (set_image_x (image_x s + w) s).
Hypothesis Q_indent : forall v s, Q s (set_indent v s).
Hypothesis Q_in_pre : forall v s, Q s (set_in_pre v s).
Hypothesis Q_links : forall v s, Q s (set_links v s).
Hypothesis Q_list_types : forall v s, Q s (set_list_types v s).
Hypothesis Q_list_item_nums : forall v s, Q s (set_list_item_nums v s).
Hypothesis Q_ordinal_log : forall v s, Q s (set_ordinal_log v s).

#[local] Instance under_preorder : PreOrder (under c Q).
Proof.
  split.
  - intros s Hc. split; [exact Hc | reflexivity].
  - intros s1 s2 s3 H12 H23 Hc. destruct (H12 Hc) as [Hc2 Q12].
    destruct (H23 Hc2) as [Hc3 Q23]. split; [exact Hc3 | etransitivity; eauto].
Qed.

Lemma under_framed {A} (m : M A) : keeps Q m -> framed m -> keeps (under c Q) m.
Proof.
  intros HQ HF s a s' H Hc. split; [|eapply HQ; exact H].
  apply HF in H. destruct H. congruence.
Qed.

Lemma under_setter (f : state -> state) s :
  Q s (f s) -> config (f s) = config s -> under c Q s (f s).
Proof. intros HQ Hf Hc. split; [congruence | exact HQ]. Qed.

(** A configuration key is read as the value that [c] gives it. *)
Lemma under_cfg_bind {A B} (key : config_t -> A) (k : A -> M B) :
  keeps (under c Q) (k (key c)) -> keeps (under c Q) (bind (cfg key) k).
Proof.
  intros Hk s b s' H Hc. apply bind_ok in H. destruct H as (a & s1 & H1 & H2).
  apply cfg_ok in H1. destruct H1 as [-> ->]. rewrite Hc in H2.
  exact (Hk _ _ _ H2 Hc).
Qed.

Ltac under_leaf :=
  first
    [ solve [auto]
    | apply under_framed; [ solve [auto] | solve [auto with framed] ]
    | apply under_setter; [ solve [auto] | reflexivity ] ].

Ltac under_step :=
  match goal with
  | H : keeps ?R ?m |- keeps ?R ?m => exact H
  | |- keeps _ (bind (cfg _) _) => apply under_cfg_bind; cbv beta
  | |- keeps _ (bind _ _) => apply keeps_bind; [ exact _ | | intro ]
  | |- keeps _ (ret _) => apply keeps_ret; exact _
  | |- keeps _ (raise _) => apply keeps_raise
  | |- keeps _ get => apply keeps_get; exact _
  | |- keeps _ (gets _) => apply keeps_gets; exact _
  | |- keeps _ (get_attr _) => apply keeps_get_attr; exact _
  | |- keeps _ (index _ _) => apply keeps_index; exact _
  | |- keeps _ (plus_half _ _) => apply keeps_float_op; exact _
  | |- keeps _ (float_op _) => apply keeps_float_op; exact _
  | |- keeps _ (modify _) => apply keeps_modify; intro; under_leaf
  | |- keeps _ (if ?b then _ else _) => destruct b
  | |- keeps _ (match ?x with _ => _ end) => destruct x
  | |- keeps _ _ => under_leaf
  end.

Ltac under_auto := repeat under_step.

Lemma under_measure d t f : keeps (under c Q) (measure textsize d t f).
Proof. unfold measure. under_auto. Qed.

Lemma under_need_surface d : keeps (under c Q) (need_surface d).
Proof. unfold need_surface. under_auto. Qed.

Lemma under_newline : keeps (under c Q) (newline (-1)).
Proof. under_leaf. Qed.

Lemma under_render_line fill f blocks line :
  keeps (under c Q) (render_line textsize fill f blocks line).
Proof.
  pose proof under_measure. pose proof under_newline.
  unfold render_line. under_auto.
Qed.

Lemma under_render_lines fill f lines :
  forall blocks, keeps (under c Q) (render_lines textsize fill f lines blocks).
Proof.
  pose proof under_render_line.
  induction lines as [|line r IH]; intro blocks; simpl; under_auto.
Qed.

Lemma under_wrap_pass parts fill eb f d i :
  keeps (under c Q) (wrap_pass textsize parts fill eb f d i).
Proof.
  pose proof under_need_surface. pose proof under_newline.
  unfold wrap_pass. under_auto.
Qed.

Lemma under_wrap_loop parts fill eb f fuel :
  forall d i blocks,
    keeps (under c Q) (wrap_loop textsize fuel parts fill eb f d i blocks).
Proof.
  pose proof under_wrap_pass.
  induction fuel as [|fuel IH]; intros d i blocks; simpl; under_auto.
Qed.

Lemma under_render_text t fill eb f :
  keeps (under c Q) (render_text textsize t fill eb f).
Proof.
  pose proof under_render_lines. pose proof under_wrap_loop.
  unfold render_text. under_auto.
Qed.

Section Handlers.

Variable hc : M unit.
Variable n : node.
Hypothesis under_hc : keeps (under c Q) hc.

Lemma under_handle_a : keeps (under c Q) (handle_a textsize hc n).
Proof. pose proof under_render_text. unfold handle_a. under_auto. Qed.

Lemma under_handle_span f : keeps (under c Q) (handle_span textsize f hc n).
Proof. pose proof under_render_text. unfold handle_span. under_auto. Qed.

Lemma under_handle_blockquote : keeps (under c Q) (handle_blockquote hc n).
Proof. pose proof under_newline. unfold handle_blockquote. under_auto. Qed.

Lemma under_handle_div : keeps (under c Q) (handle_div hc n).
Proof.
  pose proof under_newline.
  unfold handle_div, newline_unless_at_start. under_auto.
Qed.

Lemma under_handle_h : keeps (under c Q) (handle_h textsize hc n).
Proof.
  pose proof under_render_text. pose proof under_newline.
  unfold handle_h. under_auto.
Qed.

Lemma under_handle_hr : keeps (under c Q) (handle_hr hc n).
Proof.
  pose proof under_newline. pose proof under_need_surface.
  unfold handle_hr. under_auto.
Qed.

Lemma under_handle_li : keeps (under c Q) (handle_li textsize hc n).
Proof.
  pose proof under_render_text. pose proof under_measure.
  pose proof under_need_surface.
  unfold handle_li, draw_number. under_auto.
Qed.

Lemma under_handle_ol : keeps (under c Q) (handle_ol hc n).
Proof. pose proof under_newline. unfold handle_ol. under_auto. Qed.

Lemma under_handle_p : keeps (under c Q) (handle_p textsize hc n).
Proof. pose proof under_render_text. unfold handle_p. under_auto. Qed.

Lemma under_handle_pre : keeps (under c Q) (handle_pre hc n).
Proof. pose proof under_newline. unfold handle_pre. under_auto. Qed.

Lemma under_handle_ul : keeps (under c Q) (handle_ul hc n).
Proof. pose proof under_newline. unfold handle_ul. under_auto. Qed.

Lemma under_handle_unknown : keeps (under c Q) (handle_unknown hc n).
Proof. unfold handle_unknown. under_auto. Qed.

End Handlers.

Lemma under_handle_node n : keeps (under c Q) (handle_node textsize n).
Proof.
  induction n as [tag text tail attrib children IH] using node_induction.
  change (handle_node textsize (Node tag text tail attrib children))
    with (handlers_get tag (handlers textsize) handle_unknown
            (for_each (handle_node textsize) children)
            (Node tag text tail attrib children)).
  apply keeps_handlers_get.
  - unfold handlers, handle_code, handle_em, handle_strong.
    assert (Hhc : keeps (under c Q) (for_each (handle_node textsize) children))
      by (apply keeps_for_each; [exact _ | exact IH]).
    repeat (constructor; [intros _; simpl;
      auto using under_handle_a, under_handle_span, under_handle_blockquote,
        under_handle_div, under_handle_h, under_handle_hr, under_handle_li,
        under_handle_ol, under_handle_p, under_handle_pre, under_handle_ul | ]).
    constructor.
  - apply under_handle_unknown. apply keeps_for_each; [exact _ | exact IH].
Qed.

End Invariance.

(** ** The two cursors *)

Lemma used_heights_app l c :
  fold_right Z.add 0 (map snd (l ++ [c])) =
  fold_right Z.add 0 (map snd l) + @snd img Z c.
Proof. induction l as [|x r IH]; simpl; [lia | rewrite IH; lia]. Qed.

#[local] Instance cursors_agree_preorder : PreOrder cursors_agree.
Proof.
  split.
  - intros s H. auto.
  - intros s1 s2 s3 H12 H23 H. destruct (H12 H) as [H2 E2].
    destruct (H23 H2) as [H3 E3]. split; [exact H3 | lia].
Qed.

Ltac field_setter :=
  intros; unfold_setters;
  repeat match goal with |- _ /\ _ => split | |- _ -> _ => intro end;
  cbn in *; auto; try lia.

Lemma cursors_agree_print line : keeps cursors_agree (print line).
Proof.
  intros s a s' H. unfold print in H. exec.
  unfold cursors_agree, used_heights. field_setter.
Qed.

Lemma cursors_agree_newline h : keeps cursors_agree (newline h).
Proof.
  intros s a s' H. unfold newline in H. exec.
  unfold cursors_agree, used_heights. field_setter.
Qed.

Lemma cursors_agree_ensure_image h : keeps cursors_agree (ensure_image h).
Proof.
  intros s d s' H Hi. unfold ensure_image in H. exec.
  match goal with K : apply_width_spec _ _ = _ |- _ =>
    apply apply_width_spec_cursor in K;
    destruct K as (Ex & Ey & Ei & Eiy & Ed & Eis)
  end.
  unfold used_heights in *.
  destruct (_ >? _).
  - destruct (_ =? _).
    + unfold print in *. exec. cbn. rewrite Ey, Ei, Eiy, Eis. auto.
    + unfold new_image_block, save_image_block in *. exec.
      match goal with K : match image ?s with _ => _ end _ = _ |- _ =>
        destruct (image s) eqn:Eim; exec
      end; [|congruence].
      cbn. rewrite used_heights_app. cbn. rewrite Ey, Eiy, Eis.
      split; [discriminate | lia].
  - exec. rewrite Ey, Ei, Eiy, Eis. auto.
Qed.

Lemma cursors_agree_draw_on d op : keeps cursors_agree (draw_on d op).
Proof.
  intros s a s' H Hi. apply draw_on_ok in H. destruct H as [_ ->].
  unfold used_heights. destruct (image s); [|congruence].
  cbn. split; [discriminate | reflexivity].
Qed.

(** Over the walk of a subtree. *)
Lemma cursors_agree_handle_node textsize n :
  keeps cursors_agree (handle_node textsize n).
Proof.
  intros s a s' H.
  apply (under_handle_node textsize (config s) cursors_agree) in H;
    [ exact (proj2 (H eq_refl)) | .. ];
    auto using cursors_agree_print, cursors_agree_newline,
      cursors_agree_ensure_image, cursors_agree_draw_on;
    unfold cursors_agree, used_heights; field_setter.
Qed.

Lemma init_fresh h ws conf a s :
  init h ws conf = Ok a s ->
  h ws <> [] /\
  image s = None /\ images s = [] /\ y s = 0 /\ image_y s = 0 /\
  line_height s = 0 /\ config s = conf /\ links s = [] /\
  heap s = store_set h ws (sort_entries (h ws)) /\ width_spec s = ws.
Proof.
  unfold init. destruct (h ws) as [|e r] eqn:E; [discriminate|].
  remember (sort_entries (e :: r)) as sorted.
  intro H. split; [discriminate|].
  unfold apply_width_spec in H. exec.
  repeat match goal with
  | K : (if ?b then _ else _) _ = Ok _ _ |- _ => destruct b; exec
  end; cbn; auto 12.
Qed.

Lemma get_image_run s f s' im :
  image s = Some im ->
  get_image s = Ok f s' ->
  final_height f = used_heights s + image_y s /\ y s' = y s /\
  final_width f = image_width s /\
  final_pastes f = paste_all (images s') 0 /\
  images s' = images s ++ [(im, image_y s)].
Proof.
  intros Him H. unfold get_image, save_image_block in H. exec.
  rewrite Him in *. exec.
  match goal with K : (if ?b then _ else _) _ = _ |- _ =>
    destruct b; exec
  end.
  cbn.
  unfold sum_heights, used_heights. rewrite sum_heights_from, used_heights_app.
  cbn. repeat split; lia.
Qed.

Lemma new_image_block_first s a s' :
  image s = None ->
  new_image_block s = Ok a s' ->
  s' = set_image_y 0 (set_image_draw (Some (Some Surface))
         (set_image (Some (blank (image_width s) IMAGE_BLOCK_HEIGHT)) s)).
Proof.
  intros Him H. unfold new_image_block, save_image_block in H. exec.
  rewrite Him in *. exec. reflexivity.
Qed.

Lemma Image_new_valid w h s :
  0 <= w <= INT_MAX -> 0 <= h <= INT_MAX -> Image_new w h s = Ok (blank w h) s.
Proof.
  intros Hw Hh. unfold Image_new.
  destruct (Z.ltb_spec w 0); [lia|]. destruct (Z.ltb_spec h 0); [lia|].
  destruct (Z.ltb_spec INT_MAX w); [lia|].
  destruct (Z.ltb_spec INT_MAX h); [lia|]. reflexivity.
Qed.

(** The first chunk, of a width that [Image.new] accepts. *)
Lemma new_image_block_fresh s :
  image s = None -> 0 <= image_width s <= INT_MAX ->
  new_image_block s =
  Ok tt (set_image_y 0 (set_image_draw (Some (Some Surface))
           (set_image (Some (blank (image_width s) IMAGE_BLOCK_HEIGHT)) s))).
Proof.
  intros Him Hw. unfold new_image_block, save_image_block.
  unfold bind at 1 2. unfold get. cbv beta iota. rewrite Him.
  unfold ret at 1. cbv beta iota. unfold bind at 1, gets. cbv beta iota.
  unfold bind at 1. rewrite Image_new_valid;
    [reflexivity | exact Hw | unfold IMAGE_BLOCK_HEIGHT, INT_MAX; simpl; lia].
Qed.

(** X2.  With a chunk open, the walk of a subtree moves the logical cursor
    [y] by as much as the used heights of the chunks and the cursor of the
    open chunk taken together; the height of the final image is therefore the
    logical cursor at the end of the walk. *)
Theorem final_height_is_logical_cursor (textsize : string -> font -> Z * Z) :
  (forall n s s',
     image s <> None ->
     handle_node textsize n s = Ok tt s' ->
     y s' - y s
       = (used_heights s' + image_y s') - (used_heights s + image_y s)) /\
  (forall h ws conf root f s,
     render textsize h ws conf root = Ok f s -> final_height f = y s).
Proof.
  split.
  - intros n s s' Hi H. apply cursors_agree_handle_node in H.
    destruct (H Hi) as [_ E]. lia.
  - intros h ws conf root f s H. unfold render in H.
    destruct (init h ws conf) as [[] s0|] eqn:E0; [|discriminate].
    apply init_fresh in E0.
    destruct E0 as (_ & Ei & Eis & Ey & Eiy & _).
    unfold run in H. exec.
    match goal with K : new_image_block _ = _ |- _ =>
      apply (new_image_block_first _ _ _ Ei) in K; subst
    end.
    match goal with K : handle_node _ _ _ = Ok ?u _ |- _ =>
      destruct u; apply cursors_agree_handle_node in K;
      destruct K as [Hs E]; [discriminate|]
    end.
    unfold used_heights in E. cbn in E. rewrite Eis, Ey in E. cbn in E.
    match goal with K : get_image ?s1 = _ |- _ =>
      destruct (image s1) as [im|] eqn:Eim; [|congruence];
      apply (get_image_run _ _ _ _ Eim) in K;
      destruct K as (Ef & Ey' & _)
    end.
    unfold used_heights in Ef. lia.
Qed.

Lemma final_height_is_logical_cursor_witness :
  (let s := ready [(0, 0, 200)] in
   let s' := state_of (handle_node mono_textsize (leaf "p" "Hello world") s) in
   y s' - y s
     = (used_heights s' + image_y s') - (used_heights s + image_y s)) /\
  (exists f s,
     render mono_textsize (store_of [(0, 0, 200)]) 0%nat default_config
       (leaf "p" "Hello world") = Ok f s /\
     final_height f = y s).
Proof.
  split.
  - intros s s'.
    apply (proj1 (final_height_is_logical_cursor mono_textsize)
             (leaf "p" "Hello world") s s').
    + vm_compute. discriminate.
    + vm_compute. reflexivity.
  - eexists. eexists. split; [vm_compute; reflexivity|].
    apply (proj2 (final_height_is_logical_cursor mono_textsize)
             (store_of [(0, 0, 200)]) 0%nat default_config
             (leaf "p" "Hello world")).
    vm_compute. reflexivity.
Defined.

(** ** The cursors never move up *)

Section Down.

Variable c : config_t.
Hypothesis margin_ok : -1 <= margin_bottom c.
Hypothesis item_margin_ok : -1 <= list_item_margin_bottom c.

#[local] Instance moves_down_preorder : PreOrder moves_down.
Proof.
  split.
  - intros s H1 H2. repeat split; auto; lia.
  - intros s1 s2 s3 H12 H23 Hl Hi. destruct (H12 Hl Hi) as (Hl2 & Hi2 & Y2).
    destruct (H23 Hl2 Hi2) as (Hl3 & Hi3 & Y3). repeat split; auto; lia.
Qed.

Lemma moves_down_print line : keeps moves_down (print line).
Proof.
  intros s a s' H. unfold print in H. exec. unfold moves_down. field_setter.
Qed.

Lemma moves_down_newline h :
  h = -1 \/ h = margin_bottom c \/ h = list_item_margin_bottom c ->
  keeps moves_down (newline h).
Proof.
  intros Hh s a s' H. unfold newline in H. exec.
  unfold moves_down. unfold_setters. cbn. intros Hl Hi.
  destruct (Z.eqb_spec h (-1)); lia.
Qed.

Lemma moves_down_ensure_image h : keeps moves_down (ensure_image h).
Proof.
  intros s d s' H Hl Hi. unfold ensure_image in H. exec.
  match goal with K1 : apply_width_spec _ _ = _ |- _ =>
    pose proof (apply_width_spec_cursor _ _ _ _ K1) as (_ & Ey & _ & Eiy & _);
    assert (El : line_height x0 = line_height s)
      by (unfold apply_width_spec in K1; exec;
          repeat match goal with
          | K : (if ?b then _ else _) _ = Ok _ _ |- _ => destruct b; exec
          end; reflexivity)
  end.
  destruct (_ >? _).
  - destruct (_ =? _).
    + unfold print in *. exec. cbn. lia.
    + unfold new_image_block, save_image_block in *. exec.
      match goal with K : match image ?s with _ => _ end _ = _ |- _ =>
        destruct (image s); exec
      end; cbn; lia.
  - exec. lia.
Qed.

Lemma moves_down_draw_on d op : keeps moves_down (draw_on d op).
Proof.
  intros s a s' H Hl Hi. apply draw_on_ok in H. destruct H as [_ ->].
  destruct (image s); cbn; lia.
Qed.

Lemma moves_down_handle_node textsize n :
  keeps (under c moves_down) (handle_node textsize n).
Proof.
  apply under_handle_node;
    auto using moves_down_print, moves_down_newline,
      moves_down_ensure_image, moves_down_draw_on;
    try exact _; unfold moves_down; field_setter.
Qed.

End Down.

(** X3.  When the two margins of the configuration are [-1] at least and the
    walk of a subtree begins with a line height and a chunk cursor that are
    not negative, it never moves the logical cursor up, and it ends with a
    line height and a chunk cursor that are not negative. *)
Theorem cursor_never_moves_up (textsize : string -> font -> Z * Z) n s s' :
  -1 <= margin_bottom (config s) ->
  -1 <= list_item_margin_bottom (config s) ->
  0 <= line_height s -> 0 <= image_y s ->
  handle_node textsize n s = Ok tt s' ->
  y s <= y s' /\ 0 <= image_y s' /\ 0 <= line_height s'.
Proof.
  intros Hm Hi Hl Hy H.
  apply (moves_down_handle_node (config s) Hm Hi) in H.
  destruct (H eq_refl) as [_ D]. destruct (D Hl Hy) as (? & ? & ?). auto.
Qed.

Lemma cursor_never_moves_up_witness :
  let s := ready [(0, 0, 200)] in
  let n := branch "div" [leaf "p" "Hello world"; hr_node] in
  let s' := state_of (handle_node mono_textsize n s) in
  y s <= y s' /\ 0 <= image_y s' /\ 0 <= line_height s'.
Proof.
  intros s n s'. apply (cursor_never_moves_up mono_textsize n s s').
  - vm_compute. discriminate.
  - vm_compute. discriminate.
  - vm_compute. discriminate.
  - vm_compute. discriminate.
  - vm_compute. reflexivity.
Defined.

(** ** The column in force *)

#[local] Instance column_kept_preorder : PreOrder column_kept.
Proof.
  split.
  - intros s. split; [|split]; auto.
  - intros s1 s2 s3 (Eh & Es & H12) (Eh' & Es' & H23).
    split; [|split]; [congruence | congruence | auto].
Qed.

(** The fields that [column_set] reads are as they were. *)
Lemma column_kept_same s s' :
  heap s' = heap s -> width_spec s' = width_spec s ->
  width_spec_index s' = width_spec_index s ->
  start_x s' = start_x s -> end_x s' = end_x s ->
  column_kept s s'.
Proof.
  intros Eh Es Ei Ex Ee. split; [|split]; auto.
  unfold column_set. rewrite Eh, Es, Ei, Ex, Ee. auto.
Qed.

Lemma py_index_nth {A} (l : list A) i a :
  0 <= i -> py_index l i = Some a -> nth_error l (Z.to_nat i) = Some a.
Proof.
  intros Hi. unfold py_index. destruct (Z.ltb_spec i 0); [lia | auto].
Qed.

Lemma column_kept_apply_width_spec h : keeps column_kept (apply_width_spec h).
Proof.
  intros s a s' H. unfold apply_width_spec in H. exec.
  destruct (Z.ltb_spec (width_spec_index s + 1)
              (Z.of_nat (length (heap s (width_spec s))))) as [Hlt|];
    exec; [|reflexivity].
  destruct (_ <=? _); exec; [|reflexivity].
  split; [|split]; try reflexivity.
  intros [Hr _]. unfold column_set. cbn. split; [lia|]. intros _.
  match goal with K : py_index _ _ = Some ?e |- _ =>
    exists e; apply py_index_nth in K; [auto | lia]
  end.
Qed.

Lemma column_kept_print line : keeps column_kept (print line).
Proof.
  intros s a s' H. unfold print in H. exec.
  apply column_kept_same; reflexivity.
Qed.

Lemma column_kept_newline h : keeps column_kept (newline h).
Proof.
  intros s a s' H. unfold newline in H. exec.
  apply column_kept_same; reflexivity.
Qed.

Lemma column_kept_new_image_block : keeps column_kept new_image_block.
Proof.
  intros s a s' H. unfold new_image_block, save_image_block in H. exec.
  match goal with K : match image ?s with _ => _ end _ = _ |- _ =>
    destruct (image s); exec
  end; apply column_kept_same; reflexivity.
Qed.

Lemma column_kept_ensure_image h : keeps column_kept (ensure_image h).
Proof.
  pose proof column_kept_apply_width_spec. pose proof column_kept_print.
  pose proof column_kept_new_image_block.
  unfold ensure_image.
  repeat match goal with
  | |- keeps _ (bind _ _) => apply keeps_bind; [ exact _ | | intro ]
  | |- keeps _ (if ?b then _ else _) => destruct b
  | |- keeps _ (ret _) => apply keeps_ret; exact _
  | |- keeps _ get => apply keeps_get; exact _
  | |- keeps _ (get_attr _) => apply keeps_get_attr; exact _
  | |- keeps _ _ => solve [auto]
  end.
Qed.

Lemma column_kept_draw_on d op : keeps column_kept (draw_on d op).
Proof.
  intros s a s' H. apply draw_on_ok in H. destruct H as [_ ->].
  destruct (image s); apply column_kept_same; reflexivity.
Qed.

Lemma column_kept_handle_node textsize n :
  keeps column_kept (handle_node textsize n).
Proof.
  intros s a s' H.
  apply (under_handle_node textsize (config s) column_kept) in H;
    [ exact (proj2 (H eq_refl)) | .. ];
    auto using column_kept_print, column_kept_newline,
      column_kept_ensure_image, column_kept_draw_on;
    intros; apply column_kept_same; reflexivity.
Qed.

Lemma sort_entries_length l : length (sort_entries l) = length l.
Proof.
  symmetry. apply Permutation_length. apply sort_entries_perm.
Qed.

Lemma init_column_set h ws conf a s : init h ws conf = Ok a s -> column_set s.
Proof.
  unfold init. destruct (h ws) as [|e r] eqn:E; [discriminate|].
  pose proof (sort_entries_length (e :: r)) as Hlen.
  remember (sort_entries (e :: r)) as sorted.
  intro H.
  match type of H with apply_width_spec _ ?s0 = _ =>
    assert (H0 : column_set s0)
  end.
  { unfold column_set. cbn. rewrite store_set_same. rewrite Hlen. simpl length.
    split; lia. }
  apply column_kept_apply_width_spec in H. destruct H as (_ & _ & K). auto.
Qed.

(** A call moves the index by one entry at most. *)
Lemma ensure_image_one_entry h s d s' :
  ensure_image h s = Ok d s' ->
  width_spec_index s' = width_spec_index s \/
  width_spec_index s' = width_spec_index s + 1.
Proof.
  unfold ensure_image. intro H. exec.
  match goal with K : apply_width_spec _ _ = _ |- _ =>
    assert (E1 : width_spec_index x0 = width_spec_index s \/
                 width_spec_index x0 = width_spec_index s + 1)
      by (unfold apply_width_spec in K; exec;
          repeat match goal with
          | K' : (if ?b then _ else _) _ = Ok _ _ |- _ => destruct b; exec
          end; cbn; auto)
  end.
  assert (E2 : width_spec_index s' = width_spec_index x0); [|rewrite E2; exact E1].
  destruct (_ >? _).
  - destruct (_ =? _).
    + unfold print in *. exec. reflexivity.
    + unfold new_image_block, save_image_block in *. exec.
      match goal with K : match image ?s with _ => _ end _ = _ |- _ =>
        destruct (image s); exec
      end; reflexivity.
  - exec. reflexivity.
Qed.

(** X4.  The index into the width specification is [-1] or that of one of
    its entries, and then [start_x] and [end_x] are the edges of that entry:
    construction establishes this and the walk of a subtree keeps it, leaving
    the specification itself as it is.  One call of [ensure_image] moves the
    index by one entry at most. *)
Theorem column_is_an_entry_of_the_specification
  (textsize : string -> font -> Z * Z) :
  (forall h ws conf s, init h ws conf = Ok tt s -> column_set s) /\
  (forall n s s',
     column_set s -> handle_node textsize n s = Ok tt s' ->
     column_set s' /\ heap s' = heap s /\ width_spec s' = width_spec s) /\
  (forall h s d s',
     ensure_image h s = Ok d s' ->
     width_spec_index s' = width_spec_index s \/
     width_spec_index s' = width_spec_index s + 1).
Proof.
  split; [|split].
  - intros h ws conf s. apply init_column_set.
  - intros n s s' Hc H. apply column_kept_handle_node in H.
    destruct H as (Eh & Es & K). auto.
  - exact ensure_image_one_entry.
Qed.

Lemma column_is_an_entry_of_the_specification_witness :
  (let s := state_of (init (store_of [(500, 40, 100); (0, 0, 200)]) 0%nat
                        default_config) in
   column_set s) /\
  (let s := ready [(500, 40, 100); (0, 0, 200)] in
   let s' := state_of (handle_node mono_textsize (leaf "p" "Hello world") s) in
   column_set s' /\ heap s' = heap s /\ width_spec s' = width_spec s) /\
  (let s := ready [(0, 0, 200); (5, 40, 100); (10, 0, 50)] in
   let s' := state_of (ensure_image 12 s) in
   width_spec_index s' = width_spec_index s \/
   width_spec_index s' = width_spec_index s + 1).
Proof.
  split; [|split].
  - intro s.
    apply (proj1 (column_is_an_entry_of_the_specification mono_textsize)
             (store_of [(500, 40, 100); (0, 0, 200)]) 0%nat default_config s).
    vm_compute. reflexivity.
  - intros s s'.
    apply (proj1 (proj2 (column_is_an_entry_of_the_specification mono_textsize))
             (leaf "p" "Hello world") s s').
    + split.
      * vm_compute. split; [discriminate | reflexivity].
      * intros _. exists (0, 0, 200). vm_compute. auto.
    + vm_compute. reflexivity.
  - intros s s'.
    apply (proj2 (proj2 (column_is_an_entry_of_the_specification mono_textsize))
             12 s (Some Surface) s').
    vm_compute. reflexivity.
Defined.

(** ** The chunks *)

#[local] Instance chunks_kept_preorder : PreOrder chunks_kept.
Proof.
  split.
  - intros s. split; auto.
  - intros s1 s2 s3 [E12 H12] [E23 H23]. split; [congruence | auto].
Qed.

(** The fields that [chunks_sized] reads are as they were. *)
Lemma chunks_kept_same s s' :
  image_width s' = image_width s -> images s' = images s ->
  image s' = image s -> chunks_kept s s'.
Proof.
  intros Ew Es Ei. split; [exact Ew|].
  unfold chunks_sized. rewrite Ew, Es, Ei. auto.
Qed.

Lemma chunks_kept_print line : keeps chunks_kept (print line).
Proof.
  intros s a s' H. unfold print in H. exec.
  apply chunks_kept_same; reflexivity.
Qed.

Lemma chunks_kept_newline h : keeps chunks_kept (newline h).
Proof.
  intros s a s' H. unfold newline in H. exec.
  apply chunks_kept_same; reflexivity.
Qed.

Lemma chunks_kept_apply_width_spec h : keeps chunks_kept (apply_width_spec h).
Proof.
  intros s a s' H.
  pose proof (framed_apply_width_spec _ _ _ _ H) as F.
  apply apply_width_spec_cursor in H. destruct H as (_ & _ & Ei & _ & _ & Es).
  apply chunks_kept_same; [apply F | exact Es | exact Ei].
Qed.

Lemma chunks_kept_new_image_block : keeps chunks_kept new_image_block.
Proof.
  intros s a s' H. unfold new_image_block, save_image_block in H. exec.
  destruct (image s) as [im|] eqn:Eim; exec; (split; [reflexivity|]);
    intros [Hs Hi]; split; cbn.
  - apply Forall_app. split; [exact Hs|]. constructor; [|constructor].
    apply Hi. exact Eim.
  - intros im' E. inversion E. split; reflexivity.
  - exact Hs.
  - intros im' E. inversion E. split; reflexivity.
Qed.

Lemma chunks_kept_ensure_image h : keeps chunks_kept (ensure_image h).
Proof.
  pose proof chunks_kept_apply_width_spec. pose proof chunks_kept_print.
  pose proof chunks_kept_new_image_block.
  unfold ensure_image.
  repeat match goal with
  | |- keeps _ (bind _ _) => apply keeps_bind; [ exact _ | | intro ]
  | |- keeps _ (if ?b then _ else _) => destruct b
  | |- keeps _ (ret _) => apply keeps_ret; exact _
  | |- keeps _ get => apply keeps_get; exact _
  | |- keeps _ (get_attr _) => apply keeps_get_attr; exact _
  | |- keeps _ _ => solve [auto]
  end.
Qed.

Lemma chunks_kept_draw_on d op : keeps chunks_kept (draw_on d op).
Proof.
  intros s a s' H. apply draw_on_ok in H. destruct H as [_ ->].
  destruct (image s) as [im|] eqn:Eim; [|reflexivity].
  split; [reflexivity|]. intros [Hs Hi]. split; cbn; [exact Hs|].
  intros im' E. inversion E. apply (Hi im). exact Eim.
Qed.

Lemma chunks_kept_handle_node textsize n :
  keeps chunks_kept (handle_node textsize n).
Proof.
  intros s a s' H.
  apply (under_handle_node textsize (config s) chunks_kept) in H;
    [ exact (proj2 (H eq_refl)) | .. ];
    auto using chunks_kept_print, chunks_kept_newline,
      chunks_kept_ensure_image, chunks_kept_draw_on;
    intros; apply chunks_kept_same; reflexivity.
Qed.

Lemma paste_all_sized w l :
  forall y0,
    Forall (fun c => sized w (fst c)) l ->
    Forall (fun p => sized w (fst p)) (paste_all l y0).
Proof.
  induction l as [|c r IH]; intros y0 H; simpl; [constructor|].
  inversion H; subst. constructor; [assumption | apply IH; assumption].
Qed.

Lemma paste_all_length l : forall y0, length (paste_all l y0) = length l.
Proof.
  induction l as [|c r IH]; intro y0; simpl; [reflexivity | rewrite IH; reflexivity].
Qed.

Lemma paste_all_chunks l : forall y0, map fst (paste_all l y0) = map fst l.
Proof.
  induction l as [|c r IH]; intro y0; simpl; [reflexivity | rewrite IH; reflexivity].
Qed.

(** X5.  Every chunk pasted into the final image is as wide as the final
    image and [IMAGE_BLOCK_HEIGHT] high; the images pasted are the chunks
    saved, each of them once and in their order, and there is one at
    least. *)
Theorem chunks_have_one_size (textsize : string -> font -> Z * Z)
  h ws conf root f s :
  render textsize h ws conf root = Ok f s ->
  Forall (fun p => sized (final_width f) (fst p)) (final_pastes f) /\
  map fst (final_pastes f) = map fst (images s) /\
  (1 <= length (final_pastes f))%nat.
Proof.
  intro H. unfold render in H.
  destruct (init h ws conf) as [[] s0|] eqn:E0; [|discriminate].
  apply init_fresh in E0. destruct E0 as (_ & Ei & Eis & _).
  unfold run in H. exec.
  match goal with K : new_image_block ?s = Ok _ ?s1 |- _ =>
    assert (Hr : chunks_sized s1 /\ image s1 <> None)
  end.
  { match goal with K : new_image_block _ = _ |- _ =>
      apply (new_image_block_first _ _ _ Ei) in K; subst
    end.
    split; [|discriminate]. split; cbn.
    - rewrite Eis. constructor.
    - intros im E. inversion E. split; reflexivity. }
  destruct Hr as [Hr Hn].
  match goal with K : handle_node _ _ _ = Ok ?u _ |- _ =>
    destruct u;
    pose proof (cursors_agree_handle_node _ _ _ _ _ K Hn) as [Hn2 _];
    apply chunks_kept_handle_node in K; destruct K as [Ew K];
    specialize (K Hr); destruct K as [Hs Hi]
  end.
  match goal with K : get_image ?s1 = _ |- _ =>
    destruct (image s1) as [im|] eqn:Eim; [|congruence];
    apply (get_image_run _ _ _ _ Eim) in K;
    destruct K as (_ & _ & Efw & Efp & Eimgs)
  end.
  rewrite Efp, Efw, Eimgs.
  split; [|split].
  - apply paste_all_sized. apply Forall_app. split; [exact Hs|].
    constructor; [|constructor]. apply Hi. reflexivity.
  - apply paste_all_chunks.
  - rewrite paste_all_length, length_app. simpl. lia.
Qed.

Lemma chunks_have_one_size_witness :
  exists f s,
    render mono_textsize (store_of [(0, 0, 200)]) 0%nat default_config
      (branch "div" (repeat (leaf "p" "x") 70)) = Ok f s /\
    length (images s) = 2%nat /\
    Forall (fun p => sized (final_width f) (fst p)) (final_pastes f) /\
    map fst (final_pastes f) = map fst (images s) /\
    (1 <= length (final_pastes f))%nat.
Proof.
  eexists. eexists. split; [vm_compute; reflexivity|].
  split; [reflexivity|].
  apply (chunks_have_one_size mono_textsize (store_of [(0, 0, 200)]) 0%nat
           default_config (branch "div" (repeat (leaf "p" "x") 70))).
  vm_compute. reflexivity.
Defined.

(** ** What a text run draws *)

Lemma drawn_same s s' :
  image s' = image s -> images s' = images s -> drawn s' = drawn s.
Proof. intros Ei Es. unfold drawn. rewrite Ei, Es. reflexivity. Qed.

Lemma ensure_image_drawn h s d s' :
  ensure_image h s = Ok d s' -> drawn s' = drawn s.
Proof.
  unfold ensure_image. intro H. exec.
  match goal with K : apply_width_spec _ _ = _ |- _ =>
    apply apply_width_spec_cursor in K;
    destruct K as (_ & _ & Ei & _ & _ & Eis)
  end.
  rewrite <- (drawn_same _ _ Ei Eis).
  destruct (_ >? _).
  - destruct (_ =? _).
    + unfold print in *. exec. apply drawn_same; reflexivity.
    + unfold new_image_block, save_image_block in *. exec.
      match goal with K : match image ?s with _ => _ end _ = _ |- _ =>
        destruct (image s) eqn:Eim; exec
      end; [|congruence].
      unfold drawn. cbn. rewrite Eim, flat_map_app. cbn.
      rewrite !app_nil_r. reflexivity.
  - exec. reflexivity.
Qed.

Lemma newline_drawn h s a s' : newline h s = Ok a s' -> drawn s' = drawn s.
Proof.
  unfold newline. intro H. exec. apply drawn_same; reflexivity.
Qed.

Lemma draw_on_drawn d op s a s' im :
  image s = Some im -> draw_on d op s = Ok a s' -> drawn s' = drawn s ++ [op].
Proof.
  intros Ei H. apply draw_on_ok in H. destruct H as [_ ->].
  unfold drawn. rewrite Ei. cbn. rewrite app_assoc. reflexivity.
Qed.

Section Drawn.

Variable textsize : string -> font -> Z * Z.

(** One turn of the wrapping loop draws its fragment and nothing else. *)
Lemma wrap_pass_drawn parts fill end_block f draw start s e b d' s' :
  wrap_pass textsize parts fill end_block f draw start s = Ok (e, b, d') s' ->
  exists x y0,
    drawn s' =
    drawn s ++ [DText x y0 (Text.join " " (Text.slice parts start e)) f fill].
Proof.
  intro H. unfold wrap_pass in H. exec.
  try match goal with K : need_surface _ _ = _ |- _ =>
    unfold need_surface in K; destruct draw as [[]|]; exec
  end.
  match goal with K : ensure_image _ _ = _ |- _ =>
    pose proof (ensure_image_drawn _ _ _ _ K) as Ed;
    apply ensure_image_cursor in K; destruct K as (_ & _ & im & Ei)
  end.
  match goal with K : draw_on _ _ _ = _ |- _ =>
    apply (draw_on_drawn _ _ _ _ _ im) in K; [rename K into Eo | exact Ei]
  end.
  match goal with K : (e, b, d') = _ |- _ => inversion K; clear K end.
  match goal with
  | K : (if ?c then _ else _) ?sd = Ok _ ?sf |- _ =>
      assert (Ef : drawn sf = drawn sd);
      [ destruct c;
        [ apply newline_drawn in K; exact K
        | destruct end_block;
          [ apply newline_drawn in K; exact K
          | exec; apply drawn_same; reflexivity ] ] | ]
  end.
  eexists _, _. rewrite Ef, Eo.
  match goal with |- drawn (set_line_height ?v ?s0) ++ _ = _ =>
    change (drawn (set_line_height v s0)) with (drawn s0)
  end.
  rewrite Ed. reflexivity.
Qed.

Lemma string_app_assoc (a b c : string) :
  ((a ++ b) ++ c = a ++ b ++ c)%string.
Proof. induction a as [|x r IH]; simpl; [reflexivity | rewrite IH; reflexivity]. Qed.

Lemma join_app sep a b :
  a <> [] -> b <> [] ->
  Text.join sep (a ++ b) = (Text.join sep a ++ sep ++ Text.join sep b)%string.
Proof.
  intros Ha Hb. induction a as [|w r IH]; [congruence|].
  destruct r as [|w' r].
  - simpl app. apply join_cons. exact Hb.
  - change ((w :: w' :: r) ++ b) with (w :: (w' :: r) ++ b).
    rewrite !join_cons by discriminate. rewrite IH by discriminate.
    rewrite !string_app_assoc. reflexivity.
Qed.

Lemma slice_skipn {A} (l : list A) i e :
  (i <= e <= length l)%nat ->
  skipn i l = Text.slice l i e ++ skipn e l.
Proof.
  intros H. unfold Text.slice.
  rewrite <- (firstn_skipn (e - i) (skipn i l)) at 1.
  rewrite skipn_skipn. do 2 f_equal. lia.
Qed.

Lemma slice_nonempty {A} (l : list A) i e :
  (i < e <= length l)%nat -> Text.slice l i e <> [].
Proof.
  intros H E. apply (f_equal (@length A)) in E. unfold Text.slice in E.
  rewrite length_firstn, length_skipn in E. simpl in E. lia.
Qed.

Lemma skipn_nonempty {A} (l : list A) i :
  (i < length l)%nat -> skipn i l <> [].
Proof.
  intros H E. apply (f_equal (@length A)) in E.
  rewrite length_skipn in E. simpl in E. lia.
Qed.

(** The turns of the loop draw, fragment after fragment, the words from the
    one they begin with to the last. *)
Lemma wrapped_drawn parts fill end_block f draw i s bs s' :
  wrapped textsize parts fill end_block f draw i s bs s' ->
  exists ops,
    drawn s' = drawn s ++ ops /\
    length ops = length bs /\
    Forall (text_in f fill) ops /\
    (length ops <= length parts - i)%nat /\
    ((i < length parts)%nat ->
     ops <> [] /\
     Text.join " " (map op_text ops) = Text.join " " (skipn i parts)).
Proof.
  induction 1 as [draw i s Hge | draw i s e b draw' s1 blocks s' Hlt Hp Ht _ IH].
  - exists []. rewrite app_nil_r. repeat split; auto; simpl; lia.
  - destruct IH as (ops & Ed & El & Ef & Hn & Hj).
    destruct (wrap_pass_drawn _ _ _ _ _ _ _ _ _ _ _ Hp) as (x & y0 & E1).
    destruct Ht as (_ & _ & _ & _ & _ & _ & He & _).
    set (frag := Text.join " " (Text.slice parts i e)) in *.
    exists (DText x y0 frag f fill :: ops).
    split; [rewrite Ed, E1, <- app_assoc; reflexivity|].
    split; [simpl; congruence|].
    split; [constructor; [eexists _, _, _; reflexivity | exact Ef]|].
    split; [simpl; lia|].
    intros _. split; [discriminate|].
    rewrite (slice_skipn parts i e) by lia.
    destruct (Nat.ltb_spec e (length parts)) as [Hlt'|Hge'].
    + destruct (Hj Hlt') as [Hne Hjoin].
      simpl map. rewrite join_cons by (destruct ops; [congruence | discriminate]).
      rewrite Hjoin. rewrite join_app; [reflexivity | |].
      * apply slice_nonempty. lia.
      * apply skipn_nonempty. exact Hlt'.
    + assert (ops = []) as -> by (destruct ops; [reflexivity | simpl in Hn; lia]).
      rewrite skipn_all2 by lia. rewrite app_nil_r. reflexivity.
Qed.

(** X6.  Outside preformatted text, [render_text] draws the whole text and
    nothing else: it issues one text call per box returned, all in the font
    and colour asked for, and the fragments drawn, joined by single blanks,
    are the text with its white space compacted.  There is one fragment at
    least and one per word at most. *)
Theorem wrapped_text_is_drawn_whole text fill end_block font s blocks s' :
  in_pre s = false ->
  render_text textsize (Some text) fill end_block font s = Ok blocks s' ->
  exists bs ops,
    blocks = Some bs /\
    drawn s' = drawn s ++ ops /\
    length ops = length bs /\
    Forall (text_in (match font with Some f => f | None => default_font end)
              fill) ops /\
    Text.join " " (map op_text ops) = compact_whitespace text /\
    (1 <= length ops
       <= length (Text.split " " (compact_whitespace text)))%nat.
Proof.
  intros Hpre H. unfold render_text in H. exec. rewrite Hpre in *. exec.
  match goal with K : wrap_loop _ _ _ _ _ _ _ _ _ _ = Ok _ _ |- _ =>
    apply wrap_loop_wrapped in K; [destruct K as (bs & -> & W) | lia]
  end.
  apply wrapped_drawn in W. destruct W as (ops & Ed & El & Ef & Hn & Hj).
  pose proof (split_nonempty " " (compact_whitespace text)) as Hs.
  assert (Hlt : (0 < length (Text.split " " (compact_whitespace text)))%nat)
    by (destruct (Text.split " " (compact_whitespace text));
        [congruence | simpl; lia]).
  destruct (Hj Hlt) as [Hne Hjoin].
  exists bs, ops. simpl skipn in Hjoin.
  change " "%string with (String " "%char EmptyString) in Hjoin at 2.
  rewrite join_split in Hjoin.
  repeat split; auto; try lia.
  destruct ops; [congruence | simpl; lia].
Qed.

(** One line of preformatted text: one drawing call and one box. *)
Lemma render_line_run fill f blocks line s blocks' s' :
  render_line textsize fill f blocks line s = Ok blocks' s' ->
  exists x y0 bx b_y,
    drawn s' = drawn s ++ [DText x y0 line f fill] /\
    blocks' =
    blocks ++ [(bx, b_y, fst (textsize line f), snd (textsize line f))].
Proof.
  intro H. unfold render_line in H. exec.
  match goal with K : measure _ _ _ _ _ = _ |- _ =>
    unfold measure in K;
    match type of K with match ?d with _ => _ end _ = _ =>
      destruct d as [[]|]; exec
    end
  end.
  match goal with K : ensure_image _ _ = _ |- _ =>
    pose proof (ensure_image_drawn _ _ _ _ K) as Ed;
    apply ensure_image_cursor in K; destruct K as (_ & _ & im & Ei)
  end.
  match goal with K : draw_on _ _ _ = _ |- _ =>
    apply (draw_on_drawn _ _ _ _ _ im) in K; [rename K into Eo | exact Ei]
  end.
  match goal with K : newline _ _ = _ |- _ =>
    apply newline_drawn in K; rename K into En
  end.
  eexists _, _, _, _. split; [|reflexivity].
  rewrite En.
  match goal with |- drawn (set_line_height ?v ?s0) = _ =>
    change (drawn (set_line_height v s0)) with (drawn s0)
  end.
  rewrite Eo, Ed. reflexivity.
Qed.

Lemma render_lines_run fill f lines :
  forall blocks s blocks' s',
    render_lines textsize fill f lines blocks s = Ok blocks' s' ->
    exists bs ops,
      blocks' = blocks ++ bs /\
      drawn s' = drawn s ++ ops /\
      map op_text ops = lines /\
      Forall (text_in f fill) ops /\
      map (fun b : box => (snd (fst b), snd b)) bs
        = map (fun l => textsize l f) lines.
Proof.
  induction lines as [|line r IH]; intros blocks s blocks' s' H; simpl in H.
  - exec. exists [], []. rewrite !app_nil_r. repeat split; auto.
  - exec.
    match goal with K : render_line _ _ _ _ _ _ = _ |- _ =>
      apply render_line_run in K;
      destruct K as (px & py & bx & b_y & Ed1 & ->)
    end.
    apply IH in H. destruct H as (bs & ops & -> & Ed & Et & Ef & Eb).
    eexists (_ :: bs), (_ :: ops).
    split; [rewrite <- app_assoc; reflexivity|].
    split; [rewrite Ed, Ed1, <- app_assoc; reflexivity|].
    split; [simpl; rewrite Et; reflexivity|].
    split; [constructor; [eexists _, _, _; reflexivity | exact Ef]|].
    simpl. rewrite Eb. destruct (textsize line f). reflexivity.
Qed.

(** X7.  In preformatted text, [render_text] draws the lines of the text one
    by one, unchanged and in their order, in the font and colour asked for;
    the box of a line has the size measured for that line, and the lines drawn,
    joined by line breaks, are the text. *)
Theorem preformatted_text_is_drawn_line_by_line
  text fill end_block font s blocks s' :
  in_pre s = true ->
  render_text textsize (Some text) fill end_block font s = Ok blocks s' ->
  let f := match font with Some f => f | None => default_font end in
  exists bs ops,
    blocks = Some bs /\
    drawn s' = drawn s ++ ops /\
    map op_text ops = Text.split Text.newline_char text /\
    Forall (text_in f fill) ops /\
    map (fun b : box => (snd (fst b), snd b)) bs
      = map (fun l => textsize l f) (Text.split Text.newline_char text) /\
    Text.join (String Text.newline_char EmptyString) (map op_text ops) = text.
Proof.
  intros Hpre H f. unfold render_text in H. exec. rewrite Hpre in *. exec.
  match goal with K : render_lines _ _ _ _ _ _ = _ |- _ =>
    apply render_lines_run in K;
    destruct K as (bs & ops & -> & Ed & Et & Ef & Eb)
  end.
  exists bs, ops. rewrite Et, join_split. auto 10.
Qed.

End Drawn.

Lemma wrapped_text_is_drawn_whole_witness :
  let s := ready [(0, 0, 30)] in
  exists blocks s',
    render_text mono_textsize (Some "aaa  bbb cc") (cfg_color default_config)
      false None s = Ok blocks s' /\
    exists bs ops,
      blocks = Some bs /\
      drawn s' = drawn s ++ ops /\
      length ops = length bs /\
      Forall (text_in default_font (cfg_color default_config)) ops /\
      Text.join " " (map op_text ops) = compact_whitespace "aaa  bbb cc" /\
      (1 <= length ops
         <= length (Text.split " " (compact_whitespace "aaa  bbb cc")))%nat.
Proof.
  intro s. eexists. eexists. split; [vm_compute; reflexivity|].
  apply (wrapped_text_is_drawn_whole mono_textsize "aaa  bbb cc"
           (cfg_color default_config) false None s).
  - reflexivity.
  - vm_compute. reflexivity.
Defined.

Lemma preformatted_text_is_drawn_line_by_line_witness :
  let s := set_in_pre true (ready [(0, 0, 30)]) in
  let text := ("a  b" ++ String Text.newline_char "cc")%string in
  exists blocks s',
    render_text mono_textsize (Some text) (cfg_color default_config)
      false (Some code_font) s = Ok blocks s' /\
    exists bs ops,
      blocks = Some bs /\
      drawn s' = drawn s ++ ops /\
      map op_text ops = Text.split Text.newline_char text /\
      Forall (text_in code_font (cfg_color default_config)) ops /\
      map (fun b : box => (snd (fst b), snd b)) bs
        = map (fun l => mono_textsize l code_font)
            (Text.split Text.newline_char text) /\
      Text.join (String Text.newline_char EmptyString) (map op_text ops) = text.
Proof.
  intros s text. eexists. eexists. split; [vm_compute; reflexivity|].
  apply (preformatted_text_is_drawn_line_by_line mono_textsize text
           (cfg_color default_config) false (Some code_font) s).
  - reflexivity.
  - vm_compute. reflexivity.
Defined.

(** ** The link map *)

Section Links.

Variable textsize : string -> font -> Z * Z.

Lemma grows_by_bind {A B} (m : M A) (k : A -> M B) l1 l2 :
  keeps (grows_by l1) m -> (forall a, keeps (grows_by l2) (k a)) ->
  keeps (grows_by (l1 ++ l2)) (bind m k).
Proof.
  intros Hm Hk s b s' H. apply bind_ok in H. destruct H as (a & s1 & H1 & H2).
  apply Hm in H1. apply Hk in H2. unfold grows_by in *.
  rewrite H2, H1, app_assoc. reflexivity.
Qed.

Lemma grows_by_for_each {A} (body : A -> M unit) (targets : A -> list string) l :
  Forall (fun x => keeps (grows_by (targets x)) (body x)) l ->
  keeps (grows_by (flat_map targets l)) (for_each body l).
Proof.
  induction 1 as [|x r Hx _ IH]; simpl.
  - intros s a s' H. exec. unfold grows_by. rewrite app_nil_r. reflexivity.
  - apply grows_by_bind; [exact Hx | intros _; exact IH].
Qed.

(** Turns the runs of the context into what they say about the link map. *)
Ltac link_facts :=
  repeat match goal with
  | H : newline _ _ = Ok _ _ |- _ => apply framed_newline, fr_links in H
  | H : newline_unless_at_start _ = Ok _ _ |- _ =>
      apply framed_newline_unless_at_start, fr_links in H
  | H : print _ _ = Ok _ _ |- _ => apply framed_print, fr_links in H
  | H : ensure_image _ _ = Ok _ _ |- _ =>
      apply framed_ensure_image, fr_links in H
  | H : draw_on _ _ _ = Ok _ _ |- _ => apply framed_draw_on, fr_links in H
  | H : measure _ _ _ _ _ = Ok _ _ |- _ =>
      apply framed_measure, fr_links in H
  | H : render_text _ _ _ _ _ _ = Ok _ _ |- _ =>
      apply framed_render_text, fr_links in H
  | W : keeps (grows_by _) ?hc, H : ?hc _ = Ok _ _ |- _ => apply W in H
  end;
  unfold grows_by in *; unfold_setters; cbn in *.

Section Handlers.

Variable hc : M unit.
Variable n : node.
Variable l : list string.
Hypothesis grows_hc : keeps (grows_by l) hc.

Lemma grows_handle_a :
  keeps (grows_by match attrib_get "href" (node_attrib n) with
                  | Some href => href :: l
                  | None => l
                  end) (handle_a textsize hc n).
Proof.
  intros s a s' H. unfold handle_a in H.
  destruct (attrib_get "href" (node_attrib n)); exec; link_facts.
  - rewrite map_app in *. cbn in *.
    match goal with K : map fst (links _) = _ ++ l |- _ =>
      rewrite <- app_assoc in K; cbn in K
    end.
    congruence.
  - congruence.
Qed.

Lemma grows_handle_span f : keeps (grows_by l) (handle_span textsize f hc n).
Proof. intros s a s' H. unfold handle_span in H. exec. link_facts. congruence. Qed.

Lemma grows_handle_blockquote : keeps (grows_by l) (handle_blockquote hc n).
Proof.
  intros s a s' H. unfold handle_blockquote in H. exec. link_facts. congruence.
Qed.

Lemma grows_handle_div : keeps (grows_by l) (handle_div hc n).
Proof. intros s a s' H. unfold handle_div in H. exec. link_facts. congruence. Qed.

Lemma grows_handle_h : keeps (grows_by []) (handle_h textsize hc n).
Proof.
  intros s a s' H. unfold handle_h in H. exec. link_facts.
  rewrite app_nil_r. congruence.
Qed.

Lemma grows_handle_hr : keeps (grows_by []) (handle_hr hc n).
Proof.
  intros s a s' H. unfold handle_hr in H. exec. link_facts.
  rewrite app_nil_r. congruence.
Qed.

Lemma grows_handle_li : keeps (grows_by l) (handle_li textsize hc n).
Proof.
  intros s a s' H. unfold handle_li in H. exec.
  match goal with
  | K : match ?k with _ => _ end _ = _ |- _ =>
      destruct k; unfold draw_number in K; exec
  end; link_facts; congruence.
Qed.

Lemma grows_handle_ol : keeps (grows_by l) (handle_ol hc n).
Proof. intros s a s' H. unfold handle_ol in H. exec. link_facts. congruence. Qed.

Lemma grows_handle_p : keeps (grows_by l) (handle_p textsize hc n).
Proof. intros s a s' H. unfold handle_p in H. exec. link_facts. congruence. Qed.

Lemma grows_handle_pre : keeps (grows_by l) (handle_pre hc n).
Proof. intros s a s' H. unfold handle_pre in H. exec. link_facts. congruence. Qed.

Lemma grows_handle_ul : keeps (grows_by l) (handle_ul hc n).
Proof. intros s a s' H. unfold handle_ul in H. exec. link_facts. congruence. Qed.

Lemma grows_handle_unknown : keeps (grows_by l) (handle_unknown hc n).
Proof.
  intros s a s' H. unfold handle_unknown in H. exec. link_facts. congruence.
Qed.

End Handlers.

(** [handlers.get]: an entry under the key, or the default when there is
    none. *)
Lemma handlers_get_cases (P : handler -> Prop) tag table default :
  (forall h, In (tag, h) table -> P h) ->
  ((forall h, ~ In (tag, h) table) -> P default) ->
  P (handlers_get tag table default).
Proof.
  induction table as [|[k h] r IH]; simpl; intros Hin Hd.
  - apply Hd. intros h [].
  - destruct (String.eqb_spec k tag) as [->|Hk].
    + apply Hin. left. reflexivity.
    + apply IH.
      * intros h' Hi. apply Hin. right. exact Hi.
      * intro Hn. apply Hd. intros h' [E|Hi]; [congruence | exact (Hn h' Hi)].
Qed.

Lemma grows_handle_node n :
  keeps (grows_by (link_targets n)) (handle_node textsize n).
Proof.
  induction n as [tag text tail attrib children IH] using node_induction.
  assert (Hhc : keeps (grows_by (flat_map link_targets children))
                  (for_each (handle_node textsize) children))
    by (apply grows_by_for_each; exact IH).
  change (handle_node textsize (Node tag text tail attrib children))
    with (handlers_get tag (handlers textsize) handle_unknown
            (for_each (handle_node textsize) children)
            (Node tag text tail attrib children)).
  apply (handlers_get_cases
           (fun h => keeps (grows_by (link_targets (Node tag text tail attrib children)))
                       (h (for_each (handle_node textsize) children)
                          (Node tag text tail attrib children)))).
  - intros h Hin. unfold handlers in Hin. simpl in Hin.
    repeat (destruct Hin as [Hin|Hin];
            [inversion Hin; subst tag h; clear Hin|]);
      try contradiction; simpl link_targets;
      unfold handle_code, handle_em, handle_strong;
      first
        [ apply (grows_handle_a _ (Node "a" text tail attrib children));
          exact Hhc
        | auto using grows_handle_span, grows_handle_blockquote,
            grows_handle_div, grows_handle_h, grows_handle_hr, grows_handle_li,
            grows_handle_ol, grows_handle_p, grows_handle_pre, grows_handle_ul ].
  - intros Hn.
    assert (E : link_targets (Node tag text tail attrib children)
                = flat_map link_targets children).
    { simpl. unfold heading_font.
      repeat match goal with
      | |- context [String.eqb tag ?k] =>
          destruct (String.eqb_spec tag k) as [->|_];
          [exfalso; eapply Hn; unfold handlers; simpl; tauto|]
      end.
      reflexivity. }
    rewrite E. apply grows_handle_unknown. exact Hhc.
Qed.

(** X8.  The walk of a subtree appends to the link map one entry per anchor
    with an [href] that it comes to, in the order of the document, and nothing
    else; anchors below a heading or a rule get no entry. *)
Theorem links_follow_the_document n s s' :
  handle_node textsize n s = Ok tt s' ->
  map fst (links s') = map fst (links s) ++ link_targets n.
Proof. apply grows_handle_node. Qed.

End Links.

Lemma links_follow_the_document_witness :
  let n :=
    branch "p"
      [ Node "a" (Some "x") None [("href", "u1")]
          [Node "a" (Some "y") None [("href", "u2")] []];
        branch "h1" [Node "a" (Some "z") None [("href", "u3")] []];
        Node "a" (Some "no target") None [] [] ] in
  let s := ready [(0, 0, 200)] in
  let s' := state_of (handle_node mono_textsize n s) in
  map fst (links s') = map fst (links s) ++ link_targets n.
Proof.
  intros n s s'. apply (links_follow_the_document mono_textsize n s s').
  vm_compute. reflexivity.
Defined.

(** ** What construction gives *)

Lemma sort_entries_head l :
  l <> [] ->
  exists e0 rest,
    sort_entries l = e0 :: rest /\ In e0 l /\
    Forall (fun e => y_offset e0 <= y_offset e) l.
Proof.
  intro Hl. pose proof (sort_entries_sorted l) as Hs.
  pose proof (sort_entries_perm l) as Hp.
  destruct (sort_entries l) as [|e0 rest] eqn:E.
  - apply Permutation_sym, Permutation_nil in Hp. congruence.
  - exists e0, rest. split; [reflexivity|]. split.
    + apply (Permutation_in e0 (Permutation_sym Hp)). left. reflexivity.
    + apply StronglySorted_inv in Hs. destruct Hs as [_ Hall].
      apply Forall_forall. intros e He.
      apply (Permutation_in e Hp) in He. destruct He as [<-|He]; [lia|].
      rewrite Forall_forall in Hall. specialize (Hall e He).
      unfold entry_le in Hall. lia.
Qed.

Lemma init_outcome (h : store) (ws : loc) (conf : config_t) :
  match h ws with
  | [] => exists s, init h ws conf = Raise ValueError s
  | _ :: _ =>
      exists s e0 rest,
        init h ws conf = Ok tt s /\
        heap s ws = e0 :: rest /\
        Forall (fun e => y_offset e0 <= y_offset e) (h ws) /\
        Forall (fun e => width e <= image_width s) (h ws) /\
        if y_offset e0 <=? 0
        then width_spec_index s = 0 /\ start_x s = Some (x_offset e0) /\
             end_x s = Some (x_offset e0 + width e0)
        else width_spec_index s = -1 /\ start_x s = None /\ end_x s = None
  end.
Proof.
  destruct (h ws) as [|e r] eqn:E; [unfold init; rewrite E; eauto|].
  destruct (sort_entries_head (e :: r)) as (e0 & rest & Es & Hin & Hmin);
    [discriminate|].
  destruct (max_by_width_spec r e) as [_ Hw].
  unfold init. rewrite E, Es.
  unfold apply_width_spec, bind, get, index, py_index, modify, ret.
  cbn. rewrite store_set_same. cbn.
  destruct (y_offset e0 <=? 0) eqn:Ey; cbn; rewrite ?Ey; cbn.
  - eexists _, e0, rest. split; [reflexivity|]. cbn.
    rewrite store_set_same, Ey. auto 10.
  - eexists _, e0, rest. split; [reflexivity|]. cbn.
    rewrite store_set_same, Ey. auto 10.
Qed.

(** X9.  Construction raises [ValueError] on an empty width specification.
    Otherwise it returns with the specification sorted; its first entry has the
    least y-offset, no entry is wider than the image, and the first column is
    in force at once exactly when that least y-offset is not above zero,
    [start_x] and [end_x] being left unset when it is. *)
Theorem construction_needs_an_entry (h : store) (ws : loc) (conf : config_t) :
  match h ws with
  | [] => exists s, init h ws conf = Raise ValueError s
  | _ :: _ =>
      exists s e0 rest,
        init h ws conf = Ok tt s /\
        heap s ws = e0 :: rest /\
        Forall (fun e => y_offset e0 <= y_offset e) (h ws) /\
        Forall (fun e => width e <= image_width s) (h ws) /\
        if y_offset e0 <=? 0
        then width_spec_index s = 0 /\ start_x s = Some (x_offset e0) /\
             end_x s = Some (x_offset e0 + width e0)
        else width_spec_index s = -1 /\ start_x s = None /\ end_x s = None
  end.
Proof. exact (init_outcome h ws conf). Qed.

Lemma insert_entry_least e l :
  Forall (entry_le e) l -> insert_entry e l = e :: l.
Proof.
  intros H. destruct l as [|x r]; [reflexivity|]. simpl.
  inversion H; subst.
  match goal with K : entry_le e x |- _ => apply entry_leb_le in K; rewrite K end.
  reflexivity.
Qed.

Lemma sort_entries_sorted_fixed l :
  StronglySorted entry_le l -> sort_entries l = l.
Proof.
  induction 1 as [|e r Hs IH Hall]; simpl; [reflexivity|].
  rewrite IH. apply insert_entry_least. exact Hall.
Qed.

(** X10.  Constructing the renderer on a width specification that is sorted
    already leaves the caller's list, and every other list of the store, as it
    was. *)
Theorem sorted_specification_is_left_alone (h : store) (ws : loc)
  (conf : config_t) s :
  StronglySorted entry_le (h ws) ->
  init h ws conf = Ok tt s ->
  forall r, heap s r = h r.
Proof.
  intros Hs H r. apply init_fresh in H.
  destruct H as (_ & _ & _ & _ & _ & _ & _ & _ & Eh & _).
  rewrite Eh, (sort_entries_sorted_fixed _ Hs). unfold store_set.
  destruct (Nat.eqb_spec r ws) as [->|]; reflexivity.
Qed.

Lemma sorted_specification_is_left_alone_witness :
  let h := store_of [(0, 0, 200); (500, 40, 100)] in
  let s := state_of (init h 0%nat default_config) in
  heap s 0%nat = h 0%nat /\ heap s 1%nat = h 1%nat.
Proof.
  intros h s.
  split; apply (sorted_specification_is_left_alone h 0%nat default_config s).
  - repeat constructor; vm_compute; auto.
  - vm_compute. reflexivity.
  - repeat constructor; vm_compute; auto.
  - vm_compute. reflexivity.
Defined.

(** ** Errors and edges *)

Section Edges.

Variable textsize : string -> font -> Z * Z.

(** X11.  When every entry of a width specification that is not empty has a
    y-offset above zero, and a width that [Image.new] accepts, rendering a
    document with a [div] root raises [AttributeError]: the first chunk is
    allocated, but no column was ever set, and nothing has been drawn. *)
Theorem first_offset_above_zero_fails h ws conf text tail attrib children :
  h ws <> [] ->
  Forall (fun e => 0 < y_offset e) (h ws) ->
  Forall (fun e => 0 <= width e <= INT_MAX) (h ws) ->
  exists s,
    render textsize h ws conf (Node "div" text tail attrib children)
      = Raise AttributeError s /\
    start_x s = None /\ end_x s = None /\ drawn s = [] /\
    image s = Some (blank (image_width s) IMAGE_BLOCK_HEIGHT).
Proof.
  intros Hne Hpos Hwid.
  pose proof (init_outcome h ws conf) as C.
  destruct (h ws) as [|e r] eqn:E; [congruence|].
  destruct C as (s0 & e0 & rest & Ei & Eh & Hmin & _ & Hc).
  pose proof (init_fresh _ _ _ _ _ Ei) as (_ & Him & Hims & _).
  assert (Hin : In e0 (e :: r)).
  { rewrite <- E.
    apply (Permutation_in e0 (Permutation_sym (sort_entries_perm (h ws)))).
    apply init_fresh in Ei.
    destruct Ei as (_ & _ & _ & _ & _ & _ & _ & _ & Eh' & _).
    rewrite Eh', store_set_same in Eh. rewrite Eh. left. reflexivity. }
  rewrite Forall_forall in Hpos. specialize (Hpos e0 Hin).
  destruct (Z.leb_spec (y_offset e0) 0) as [|_]; [lia|].
  destruct Hc as (_ & Hsx & Hex).
  assert (Hw : 0 <= image_width s0 <= INT_MAX).
  { destruct (init_image_width _ _ _ _ Ei) as [(e1 & Hin1 & ->) _].
    rewrite Forall_forall in Hwid. apply Hwid. rewrite <- E. exact Hin1. }
  unfold render. rewrite Ei.
  unfold run, bind at 1 2.
  rewrite (new_image_block_fresh _ Him Hw).
  change (handle_node textsize (Node "div" text tail attrib children))
    with (handle_div (for_each (handle_node textsize) children)
            (Node "div" text tail attrib children)).
  unfold handle_div, newline_unless_at_start, bind, get, get_attr.
  cbn. rewrite Hsx. eexists. split; [reflexivity|].
  cbn. unfold drawn. cbn. rewrite Hims, Hsx, Hex. auto.
Qed.

(** X12.  [get_image] can be called once: after a render, which has called
    it, a second call raises [AttributeError]. *)
Theorem image_is_assembled_once h ws conf root f s :
  render textsize h ws conf root = Ok f s ->
  exists s2, get_image s = Raise AttributeError s2.
Proof.
  intro H. unfold render in H.
  destruct (init h ws conf) as [[] s0|] eqn:E0; [|discriminate].
  apply init_fresh in E0. destruct E0 as (_ & Ei & _).
  unfold run in H. exec.
  match goal with K : new_image_block _ = _ |- _ =>
    apply (new_image_block_first _ _ _ Ei) in K; subst
  end.
  match goal with K : handle_node _ _ _ = Ok ?u _ |- _ =>
    destruct u; apply cursors_agree_handle_node in K;
    destruct K as [Hs _]; [discriminate|]
  end.
  match goal with K : get_image ?s1 = _ |- _ =>
    destruct (image s1) as [im|] eqn:Eim; [|congruence];
    unfold get_image, save_image_block in K; exec;
    rewrite Eim in *; exec
  end.
  match goal with K : (if ?b then _ else _) _ = _ |- _ =>
    destruct b; exec
  end.
  unfold get_image, save_image_block, bind, get, get_attr, modify. cbn.
  rewrite Eim. cbn. eauto.
Qed.

(** X13.  Asked at the top of a chunk for more height than the chunk has,
    [ensure_image] prints its warning and returns [None], leaving the chunk,
    the saved chunks and the chunk cursor as they are; every draw on that
    result raises [AttributeError]. *)
Theorem oversized_draw_is_refused h s d s' im :
  image s = Some im -> image_y s = 0 -> img_height im < h ->
  ensure_image h s = Ok d s' ->
  d = None /\ stdout s' = stdout s ++ [too_small] /\
  image s' = image s /\ images s' = images s /\ image_y s' = 0 /\
  forall op, exists s2, draw_on d op s' = Raise AttributeError s2.
Proof.
  intros Him Hy Hh H.
  destruct (ensure_image_refuses _ _ _ _ _ Him Hy Hh H) as [-> Hout].
  split; [reflexivity|]. split; [exact Hout|].
  unfold ensure_image in H. exec.
  match goal with K : apply_width_spec _ _ = _ |- _ =>
    apply apply_width_spec_cursor in K;
    destruct K as (_ & _ & Ei & Eiy & _ & Eis)
  end.
  match goal with K : image _ = Some ?i |- _ =>
    rewrite Ei, Him in K; inversion K; subst i
  end.
  rewrite Eiy, Hy in *.
  destruct (Z.gtb_spec (0 + h) (img_height im)); [|lia].
  simpl in *. unfold print in *. exec. cbn.
  repeat split; try congruence. intro op. eexists. reflexivity.
Qed.

(** X14.  A list item handled while no list is open raises [IndexError]
    before anything has changed. *)
Theorem list_item_needs_a_list text tail attrib children s :
  list_types s = [] ->
  handle_node textsize (Node "li" text tail attrib children) s
    = Raise IndexError s.
Proof.
  intro H.
  change (handle_node textsize (Node "li" text tail attrib children))
    with (handle_li textsize (for_each (handle_node textsize) children)
            (Node "li" text tail attrib children)).
  unfold handle_li, bind, get, index. rewrite H. reflexivity.
Qed.

(** X15.  The walk of any subtree, whatever its tags, ends with the indent,
    the preformatted flag, the stack of list types and the configuration that
    it began with, and with as many list counters. *)
Theorem every_subtree_restores_its_context n s s' :
  handle_node textsize n s = Ok tt s' ->
  indent s' = indent s /\ in_pre s' = in_pre s /\
  list_types s' = list_types s /\ config s' = config s /\
  length (list_item_nums s') = length (list_item_nums s).
Proof.
  intro H. apply walks_handle_node in H. destruct H as [Wi Wp Wt Wc _ _ Wn _].
  destruct (nums_rel_shape _ _ _ Wn) as (L & _). auto.
Qed.

Lemma newline_fields h s a s' :
  newline h s = Ok a s' ->
  let h' := if h =? -1 then line_height s else h in
  image_y s' = image_y s + h' /\ line_height s' = 0 /\
  image s' = image s /\ images s' = images s /\
  start_x s' = start_x s /\ end_x s' = end_x s /\ config s' = config s /\
  y s' = y s + h'.
Proof. unfold newline. intro H. exec. cbn. auto 10. Qed.

(** Below [2 ^ 53] an integer is a float. *)
Lemma round53_small n : Z.abs n < 2 ^ 53 -> Float.round53 n = n.
Proof.
  intro H. unfold Float.round53. cbv zeta.
  destruct (Z.leb_spec (Z.log2 (Z.abs n) - 52) 0) as [_|L]; [reflexivity|].
  exfalso.
  assert (P : 0 < Z.abs n).
  { destruct (Z.eq_dec (Z.abs n) 0) as [E|E]; [|lia].
    rewrite E in L. simpl in L. lia. }
  apply (Z.log2_lt_pow2 _ 53 P) in H. lia.
Qed.

Lemma float_max_large : 2 ^ 53 <= Float.MAX.
Proof. vm_compute. discriminate. Qed.

(** With the integers far below [2 ^ 53], the float is the exact value. *)
Lemma plus_half_exact a h :
  Z.abs a < 2 ^ 51 -> Z.abs h < 2 ^ 51 ->
  Float.plus_half a h = Some (Halves (2 * a + h)).
Proof.
  intros Ha Hh. pose proof float_max_large as M.
  assert (P : 2 ^ 51 < 2 ^ 53) by (vm_compute; reflexivity).
  assert (P' : 2 * 2 ^ 51 + 2 ^ 51 < 2 ^ 53) by (vm_compute; reflexivity).
  unfold Float.plus_half, Float.of_int, Float.of_halves. cbv zeta.
  rewrite (round53_small a), (round53_small h) by lia.
  destruct (Z.ltb_spec (2 * Float.MAX) (Z.abs h)); [lia|].
  destruct (Z.ltb_spec Float.MAX (Z.abs a)); [lia|].
  rewrite (round53_small (2 * a + h)) by lia.
  destruct (Z.ltb_spec (2 * Float.MAX) (Z.abs (2 * a + h))); [lia|].
  reflexivity.
Qed.

(** X16.  A rule ends the line and is drawn on the open chunk from [start_x]
    to [end_x] less the padding, half the bottom margin below the cursor,
    without asking for room in the chunk: no chunk is saved, and both cursors
    go down by the line height and the margin.  The ordinate of the line is
    the float that Python computes, the exact value as long as cursor and
    margin are below [2 ^ 51]. *)
Theorem rule_is_drawn_without_asking_for_room text tail attrib children s s' :
  handle_node textsize (Node "hr" text tail attrib children) s = Ok tt s' ->
  let m := margin_bottom (config s) in
  let down := line_height s + (if m =? -1 then 0 else m) in
  exists sx ex y0,
    start_x s = Some sx /\ end_x s = Some ex /\
    Float.plus_half (image_y s + line_height s) m = Some y0 /\
    (Z.abs (image_y s + line_height s) < 2 ^ 51 -> Z.abs m < 2 ^ 51 ->
     y0 = Halves (2 * (image_y s + line_height s) + m)) /\
    images s' = images s /\
    image s' =
      option_map
        (add_op (DLine (sx + hr_padding (config s)) y0
                       (ex - hr_padding (config s)) y0
                       (hr_color (config s))))
        (image s) /\
    image_y s' = image_y s + down /\ y s' = y s + down.
Proof.
  intros H m down.
  change (handle_node textsize (Node "hr" text tail attrib children))
    with (handle_hr (for_each (handle_node textsize) children)
            (Node "hr" text tail attrib children)) in H.
  unfold handle_hr in H.
  apply bind_ok in H. destruct H as (a1 & s1 & N1 & H).
  apply newline_fields in N1. cbv zeta in N1. simpl (-1 =? -1) in N1.
  destruct N1 as (Y1 & L1 & I1 & Is1 & Sx1 & Ex1 & C1 & Hy1).
  exec. subst m down.
  match goal with
  | Hs : start_x s1 = Some ?sx, He : end_x s1 = Some ?ex,
    F : Float.plus_half _ _ = Some ?y0,
    K : draw_on _ ?op s1 = Ok _ ?s2, N : newline _ ?s2 = Ok _ _ |- _ =>
      apply draw_on_ok in K; destruct K as [_ E2];
      assert (F2 : image_y s2 = image_y s1 /\ y s2 = y s1 /\
                   line_height s2 = line_height s1 /\
                   images s2 = images s1 /\
                   image s2 = option_map (add_op op) (image s1))
        by (rewrite E2; destruct (image s1) eqn:Ei; cbn; repeat split; auto);
      clear E2; apply newline_fields in N; cbv zeta in N;
      destruct N as (Y3 & _ & I3 & Is3 & _ & _ & _ & Hy3);
      destruct F2 as (Y2 & Hy2 & L2 & Is2 & I2);
      exists sx, ex, y0; rewrite <- Sx1, <- Ex1;
      split; [exact Hs|]; split; [exact He|];
      rewrite Y1, C1 in F; split; [exact F|];
      split; [intros Ba Bm; rewrite (plus_half_exact _ _ Ba Bm) in F;
              inversion F; reflexivity|]
  end.
  rewrite I3, I2, Is3, Is2, Is1, Y3, Y2, Y1, Hy3, Hy2, Hy1, L2, L1, I1, C1.
  destruct (margin_bottom (config s) =? -1); repeat split; lia.
Qed.

End Edges.

Lemma first_offset_above_zero_fails_witness :
  exists s,
    render mono_textsize (store_of [(10, 0, 200)]) 0%nat default_config
      (Node "div" None None [] [leaf "p" "x"]) = Raise AttributeError s /\
    start_x s = None /\ end_x s = None /\ drawn s = [] /\
    image s = Some (blank (image_width s) IMAGE_BLOCK_HEIGHT).
Proof.
  apply (first_offset_above_zero_fails mono_textsize (store_of [(10, 0, 200)])
           0%nat default_config None None [] [leaf "p" "x"]).
  - discriminate.
  - repeat constructor.
  - repeat constructor; vm_compute; discriminate.
Defined.

Lemma image_is_assembled_once_witness :
  exists f s,
    render mono_textsize (store_of [(0, 0, 200)]) 0%nat default_config
      (leaf "p" "Hello world") = Ok f s /\
    exists s2, get_image s = Raise AttributeError s2.
Proof.
  eexists. eexists. split; [vm_compute; reflexivity|].
  eapply (image_is_assembled_once mono_textsize (store_of [(0, 0, 200)]) 0%nat
            default_config (leaf "p" "Hello world")).
  vm_compute. reflexivity.
Defined.

Lemma oversized_draw_is_refused_witness :
  let s := ready [(0, 0, 200)] in
  let s' := state_of (ensure_image 1200 s) in
  @None surface = None /\ stdout s' = stdout s ++ [too_small] /\
  image s' = image s /\ images s' = images s /\ image_y s' = 0 /\
  forall op, exists s2, draw_on None op s' = Raise AttributeError s2.
Proof.
  intros s s'.
  apply (oversized_draw_is_refused 1200 s None s'
           (blank 200 IMAGE_BLOCK_HEIGHT)).
  - vm_compute. reflexivity.
  - vm_compute. reflexivity.
  - vm_compute. reflexivity.
  - vm_compute. reflexivity.
Defined.

Lemma list_item_needs_a_list_witness :
  handle_node mono_textsize (leaf "li" "x") (ready [(0, 0, 200)])
    = Raise IndexError (ready [(0, 0, 200)]).
Proof.
  apply (list_item_needs_a_list mono_textsize (Some "x") None [] []
           (ready [(0, 0, 200)])).
  reflexivity.
Defined.

Lemma every_subtree_restores_its_context_witness :
  let n :=
    branch "div"
      [ branch "pre" [leaf "code" "x  y"];
        branch "ul" [Node "li" (Some "a") None [] [branch "blockquote" [leaf "p" "q"]]] ] in
  let s := ready [(0, 0, 200)] in
  let s' := state_of (handle_node mono_textsize n s) in
  indent s' = indent s /\ in_pre s' = in_pre s /\
  list_types s' = list_types s /\ config s' = config s /\
  length (list_item_nums s') = length (list_item_nums s).
Proof.
  intros n s s'.
  apply (every_subtree_restores_its_context mono_textsize n s s').
  vm_compute. reflexivity.
Defined.

Lemma rule_is_drawn_without_asking_for_room_witness :
  let s := set_image_y 990 (set_line_height 12 (ready [(0, 0, 200)])) in
  let s' := state_of (handle_node mono_textsize hr_node s) in
  let m := margin_bottom (config s) in
  let down := line_height s + (if m =? -1 then 0 else m) in
  exists sx ex y0,
    start_x s = Some sx /\ end_x s = Some ex /\
    Float.plus_half (image_y s + line_height s) m = Some y0 /\
    (Z.abs (image_y s + line_height s) < 2 ^ 51 -> Z.abs m < 2 ^ 51 ->
     y0 = Halves (2 * (image_y s + line_height s) + m)) /\
    images s' = images s /\
    image s' =
      option_map
        (add_op (DLine (sx + hr_padding (config s)) y0
                       (ex - hr_padding (config s)) y0
                       (hr_color (config s))))
        (image s) /\
    image_y s' = image_y s + down /\ y s' = y s + down.
Proof.
  intros s s'.
  apply (rule_is_drawn_without_asking_for_room mono_textsize None None [] [] s s').
  vm_compute. reflexivity.
Defined.

(** ** Documents that miss nothing *)

#[local] Instance steady_preorder : PreOrder steady.
Proof.
  split.
  - intros s. split; [|split]; auto.
  - intros s1 s2 s3 (D12 & T12 & N12) (D23 & T23 & N23).
    split; [|split]; [auto | congruence | congruence].
Qed.

Lemma steady_in_list s s' : steady s s' -> in_list s -> in_list s'.
Proof.
  intros (_ & Et & En) [Ht Hn]. split; rewrite Et; [exact Ht|].
  intros Ho E. rewrite E in En. specialize (Hn Ho).
  destruct (list_item_nums s); [congruence | discriminate].
Qed.

(** The fields that [can_draw] reads are as they were. *)
Lemma can_draw_same s s' :
  start_x s' = start_x s -> end_x s' = end_x s -> image s' = image s ->
  image_draw s' = image_draw s -> width_spec_index s' = width_spec_index s ->
  can_draw s -> can_draw s'.
Proof.
  intros E1 E2 E3 E4 E5. unfold can_draw. rewrite E1, E2, E3, E4, E5. auto.
Qed.

Lemma frame_steady s s' : frame s s' -> (can_draw s -> can_draw s') -> steady s s'.
Proof.
  intros F D. split; [exact D|]. destruct F. split; congruence.
Qed.

Lemma steady_print line : keeps steady (print line).
Proof.
  intros s a s' H. apply frame_steady; [eapply framed_print; exact H|].
  unfold print in H. exec. apply can_draw_same; reflexivity.
Qed.

Lemma steady_newline h : keeps steady (newline h).
Proof.
  intros s a s' H. apply frame_steady; [eapply framed_newline; exact H|].
  unfold newline in H. exec. apply can_draw_same; reflexivity.
Qed.

Lemma steady_apply_width_spec h : keeps steady (apply_width_spec h).
Proof.
  intros s a s' H. apply frame_steady; [eapply framed_apply_width_spec; exact H|].
  pose proof (apply_width_spec_cursor _ _ _ _ H) as (_ & _ & Ei & _ & Ed & _).
  unfold apply_width_spec in H. exec.
  intros (Hs & He & Him & Hd & Hx).
  repeat match goal with
  | K : (if ?b then _ else _) _ = Ok _ _ |- _ => destruct b; exec
  end; unfold can_draw; cbn in *; rewrite ?Ei, ?Ed;
    repeat split; auto; try discriminate; lia.
Qed.

Lemma steady_new_image_block : keeps steady new_image_block.
Proof.
  intros s a s' H.
  apply frame_steady; [eapply framed_new_image_block; exact H|].
  unfold new_image_block, save_image_block in H. exec.
  intros (Hs & He & Him & Hd & Hx).
  match goal with K : match image ?s with _ => _ end _ = _ |- _ =>
    destruct (image s); exec
  end; unfold can_draw; cbn;
    (repeat split; auto; eexists; split; reflexivity).
Qed.

Lemma steady_ensure_image h : keeps steady (ensure_image h).
Proof.
  pose proof steady_apply_width_spec. pose proof steady_print.
  pose proof steady_new_image_block.
  unfold ensure_image.
  repeat match goal with
  | |- keeps _ (bind _ _) => apply keeps_bind; [ exact _ | | intro ]
  | |- keeps _ (if ?b then _ else _) => destruct b
  | |- keeps _ (ret _) => apply keeps_ret; exact _
  | |- keeps _ get => apply keeps_get; exact _
  | |- keeps _ (get_attr _) => apply keeps_get_attr; exact _
  | |- keeps _ _ => solve [auto]
  end.
Qed.

Lemma steady_draw_on d op : keeps steady (draw_on d op).
Proof.
  intros s a s' H. apply frame_steady; [eapply framed_draw_on; exact H|].
  apply draw_on_ok in H. destruct H as [_ ->].
  intros (Hs & He & (im & Him & Hh) & Hd & Hx). rewrite Him.
  unfold can_draw. cbn. repeat split; auto. eexists. split; [reflexivity|].
  exact Hh.
Qed.

Lemma steady_setter (f : state -> state) s :
  (can_draw s -> can_draw (f s)) ->
  list_types (f s) = list_types s ->
  list_item_nums (f s) = list_item_nums s ->
  steady s (f s).
Proof. intros D T N. split; [exact D|]. split; congruence. Qed.

#[local] Instance stays_drawable_preorder : PreOrder stays_drawable.
Proof.
  split; [intros s H; exact H | intros s1 s2 s3 H12 H23 H; auto].
Qed.

Lemma steady_stays {A} (m : M A) : keeps steady m -> keeps stays_drawable m.
Proof. intros K s a s' H. exact (proj1 (K _ _ _ H)). Qed.

Section Total.

Variable textsize : string -> font -> Z * Z.
Hypothesis bounded : fits_a_chunk textsize.

Lemma stays_drawable_render_text t fill eb f :
  keeps stays_drawable (render_text textsize t fill eb f).
Proof.
  intros s a s' H.
  apply (under_render_text textsize (config s) stays_drawable) in H;
    [ exact (proj2 (H eq_refl)) | .. ];
    auto using steady_stays, steady_print, steady_newline,
      steady_ensure_image, steady_draw_on;
    intros; unfold stays_drawable; apply can_draw_same; reflexivity.
Qed.

Lemma stays_drawable_handle_node n :
  keeps stays_drawable (handle_node textsize n).
Proof.
  intros s a s' H.
  apply (under_handle_node textsize (config s) stays_drawable) in H;
    [ exact (proj2 (H eq_refl)) | .. ];
    auto using steady_stays, steady_print, steady_newline,
      steady_ensure_image, steady_draw_on;
    intros; unfold stays_drawable; apply can_draw_same; reflexivity.
Qed.

Lemma steady_render_text t fill eb f :
  keeps steady (render_text textsize t fill eb f).
Proof.
  intros s a s' H. apply frame_steady.
  - eapply framed_render_text. exact H.
  - eapply stays_drawable_render_text. exact H.
Qed.

Lemma steady_handle_node n : keeps steady (handle_node textsize n).
Proof.
  intros s a s' H. split; [eapply stays_drawable_handle_node; exact H|].
  apply walks_handle_node in H. destruct H as [_ _ Wt _ _ _ Wn _].
  destruct (nums_rel_shape _ _ _ Wn) as (L & _). auto.
Qed.

Lemma steady_children children :
  keeps steady (for_each (handle_node textsize) children).
Proof.
  apply keeps_for_each; [exact _|]. apply Forall_forall. intros c _.
  apply steady_handle_node.
Qed.


(** *** Running forward *)

Lemma safe_step {A B} (m : M A) (k : A -> M B) s :
  safe m s -> (forall a s1, m s = Ok a s1 -> safe (k a) s1) ->
  safe (bind m k) s.
Proof.
  unfold safe, bind. intros Hm Hk.
  destruct (m s) as [a s1|e1 s1]; [exact (Hk a s1 eq_refl) | exact Hm].
Qed.

Lemma safe_ret {A} (a : A) s : safe (ret a) s.
Proof. exact I. Qed.

Lemma safe_get {B} (k : state -> M B) s :
  safe (k s) s -> safe (bind get k) s.
Proof. intro H. exact H. Qed.

Lemma safe_gets {A B} (f : state -> A) (k : A -> M B) s :
  safe (k (f s)) s -> safe (bind (gets f) k) s.
Proof. intro H. exact H. Qed.

Lemma safe_cfg {A B} (key : config_t -> A) (k : A -> M B) s :
  safe (k (key (config s))) s -> safe (bind (cfg key) k) s.
Proof. intro H. exact H. Qed.

Lemma safe_modify {B} f (k : unit -> M B) s :
  safe (k tt) (f s) -> safe (bind (modify f) k) s.
Proof. intro H. exact H. Qed.

Lemma safe_modify_last f s : safe (modify f) s.
Proof. exact I. Qed.

Lemma safe_get_attr {A B} (f : state -> option A) (k : A -> M B) s a :
  f s = Some a -> safe (k a) s -> safe (bind (get_attr f) k) s.
Proof. intros E H. unfold safe, bind, get_attr. rewrite E. exact H. Qed.

Lemma safe_index {A B} (l : list A) i (k : A -> M B) s a :
  py_index l i = Some a -> safe (k a) s -> safe (bind (index l i) k) s.
Proof. intros E H. unfold safe, bind, index. rewrite E. exact H. Qed.

Lemma safe_assoc {A B C} (m : M A) (k : A -> M B) (k' : B -> M C) s :
  safe (bind m (fun a => bind (k a) k')) s ->
  safe (bind (bind m k) k') s.
Proof. unfold safe, bind. destruct (m s); intro H; exact H. Qed.

Lemma safe_last {A} (m : M A) s :
  safe (bind m (fun a => ret a)) s -> safe m s.
Proof. unfold safe, bind, ret. destruct (m s); intro H; exact H. Qed.

(** The errors of [Image.new] and of the floats are of another kind. *)
Lemma safe_Image_new {B} w h (k : img -> M B) s :
  (forall im, safe (k im) s) -> safe (bind (Image_new w h) k) s.
Proof.
  intros H. unfold safe, bind, Image_new.
  destruct (_ || _); [split; discriminate|].
  destruct (_ || _); [split; discriminate|].
  exact (H _).
Qed.

Lemma safe_float_op {A B} (r : option A) (k : A -> M B) s :
  (forall a, safe (k a) s) -> safe (bind (float_op r) k) s.
Proof.
  intros H. unfold safe, bind, float_op.
  destruct r; [exact (H _) | split; discriminate].
Qed.

(** *** The primitives miss nothing *)

Lemma py_index_last_some {A} (l : list A) :
  l <> [] -> exists a, py_index l (-1) = Some a.
Proof.
  intro H. destruct (exists_last H) as (r & a & ->). exists a.
  apply py_index_last.
Qed.

Lemma safe_newline h s : can_draw s -> safe (newline h) s.
Proof.
  intros (Hs & _). destruct (start_x s) as [sx|] eqn:E; [|congruence].
  unfold newline. apply safe_get. do 2 apply safe_modify.
  eapply safe_get_attr; [exact E|]. apply safe_modify.
  apply safe_modify_last.
Qed.

Lemma safe_apply_width_spec h s :
  can_draw s -> safe (apply_width_spec h) s.
Proof.
  intros (_ & _ & _ & _ & Hx). unfold apply_width_spec. apply safe_get.
  cbv zeta.
  destruct (Z.ltb_spec (width_spec_index s + 1)
              (Z.of_nat (length (heap s (width_spec s))))) as [Hlt|];
    [|apply safe_ret].
  destruct (nth_error (heap s (width_spec s))
              (Z.to_nat (width_spec_index s + 1))) as [e|] eqn:E.
  - eapply safe_index.
    + unfold py_index. destruct (Z.ltb_spec (width_spec_index s + 1) 0); [lia|].
      exact E.
    + destruct (_ <=? _); [|apply safe_ret].
      do 2 apply safe_modify. apply safe_modify_last.
  - apply nth_error_None in E. lia.
Qed.

Lemma safe_ensure_image h s : can_draw s -> safe (ensure_image h) s.
Proof.
  intros Hd. unfold ensure_image. apply safe_step.
  - apply safe_apply_width_spec. exact Hd.
  - intros a s1 E. apply steady_apply_width_spec in E.
    destruct (proj1 E Hd) as (_ & _ & (im & Him & _) & Hdr & _).
    apply safe_get. eapply safe_get_attr; [exact Him|].
    destruct (_ >? _).
    + destruct (_ =? _).
      * unfold print. apply safe_modify. apply safe_ret.
      * unfold new_image_block, save_image_block.
        apply safe_assoc. apply safe_assoc. apply safe_get.
        rewrite Him. apply safe_assoc. apply safe_modify.
        apply safe_assoc.
        eapply safe_get_attr; [exact Hdr|].
        apply safe_modify. apply safe_assoc. apply safe_gets.
        apply safe_assoc. apply safe_Image_new. intro im'.
        repeat apply safe_modify. apply safe_last.
        eapply safe_get_attr; [reflexivity|]. apply safe_ret.
    + apply safe_last. eapply safe_get_attr; [exact Hdr|].
      apply safe_ret.
Qed.

(** With room for the draw in a chunk, the surface is granted. *)
Lemma ensure_image_grants h s d s' :
  can_draw s -> h <= IMAGE_BLOCK_HEIGHT ->
  ensure_image h s = Ok d s' -> d = Some Surface.
Proof.
  intros Hd Hh H. unfold ensure_image in H. exec.
  match goal with K : apply_width_spec _ _ = _ |- _ =>
    apply steady_apply_width_spec in K;
    destruct (proj1 K Hd) as (_ & _ & (im & Him & Hi) & Hdr & _)
  end.
  match goal with K : image _ = Some ?i |- _ =>
    rewrite Him in K; inversion K; subst i
  end.
  rewrite Hi in *.
  destruct (Z.gtb_spec (image_y x0 + h) IMAGE_BLOCK_HEIGHT).
  - destruct (Z.eqb_spec (image_y x0) 0); [lia|].
    unfold new_image_block in *. exec. cbn in *. congruence.
  - exec. congruence.
Qed.

Lemma safe_draw_on op s : safe (draw_on (Some Surface) op) s.
Proof. apply safe_modify_last. Qed.


Lemma safe_ret_bind {A B} (a : A) (k : A -> M B) s :
  safe (k a) s -> safe (bind (ret a) k) s.
Proof. intro H. exact H. Qed.

Lemma safe_get_attr_set {A B} (f : state -> option A) (k : A -> M B) s :
  f s <> None -> (forall a, f s = Some a -> safe (k a) s) ->
  safe (bind (get_attr f) k) s.
Proof.
  intros Hn Hk. destruct (f s) as [a|] eqn:E; [|congruence].
  eapply safe_get_attr; [exact E | apply Hk; reflexivity].
Qed.

Lemma cond_steady (C : Prop) s s' :
  steady s s' -> in_list s \/ C -> in_list s' \/ C.
Proof. intros K [L|L]; [left; eapply steady_in_list; eauto | right; exact L]. Qed.

Ltac have_draw :=
  match goal with H : can_draw _ |- can_draw _ => exact H end.

(** Records what a run of the context leaves for the next step. *)
Ltac note K :=
  let D := fresh "Hd" in
  assert (D := proj1 K ltac:(have_draw));
  try match goal with
      | L : in_list _ \/ _ |- _ =>
          let L' := fresh "Hl" in
          assert (L' := cond_steady _ _ _ K L); clear L
      end;
  try match goal with
      | L : in_list _ |- _ =>
          let L' := fresh "Hl" in
          assert (L' := steady_in_list _ _ K L); clear L
      end.

Ltac run_step :=
  lazymatch goal with
  | |- safe (bind (bind _ _) _) _ => apply safe_assoc
  | |- safe (bind get _) _ => apply safe_get; cbv zeta
  | |- safe (bind (gets _) _) _ => apply safe_gets
  | |- safe (bind (cfg _) _) _ => apply safe_cfg
  | |- safe (bind (ret _) _) _ => apply safe_ret_bind
  | |- safe (bind (modify _) _) _ => apply safe_modify
  | |- safe (bind (get_attr image_draw) _) _ =>
      eapply safe_get_attr;
      [ match goal with
        | H : can_draw _ |- _ => exact (proj1 (proj2 (proj2 (proj2 H))))
        end | ]
  | |- safe (bind (get_attr start_x) _) _ =>
      apply safe_get_attr_set;
      [ match goal with H : can_draw _ |- _ => exact (proj1 H) end
      | intros ? ? ]
  | |- safe (bind (get_attr end_x) _) _ =>
      apply safe_get_attr_set;
      [ match goal with H : can_draw _ |- _ => exact (proj1 (proj2 H)) end
      | intros ? ? ]
  | |- safe (bind (measure _ (Some Surface) _ _) _) _ =>
      unfold measure; apply safe_ret_bind
  | |- safe (bind (need_surface (Some Surface)) _) _ =>
      unfold need_surface; apply safe_ret_bind
  | |- safe (bind (plus_half _ _) _) _ =>
      unfold plus_half; apply safe_float_op; intro
  | |- safe (bind (float_op _) _) _ => apply safe_float_op; intro
  | |- safe (bind (newline _) _) _ =>
      apply safe_step;
      [ apply safe_newline; have_draw
      | let E := fresh "E" in
        intros ? ? E; apply steady_newline in E; note E ]
  | |- safe (bind (ensure_image _) _) _ =>
      apply safe_step;
      [ apply safe_ensure_image; have_draw
      | let E := fresh "E" in let G := fresh "G" in
        intros ? ? E;
        pose proof (fun D B => ensure_image_grants _ _ _ _ D B E) as G;
        specialize (G ltac:(have_draw)
                      ltac:(first [apply bounded | solve [auto]]));
        subst; apply steady_ensure_image in E; note E ]
  | |- safe (bind (draw_on (Some Surface) _) _) _ =>
      apply safe_step;
      [ apply safe_draw_on
      | let E := fresh "E" in
        intros ? ? E; apply steady_draw_on in E; note E ]
  | |- safe (bind (print _) _) _ =>
      apply safe_step;
      [ apply safe_modify_last
      | let E := fresh "E" in
        intros ? ? E; apply steady_print in E; note E ]
  | |- safe (ret _) _ => apply safe_ret
  | |- safe (modify _) _ => apply safe_modify_last
  | |- safe (newline _) _ => apply safe_newline; have_draw
  end.

Lemma extend_line_height n parts f x ex start :
  forall e wh,
    snd wh <= IMAGE_BLOCK_HEIGHT ->
    snd (snd (extend_line textsize n parts f x ex start e wh))
      <= IMAGE_BLOCK_HEIGHT.
Proof.
  induction n as [|n IH]; intros e wh H; simpl; [exact H|].
  destruct (_ >? _); simpl; [apply bounded|]. apply IH. apply bounded.
Qed.

Lemma safe_wrap_pass parts fill eb f i s :
  can_draw s ->
  safe (wrap_pass textsize parts fill eb f (Some Surface) i) s.
Proof.
  intro Hd. unfold wrap_pass.
  pose proof (fun x ex => extend_line_height (length parts - i) parts f x ex i
                            i (0, 0) ltac:(unfold IMAGE_BLOCK_HEIGHT; simpl; lia))
    as Hh.
  repeat run_step.
  destruct (_ <? _)%nat; [|destruct eb]; repeat run_step.
Qed.


Lemma steady_wrap_pass parts fill eb f d i :
  keeps steady (wrap_pass textsize parts fill eb f d i).
Proof.
  intros s a s' H. apply frame_steady.
  - eapply framed_wrap_pass. exact H.
  - apply (under_wrap_pass textsize (config s) stays_drawable) in H;
      [ exact (proj2 (H eq_refl)) | .. ];
      auto using steady_stays, steady_print, steady_newline,
        steady_ensure_image, steady_draw_on;
      intros; unfold stays_drawable; apply can_draw_same; reflexivity.
Qed.

(** A turn hands the surface on to the next one. *)
Lemma wrap_pass_surface parts fill eb f i s e b d' s' :
  can_draw s ->
  wrap_pass textsize parts fill eb f (Some Surface) i s = Ok (e, b, d') s' ->
  d' = Some Surface.
Proof.
  intros Hd H. unfold wrap_pass in H. exec.
  try match goal with K : need_surface _ _ = _ |- _ =>
    unfold need_surface in K; exec
  end.
  match goal with K : ensure_image _ _ = Ok ?d _ |- _ =>
    apply (ensure_image_grants _ _ _ _ Hd) in K;
    [ | apply extend_line_height; unfold IMAGE_BLOCK_HEIGHT; simpl; lia ]
  end.
  match goal with K : (e, b, d') = _ |- _ => inversion K end.
  congruence.
Qed.

Lemma safe_wrap_loop parts fill eb f fuel :
  forall i blocks s,
    can_draw s ->
    safe (wrap_loop textsize fuel parts fill eb f (Some Surface) i blocks) s.
Proof.
  induction fuel as [|fuel IH]; intros i blocks s Hd; simpl;
    [apply safe_ret|].
  destruct (_ <? _)%nat; [|apply safe_ret].
  apply safe_step; [apply safe_wrap_pass; exact Hd|].
  intros [[e b] d'] s1 E.
  pose proof (wrap_pass_surface _ _ _ _ _ _ _ _ _ _ Hd E) as ->.
  apply steady_wrap_pass in E. apply IH. exact (proj1 E Hd).
Qed.

Lemma safe_render_line fill f blocks line s :
  can_draw s -> safe (render_line textsize fill f blocks line) s.
Proof. intro Hd. unfold render_line. repeat run_step. Qed.

Lemma steady_render_line fill f blocks line :
  keeps steady (render_line textsize fill f blocks line).
Proof.
  intros s a s' H. apply frame_steady.
  - eapply framed_render_line. exact H.
  - apply (under_render_line textsize (config s) stays_drawable) in H;
      [ exact (proj2 (H eq_refl)) | .. ];
      auto using steady_stays, steady_print, steady_newline,
        steady_ensure_image, steady_draw_on;
      intros; unfold stays_drawable; apply can_draw_same; reflexivity.
Qed.

Lemma safe_render_lines fill f lines :
  forall blocks s,
    can_draw s -> safe (render_lines textsize fill f lines blocks) s.
Proof.
  induction lines as [|line r IH]; intros blocks s Hd; simpl;
    [apply safe_ret|].
  apply safe_step; [apply safe_render_line; exact Hd|].
  intros blocks' s1 E. apply steady_render_line in E.
  apply IH. exact (proj1 E Hd).
Qed.

Lemma safe_render_text t fill eb f s :
  can_draw s -> safe (render_text textsize t fill eb f) s.
Proof.
  intro Hd. unfold render_text. destruct t as [t|]; [|apply safe_ret].
  run_step. destruct (in_pre s).
  - apply safe_step; [apply safe_render_lines; exact Hd|].
    intros. apply safe_ret.
  - run_step. apply safe_step; [apply safe_wrap_loop; exact Hd|].
    intros. apply safe_ret.
Qed.


Lemma steady_newline_unless_at_start : keeps steady newline_unless_at_start.
Proof.
  pose proof steady_newline. unfold newline_unless_at_start.
  repeat match goal with
  | |- keeps _ (bind _ _) => apply keeps_bind; [ exact _ | | intro ]
  | |- keeps _ (if ?b then _ else _) => destruct b
  | |- keeps _ (ret _) => apply keeps_ret; exact _
  | |- keeps _ get => apply keeps_get; exact _
  | |- keeps _ (get_attr _) => apply keeps_get_attr; exact _
  | |- keeps _ _ => solve [auto]
  end.
Qed.

Lemma safe_newline_unless_at_start s :
  can_draw s -> safe newline_unless_at_start s.
Proof.
  intro Hd. unfold newline_unless_at_start. repeat run_step.
  destruct (_ >? _); run_step.
Qed.

(** *** The handlers return *)

Section Handlers.

Variable hc : M unit.
Variable n : node.
Hypothesis steady_hc : keeps steady hc.

Ltac run_more safe_hc :=
  lazymatch goal with
  | |- safe (bind (render_text _ _ _ _ _) _) _ =>
      apply safe_step;
      [ apply safe_render_text; have_draw
      | let E := fresh "E" in
        intros ? ? E; apply steady_render_text in E; note E ]
  | |- safe (bind newline_unless_at_start _) _ =>
      apply safe_step;
      [ apply safe_newline_unless_at_start; have_draw
      | let E := fresh "E" in
        intros ? ? E; apply steady_newline_unless_at_start in E; note E ]
  | |- safe newline_unless_at_start _ =>
      apply safe_newline_unless_at_start; have_draw
  | |- safe (bind hc _) _ =>
      apply safe_step;
      [ apply safe_hc;
        [ have_draw
        | match goal with
          | H : in_list _ \/ _ |- _ => exact H
          | H : in_list _ |- _ => exact H
          end ]
      | let E := fresh "E" in
        intros ? ? E; apply steady_hc in E; note E ]
  | |- safe hc _ =>
      apply safe_hc;
      [ have_draw
      | match goal with
        | H : in_list _ \/ _ |- _ => exact H
        | H : in_list _ |- _ => exact H
        end ]
  | |- _ => run_step
  end.

(** The handlers that open no list and read none. *)
Section Plain.

Variable C : Prop.
Hypothesis safe_hc :
  forall s, can_draw s -> in_list s \/ C -> safe hc s.

Variable s : state.
Hypothesis Hd : can_draw s.
Hypothesis Hl : in_list s \/ C.

Lemma safe_handle_a : safe (handle_a textsize hc n) s.
Proof.
  unfold handle_a. destruct (attrib_get "href" (node_attrib n));
    repeat run_more safe_hc.
Qed.

Lemma safe_handle_span f : safe (handle_span textsize f hc n) s.
Proof. unfold handle_span. repeat run_more safe_hc. Qed.

Lemma safe_handle_blockquote : safe (handle_blockquote hc n) s.
Proof. unfold handle_blockquote. repeat run_more safe_hc. Qed.

Lemma safe_handle_div : safe (handle_div hc n) s.
Proof. unfold handle_div. repeat run_more safe_hc. Qed.

Lemma safe_handle_h :
  heading_font (node_tag n) <> None -> safe (handle_h textsize hc n) s.
Proof.
  intro Hf. unfold handle_h.
  apply safe_get_attr_set; [exact Hf | intros f _].
  repeat run_more safe_hc.
Qed.

Lemma safe_handle_hr : safe (handle_hr hc n) s.
Proof. unfold handle_hr. repeat run_more safe_hc. Qed.

Lemma safe_handle_p : safe (handle_p textsize hc n) s.
Proof. unfold handle_p. repeat run_more safe_hc. Qed.

Lemma safe_handle_pre : safe (handle_pre hc n) s.
Proof. unfold handle_pre. repeat run_more safe_hc. Qed.

Lemma safe_handle_unknown : safe (handle_unknown hc n) s.
Proof. unfold handle_unknown. repeat run_more safe_hc. Qed.

End Plain.

(** The lists and their items. *)
Section Lists.

Hypothesis safe_hc : forall s, can_draw s -> in_list s -> safe hc s.

Variable s : state.
Hypothesis Hd : can_draw s.

Lemma snoc_not_nil {A} (l : list A) x : l ++ [x] <> [].
Proof. intro E. symmetry in E. exact (app_cons_not_nil _ _ _ E). Qed.

Lemma in_list_pushed k (s1 : state) types nums :
  list_types s1 = types ++ [k] ->
  (k = ordered -> list_item_nums s1 = nums ++ [1]) ->
  in_list s1.
Proof.
  intros Et En. split; rewrite Et.
  - apply snoc_not_nil.
  - rewrite top_is_ordered_last. destruct k; [|discriminate].
    intros _. rewrite En by reflexivity. apply snoc_not_nil.
Qed.

Lemma safe_handle_ul : safe (handle_ul hc n) s.
Proof.
  unfold handle_ul. repeat run_more safe_hc.
  apply safe_step.
  - apply safe_hc; [have_draw|].
    eapply (in_list_pushed unordered _ _ []); [reflexivity | discriminate].
  - intros ? ? Ehc. apply steady_hc in Ehc. note Ehc. repeat run_more safe_hc.
Qed.

Lemma safe_handle_ol : safe (handle_ol hc n) s.
Proof.
  unfold handle_ol. repeat run_more safe_hc.
  apply safe_step.
  - apply safe_hc; [have_draw|].
    eapply (in_list_pushed ordered); [reflexivity | reflexivity].
  - intros ? ? Ehc. apply steady_hc in Ehc. note Ehc. repeat run_more safe_hc.
Qed.

Lemma steady_nums s1 s2 :
  steady s1 s2 -> list_item_nums s1 <> [] -> list_item_nums s2 <> [].
Proof.
  intros (_ & _ & En) Hn E. rewrite E in En.
  destruct (list_item_nums s1); [congruence | discriminate].
Qed.

Lemma safe_handle_li :
  in_list s -> safe (handle_li textsize hc n) s.
Proof.
  intros Hl. unfold handle_li. run_step.
  destruct (py_index_last_some (list_types s) (proj1 Hl)) as [k Ek].
  eapply safe_index; [exact Ek|].
  destruct k; cbv beta iota.
  - assert (Hn : list_item_nums s <> []).
    { apply (proj2 Hl). unfold top_is_ordered. rewrite Ek. reflexivity. }
    destruct (py_index_last_some _ Hn) as [number En].
    run_step. eapply safe_index; [exact En|].
    unfold draw_number.
    repeat run_more safe_hc.
    repeat match goal with
           | K : steady ?a ?b, Hn : list_item_nums ?a <> [] |- _ =>
               apply (steady_nums _ _ K) in Hn
           end.
    destruct (py_index_last_some _ Hn) as [last El].
    eapply safe_index; [exact El|].
    run_step. run_step.
    match goal with
    | |- safe _ ?s' =>
        assert (Hl' : in_list s')
          by (split; [exact (proj1 Hl) | intros _; apply snoc_not_nil])
    end.
    clear Hl. repeat run_more safe_hc.
  - repeat run_more safe_hc.
Qed.

End Lists.

End Handlers.

(** *** The walk safe *)

Lemma safe_children children :
  Forall (fun c => forall s,
            can_draw s -> in_list s \/ reaches_stray_item c = false ->
            safe (handle_node textsize c) s) children ->
  forall s,
    can_draw s -> in_list s \/ existsb reaches_stray_item children = false ->
    safe (for_each (handle_node textsize) children) s.
Proof.
  induction 1 as [|c r Hc _ IH]; intros s Hd Hl; simpl; [apply safe_ret|].
  apply safe_step.
  - apply Hc; [exact Hd|]. destruct Hl as [Hl|Hl]; [left; exact Hl|].
    right. simpl in Hl. apply orb_false_iff in Hl. tauto.
  - intros a s1 E. apply steady_handle_node in E. apply IH.
    + exact (proj1 E Hd).
    + destruct Hl as [Hl|Hl]; [left; eapply steady_in_list; eauto|].
      right. simpl in Hl. apply orb_false_iff in Hl. tauto.
Qed.

Lemma safe_handle_node n :
  forall s, can_draw s -> in_list s \/ reaches_stray_item n = false ->
    safe (handle_node textsize n) s.
Proof.
  induction n as [tag text tail attrib children IH] using node_induction.
  intros s Hd Hl.
  pose proof (safe_children children IH) as Hplain.
  assert (Hlist : forall s, can_draw s -> in_list s ->
                    safe (for_each (handle_node textsize) children) s)
    by (intros; apply Hplain; auto).
  pose proof (steady_children children) as Hst.
  change (handle_node textsize (Node tag text tail attrib children))
    with (handlers_get tag (handlers textsize) handle_unknown
            (for_each (handle_node textsize) children)
            (Node tag text tail attrib children)).
  apply (handlers_get_cases
           (fun h => safe (h (for_each (handle_node textsize) children)
                                (Node tag text tail attrib children)) s)).
  - intros h Hin. unfold handlers in Hin. simpl in Hin.
    repeat (destruct Hin as [Hin|Hin];
            [inversion Hin; subst tag h; clear Hin|]);
      try contradiction; simpl in Hl;
      unfold handle_code, handle_em, handle_strong.
    all: lazymatch goal with
      | |- safe (handle_a _ _ _) _ =>
          exact (safe_handle_a _ _ Hst _ Hplain s Hd Hl)
      | |- safe (handle_span _ ?f _ _) _ =>
          exact (safe_handle_span _ _ Hst _ Hplain s Hd Hl f)
      | |- safe (handle_blockquote _ _) _ =>
          exact (safe_handle_blockquote _ _ Hst _ Hplain s Hd Hl)
      | |- safe (handle_div _ _) _ =>
          exact (safe_handle_div _ _ Hst _ Hplain s Hd Hl)
      | |- safe (handle_h _ _ _) _ =>
          apply (safe_handle_h _ _ _ s Hd Hl); simpl; discriminate
      | |- safe (handle_hr _ _) _ =>
          exact (safe_handle_hr _ _ _ s Hd Hl)
      | |- safe (handle_p _ _ _) _ =>
          exact (safe_handle_p _ _ Hst _ Hplain s Hd Hl)
      | |- safe (handle_pre _ _) _ =>
          exact (safe_handle_pre _ _ Hst _ Hplain s Hd Hl)
      | |- safe (handle_ol _ _) _ =>
          exact (safe_handle_ol _ _ Hst Hlist s Hd)
      | |- safe (handle_ul _ _) _ =>
          exact (safe_handle_ul _ _ Hst Hlist s Hd)
      | |- safe (handle_li _ _ _) _ =>
          apply (safe_handle_li _ _ Hst Hlist s Hd);
          destruct Hl as [Hl|Hl]; [exact Hl | discriminate]
      end.
  - intros Hn.
    assert (E : reaches_stray_item (Node tag text tail attrib children)
                = existsb reaches_stray_item children).
    { simpl. unfold heading_font.
      repeat match goal with
      | |- context [String.eqb tag ?k] =>
          destruct (String.eqb_spec tag k) as [->|_];
          [exfalso; eapply Hn; unfold handlers; simpl; tauto|]
      end.
      reflexivity. }
    rewrite E in Hl. exact (safe_handle_unknown _ _ _ Hplain s Hd Hl).
Qed.

(** X17.  Rendering a document raises neither [AttributeError] nor
    [IndexError] when no measured text is higher than a chunk, an entry of
    the width specification begins at the top ([y_offset <= 0]) and no list
    item is met outside a list.  What it can still raise comes from the
    sizes that [Image.new] refuses and from floats out of range. *)
Theorem well_formed_documents_miss_nothing (h : store) (ws : loc)
  (conf : config_t) (root : node) (e : exn) (s : state) :
  Exists (fun e => y_offset e <= 0) (h ws) ->
  reaches_stray_item root = false ->
  render textsize h ws conf root = Raise e s ->
  e <> AttributeError /\ e <> IndexError.
Proof.
  intros Hex Hs R. unfold render in R.
  pose proof (init_outcome h ws conf) as Hi.
  destruct (h ws) as [|e' r] eqn:E; [inversion Hex|].
  destruct Hi as (s0 & e0 & rest & Ei & _ & Hmin & _ & Hc).
  rewrite Ei in R.
  assert (H0 : y_offset e0 <= 0).
  { apply Exists_exists in Hex. destruct Hex as (e1 & He1 & Hy).
    rewrite Forall_forall in Hmin. specialize (Hmin e1 He1). lia. }
  destruct (Z.leb_spec (y_offset e0) 0); [|lia].
  destruct Hc as (Hx & Hsx & Hex').
  pose proof (init_fresh _ _ _ _ _ Ei) as (_ & Him & _).
  assert (S : safe (bind (run textsize root) (fun _ => get_image)) s0);
    [|unfold safe in S; rewrite R in S; exact S].
  clear R. unfold run. apply safe_assoc. apply safe_step.
  - unfold new_image_block, save_image_block.
    apply safe_assoc. apply safe_get. rewrite Him. apply safe_ret_bind.
    apply safe_gets. apply safe_Image_new. intro im0.
    do 2 apply safe_modify. apply safe_modify_last.
  - intros a s1 E1. apply new_image_block_first in E1; [|exact Him]. subst s1.
    match goal with
    | |- safe _ ?s' =>
        assert (Hd : can_draw s')
    end.
    { unfold can_draw. cbn. rewrite Hsx, Hex', Hx.
      split; [discriminate|]. split; [discriminate|].
      split; [eexists; split; reflexivity|].
      split; [reflexivity | lia]. }
    apply safe_step.
    + apply safe_handle_node; [exact Hd | right; exact Hs].
    + intros u s2 E2. apply steady_handle_node in E2.
      destruct (proj1 E2 Hd) as (_ & _ & (im & Him2 & _) & Hdr & _).
      unfold get_image, save_image_block.
      apply safe_assoc. apply safe_get. rewrite Him2.
      apply safe_assoc. apply safe_modify. apply safe_assoc.
      eapply safe_get_attr; [exact Hdr|]. apply safe_modify.
      apply safe_get. apply safe_Image_new. intro final.
      unfold safe. destruct (pastes_fit _ _); [exact I | split; discriminate].
Qed.

End Total.

Lemma well_formed_documents_miss_nothing_witness :
  let conf :=
    {| blockquote_indent := 16; code_indent := 16;
       cfg_color := (255, 255, 255, 255); hr_color := (220, 220, 220, 255);
       hr_padding := 0; link_color := (100, 100, 255, 255);
       list_indent := 28; list_item_margin_bottom := 4;
       bullet_outdent := 8; margin_bottom := -100 |} in
  let root :=
    branch "div"
      [ Node "h1" (Some "Title") None [] [leaf "li" "not walked"];
        branch "ol" [ leaf "li" "one";
                      Node "li" (Some "two") None []
                        [branch "ul" [leaf "li" "in"]] ];
        hr_node;
        Node "pre" None None [] [leaf "code" "a line"];
        leaf "table" "other" ] in
  let r := render mono_textsize (store_of [(40, 0, 100); (0, 0, 200)]) 0%nat
             conf root in
  r = Raise ValueError (state_of r) /\
  ValueError <> AttributeError /\ ValueError <> IndexError.
Proof.
  intros conf root r. split; [vm_compute; reflexivity|].
  apply (well_formed_documents_miss_nothing mono_textsize
           (fun t f => ltac:(unfold IMAGE_BLOCK_HEIGHT; simpl; lia))
           (store_of [(40, 0, 100); (0, 0, 200)]) 0%nat conf root
           ValueError (state_of r)).
  - right. left. vm_compute. discriminate.
  - reflexivity.
  - vm_compute. reflexivity.
Defined.

(** ** The numbers of an ordered list *)

#[local] Instance drawn_grows_preorder : PreOrder drawn_grows.
Proof.
  split.
  - intro s. exists []. rewrite app_nil_r. reflexivity.
  - intros s1 s2 s3 [a Ea] [b Eb]. exists (a ++ b).
    rewrite Eb, Ea, app_assoc. reflexivity.
Qed.






Section Numbers.

Variable textsize : string -> font -> Z * Z.










End Numbers.

